(** * PriceWise search service: normalisation primitives, query cache and
      pagination view of [backend/app/search_service.py].

    The development embeds the Python code shallowly:
    - a [str] is the list of its Unicode code points;
    - the regular expressions of the source are kept as syntax trees and run by
      a backtracking matcher with the priorities of Python's [re] module
      (leftmost match, ordered alternation, greedy repetition);
    - the tables the code takes from the Python runtime (Unicode case and
      digit tables, [html.unescape]) are the fields of the class [PyRuntime];
    - the cache entry is a record, the [seen] and [pending_sources] sets are
      [gset]s, [source_limits] is a [gmap];
    - network fetches and provider calls are answered by an explicit
      environment. *)

From Stdlib Require Import ZArith List Bool Lia String Ascii Sorted.
From Stdlib Require Import Floats.SpecFloat.
From stdpp Require Import base decidable countable gmap list.

Local Open Scope Z_scope.

(** ** Python strings *)

Module Py.

(** A code point. *)
Definition char := Z.
(** A Python [str]. *)
Definition str := list char.

(** Decoding of the UTF-8 bytes of a literal of this file into code points. *)
Fixpoint utf8_decode (bs : list Z) : str :=
  match bs with
  | [] => []
  | b :: rest =>
    if b <? 128 then b :: utf8_decode rest
    else if b <? 224 then
      match rest with
      | c1 :: rest1 => ((b - 192) * 64 + (c1 - 128)) :: utf8_decode rest1
      | _ => []
      end
    else if b <? 240 then
      match rest with
      | c1 :: c2 :: rest2 =>
        ((b - 224) * 4096 + (c1 - 128) * 64 + (c2 - 128)) :: utf8_decode rest2
      | _ => []
      end
    else
      match rest with
      | c1 :: c2 :: c3 :: rest3 =>
        ((b - 240) * 262144 + (c1 - 128) * 4096 + (c2 - 128) * 64 + (c3 - 128))
          :: utf8_decode rest3
      | _ => []
      end
  end.

Fixpoint bytes_of (s : string) : list Z :=
  match s with
  | EmptyString => []
  | String a rest => Z.of_N (N_of_ascii a) :: bytes_of rest
  end.

(** The [str] written by a literal. *)
Definition u (s : string) : str := utf8_decode (bytes_of s).

Definition in_range (lo hi c : Z) : bool := (lo <=? c) && (c <=? hi).

(** [str.isspace] of one character; also [\s] of [re] and the characters
    removed by [str.strip()]. *)
Definition is_space (c : char) : bool :=
  in_range 9 13 c || in_range 28 31 c || (c =? 32) || (c =? 133) || (c =? 160)
  || (c =? 5760) || in_range 8192 8202 c || (c =? 8232) || (c =? 8233)
  || (c =? 8239) || (c =? 8287) || (c =? 12288).

Definition mem (c : char) (cs : str) : bool := existsb (Z.eqb c) cs.

Fixpoint dropwhile (p : char -> bool) (s : str) : str :=
  match s with
  | [] => []
  | c :: rest => if p c then dropwhile p rest else s
  end.

(** [s.strip()]: leading and trailing characters satisfying [p] removed. *)
Definition strip_with (p : char -> bool) (s : str) : str :=
  rev (dropwhile p (rev (dropwhile p s))).

Definition strip (s : str) : str := strip_with is_space s.
(** [s.strip(chars)]. *)
Definition strip_chars (chars : str) (s : str) : str :=
  strip_with (fun c => mem c chars) s.

Fixpoint starts_with (p s : str) : bool :=
  match p, s with
  | [], _ => true
  | a :: p', b :: s' => (a =? b) && starts_with p' s'
  | _ :: _, [] => false
  end.

(** [sub in s]. *)
Fixpoint contains (sub s : str) : bool :=
  starts_with sub s ||
  match s with
  | [] => false
  | _ :: rest => contains sub rest
  end.

(** [s.replace(old, new)] for a non-empty [old]: [skip] counts the characters
    of a replaced occurrence still to be dropped. *)
Fixpoint replace_from (old new : str) (skip : nat) (s : str) : str :=
  match s with
  | [] => []
  | c :: rest =>
    match skip with
    | S k => replace_from old new k rest
    | O =>
      if starts_with old s
      then new ++ replace_from old new (Nat.pred (length old)) rest
      else c :: replace_from old new O rest
    end
  end.

Definition replace (old new : str) (s : str) : str :=
  match old with
  | [] => new ++ flat_map (fun c => c :: new) s
  | _ => replace_from old new O s
  end.

(** [s.split(sep)] for a one-character separator. *)
Fixpoint split_on (sep : char) (cur : str) (s : str) : list str :=
  match s with
  | [] => [rev cur]
  | c :: rest =>
    if c =? sep then rev cur :: split_on sep [] rest
    else split_on sep (c :: cur) rest
  end.

Definition split (sep : char) (s : str) : list str := split_on sep [] s.

(** [s.rsplit(sep, 1)[0]] for a one-character separator: what precedes the
    last separator, the whole string when there is none. *)
Definition rsplit1_head (sep : char) (s : str) : str :=
  if mem sep s then rev (tl (dropwhile (fun c => negb (c =? sep)) (rev s)))
  else s.

(** Normalisation of one slice bound against a sequence of length [n]. *)
Definition clamp_index (n i : Z) : Z :=
  if i <? 0 then Z.max 0 (i + n) else Z.min i n.

(** [l[a:b]], negative bounds counting from the end. *)
Definition slice {A} (l : list A) (a b : Z) : list A :=
  let n := Z.of_nat (length l) in
  let a' := clamp_index n a in
  let b' := clamp_index n b in
  firstn (Z.to_nat (b' - a')) (skipn (Z.to_nat a') l).

(** Comparison of two strings, code point by code point. *)
Fixpoint str_compare (a b : str) : comparison :=
  match a, b with
  | [], [] => Eq
  | [], _ :: _ => Lt
  | _ :: _, [] => Gt
  | x :: a', y :: b' =>
    match x ?= y with
    | Eq => str_compare a' b'
    | c => c
    end
  end.

Definition str_eqb (a b : str) : bool :=
  match str_compare a b with Eq => true | _ => false end.

End Py.
Export Py.


(** ** Tables of the Python runtime

    What the code obtains from the interpreter and its standard library: the
    Unicode database behind [str.lower], [re.IGNORECASE], [\d], [\w] and
    [int], and [html.unescape].  The development is parametric in them. *)

Class PyRuntime := {
  (** [html.unescape] *)
  unescape : str -> str;
  (** [str.lower] *)
  lower : str -> str;
  (** simple lower- and upper-case mapping of one code point *)
  tolower : char -> char;
  toupper : char -> char;
  (** the further lower-case characters [re] treats as equal to a lower-case
      one under [IGNORECASE] *)
  casefix : char -> list char;
  (** value of a decimal digit ([\d], [int]) *)
  decimal : char -> option Z;
  (** [str.isalnum] of one character *)
  isalnum : char -> bool;
  (** [html.unescape] returns its argument when it holds no ['&'] *)
  unescape_plain : forall s, mem 38 s = false -> unescape s = s;
  (** on Basic Latin only the letters are cased *)
  tolower_ascii : forall c, 0 <= c < 128 ->
    tolower c = if in_range 65 90 c then c + 32 else c;
  toupper_ascii : forall c, 0 <= c < 128 ->
    toupper c = if in_range 97 122 c then c - 32 else c;
}.

(** ** Regular expressions *)

Module Re.

(** One-character classes. *)
Inductive cls :=
| CLit (c : char)              (* the character itself *)
| CRange (lo hi : char)        (* [lo-hi] *)
| CSpace                       (* \s *)
| CDigit                       (* \d *)
| CWord                        (* \w *)
| CNot (c : cls)               (* \D, [^...] *)
| COr (a b : cls).             (* [ab] *)

Inductive regex :=
| Eps
| Chr (c : cls)
| Seq (a b : regex)
| Alt (a b : regex)            (* a|b, a tried first *)
| Star (a : regex)             (* a*, greedy *)
| Group (n : nat) (a : regex)  (* capturing group number n *)
| Bol                          (* ^ *)
| Eol                          (* $ *)
| WordB                        (* \b *)
| NotBehind (c : cls)          (* (?<!c) *)
| NotAhead (c : cls).          (* (?!c) *)

Definition Plus (a : regex) : regex := Seq a (Star a).
Definition Opt (a : regex) : regex := Alt a Eps.

Fixpoint Lits (s : str) : regex :=
  match s with
  | [] => Eps
  | [c] => Chr (CLit c)
  | c :: rest => Seq (Chr (CLit c)) (Lits rest)
  end.

Fixpoint Times (n : nat) (a : regex) : regex :=
  match n with
  | O => Eps
  | S O => a
  | S k => Seq a (Times k a)
  end.

Fixpoint UpTo (n : nat) (a : regex) : regex :=
  match n with
  | O => Eps
  | S k => Alt (Seq a (UpTo k a)) Eps
  end.

(** [a{lo,hi}] *)
Definition Rep (lo hi : nat) (a : regex) : regex :=
  match lo, (hi - lo)%nat with
  | O, d => UpTo d a
  | _, O => Times lo a
  | _, d => Seq (Times lo a) (UpTo d a)
  end.

(** [a{lo,}] *)
Definition RepMin (lo : nat) (a : regex) : regex :=
  match lo with
  | O => Star a
  | _ => Seq (Times lo a) (Star a)
  end.

Fixpoint AltL (l : list regex) : regex :=
  match l with
  | [] => Eps
  | [a] => a
  | a :: rest => Alt a (AltL rest)
  end.

Fixpoint SeqL (l : list regex) : regex :=
  match l with
  | [] => Eps
  | [a] => a
  | a :: rest => Seq a (SeqL rest)
  end.

Section Matcher.
Context {R : PyRuntime}.

Definition iscased (c : char) : bool :=
  negb (c =? tolower c) || negb (c =? toupper c).

(** A pattern character against an input character; [ic] is [re.IGNORECASE]. *)
Definition lit_match (ic : bool) (p ch : char) : bool :=
  if ic && iscased p
  then let lo := tolower p in (tolower ch =? lo) || mem (tolower ch) (casefix lo)
  else ch =? p.

Definition is_digit (c : char) : bool :=
  match decimal c with Some _ => true | None => false end.

Definition is_word (c : char) : bool := isalnum c || (c =? 95).

Fixpoint cls_match (ic : bool) (c : cls) (ch : char) : bool :=
  match c with
  | CLit p => lit_match ic p ch
  | CRange lo hi => in_range lo hi ch
  | CSpace => is_space ch
  | CDigit => is_digit ch
  | CWord => is_word ch
  | CNot c' => negb (cls_match ic c' ch)
  | COr a b => cls_match ic a ch || cls_match ic b ch
  end.

(** Matching state: the input before the cursor (last character first), the
    input after it, and the groups closed so far (latest first). *)
Record mstate := MState {
  before : str;
  after : str;
  caps : list (nat * str);
}.

Definition head_is (p : char -> bool) (s : str) : bool :=
  match s with
  | c :: _ => p c
  | [] => false
  end.

(** [$]: the end of the string, or just before a line feed that ends it. *)
Definition at_end (s : str) : bool :=
  match s with
  | [] => true
  | [c] => c =? 10
  | _ => false
  end.

Definition at_boundary (s : mstate) : bool :=
  xorb (head_is is_word (before s)) (head_is is_word (after s)).

Definition close_group (n : nat) (s0 s1 : mstate) : mstate :=
  let len := (length (before s1) - length (before s0))%nat in
  MState (before s1) (after s1) ((n, rev (firstn len (before s1))) :: caps s1).

(** Backtracking matcher in continuation-passing style: [k] is what remains
    to be matched after [r].  An iteration of [Star] has to consume input. *)
Fixpoint rmatch (ic : bool) (r : regex) (k : mstate -> option mstate)
    (s : mstate) : option mstate :=
  match r with
  | Eps => k s
  | Chr c =>
    match after s with
    | ch :: rest =>
      if cls_match ic c ch then k (MState (ch :: before s) rest (caps s)) else None
    | [] => None
    end
  | Seq a b => rmatch ic a (rmatch ic b k) s
  | Alt a b =>
    match rmatch ic a k s with
    | Some res => Some res
    | None => rmatch ic b k s
    end
  | Star a =>
    (fix loop (n : nat) (s : mstate) {struct n} : option mstate :=
       match n with
       | O => k s
       | S n' =>
         match rmatch ic a
                 (fun s' => if (length (after s') <? length (after s))%nat
                            then loop n' s' else None) s with
         | Some res => Some res
         | None => k s
         end
       end) (length (after s)) s
  | Group n a => rmatch ic a (fun s' => k (close_group n s s')) s
  | Bol => match before s with [] => k s | _ :: _ => None end
  | Eol => if at_end (after s) then k s else None
  | WordB => if at_boundary s then k s else None
  | NotBehind c => if head_is (cls_match ic c) (before s) then None else k s
  | NotAhead c => if head_is (cls_match ic c) (after s) then None else k s
  end.

(** A match object: [start()], [end()], [group(0)] and the groups. *)
Record mobj := MObj {
  m_start : Z;
  m_end : Z;
  m_text : str;
  m_caps : list (nat * str);
}.

Fixpoint lookup_cap (n : nat) (l : list (nat * str)) : option str :=
  match l with
  | [] => None
  | (i, v) :: rest => if (i =? n)%nat then Some v else lookup_cap n rest
  end.

(** [m.group(n)], the empty string for a group that took no part. *)
Definition group (m : mobj) (n : nat) : str :=
  match n with
  | O => m_text m
  | _ => match lookup_cap n (m_caps m) with Some v => v | None => [] end
  end.

Definition consumed (aft : str) (s' : mstate) : nat :=
  (length aft - length (after s'))%nat.

(** One attempt at the position [bef|aft]; with [must_advance] an empty match
    is refused (the attempt that follows an empty match). *)
Definition try_at (ic : bool) (r : regex) (must_advance : bool)
    (bef aft : str) : option mstate :=
  rmatch ic r
    (fun s' => if must_advance && (consumed aft s' =? 0)%nat then None else Some s')
    (MState bef aft []).

Definition mk_match (bef aft : str) (s' : mstate) : mobj :=
  let st := Z.of_nat (length bef) in
  let n := consumed aft s' in
  MObj st (st + Z.of_nat n) (firstn n aft) (caps s').

(** Left-to-right scan for non-overlapping matches: the characters outside
    matches ([inl]) and the matches ([inr]) in order.  [skip] counts the
    characters of the last match not yet passed. *)
Fixpoint scan (ic : bool) (r : regex) (skip : nat) (bef aft : str)
    : list (char + mobj) :=
  match aft with
  | [] =>
    match skip with
    | S _ => []
    | O =>
      match try_at ic r false bef [] with
      | Some s' => [inr (mk_match bef [] s')]
      | None => []
      end
    end
  | c :: rest =>
    match skip with
    | S k => scan ic r k (c :: bef) rest
    | O =>
      match try_at ic r false bef aft with
      | Some s' =>
        match consumed aft s' with
        | S k => inr (mk_match bef aft s') :: scan ic r k (c :: bef) rest
        | O =>
          inr (mk_match bef aft s') ::
          match try_at ic r true bef aft with
          | Some s'' =>
            inr (mk_match bef aft s'') ::
            scan ic r (Nat.pred (consumed aft s'')) (c :: bef) rest
          | None => inl c :: scan ic r O (c :: bef) rest
          end
        end
      | None => inl c :: scan ic r O (c :: bef) rest
      end
    end
  end.

Fixpoint matches_of (l : list (char + mobj)) : list mobj :=
  match l with
  | [] => []
  | inl _ :: rest => matches_of rest
  | inr m :: rest => m :: matches_of rest
  end.

(** [re.finditer(r, s)] *)
Definition finditer (ic : bool) (r : regex) (s : str) : list mobj :=
  matches_of (scan ic r O [] s).

(** [re.search(r, s)] *)
Definition search (ic : bool) (r : regex) (s : str) : option mobj :=
  match finditer ic r s with
  | [] => None
  | m :: _ => Some m
  end.

(** [re.findall(r, s)] for a pattern without groups. *)
Definition findall (ic : bool) (r : regex) (s : str) : list str :=
  map m_text (finditer ic r s).

(** Replacement templates: literal text and [\n] group references. *)
Inductive titem := TLit (c : char) | TGroup (n : nat).

Definition tlits (s : str) : list titem := map TLit s.

Definition expand (tpl : list titem) (m : mobj) : str :=
  flat_map (fun t => match t with TLit c => [c] | TGroup n => group m n end) tpl.

(** [re.sub(r, tpl, s)] *)
Definition sub (ic : bool) (r : regex) (tpl : list titem) (s : str) : str :=
  flat_map (fun t => match t with inl c => [c] | inr m => expand tpl m end)
           (scan ic r O [] s).

End Matcher.
End Re.
Export Re.

(** ** Price extraction *)

Section Prices.
Context {R : PyRuntime}.

(** [int(s)] for a string of decimal digits; [None] where Python raises. *)
Fixpoint int_digits (acc : Z) (s : str) : option Z :=
  match s with
  | [] => Some acc
  | c :: rest =>
    match decimal c with
    | Some d => int_digits (acc * 10 + d) rest
    | None => None
    end
  end.

Definition py_int (s : str) : option Z :=
  match s with
  | [] => None
  | _ => int_digits 0 s
  end.

Definition digit := Chr CDigit.
Definition space := Chr CSpace.

(** [[\s\u00a0\u202f]] *)
Definition thousands_sep : cls := COr CSpace (COr (CLit 160) (CLit 8239)).

(** [\d{1,3}(?:[\s\u00a0\u202f]\d{3})+] *)
Definition grouped_number : regex :=
  Seq (Rep 1 3 digit) (Plus (Seq (Chr thousands_sep) (Times 3 digit))).

(** [(?:[,.]\d{1,2})?] *)
Definition fraction : regex :=
  Opt (Seq (Chr (COr (CLit 44) (CLit 46))) (Rep 1 2 digit)).

(** [price_pat] with [\d{2,hi}] as second alternative. *)
Definition price_pat (hi : nat) : regex :=
  Seq (Group 1 (Alt grouped_number (Rep 2 hi digit))) fraction.

(** [rub_pat = (?:₽|руб\.?|р\.?)(?!\w)] *)
Definition rub_pat : regex :=
  Seq (AltL [Lits (u "₽");
             Seq (Lits (u "руб")) (Opt (Chr (CLit 46)));
             Seq (Lits (u "р")) (Opt (Chr (CLit 46)))])
      (NotAhead CWord).

(** The common head of [_first_price] and [_prices_from_text]. *)
Definition price_text (text : str) : str :=
  let t := unescape text in
  let t := replace [8201] [32] (replace [8239] [32] (replace [160] [32] t)) in
  strip (sub false (Plus space) (tlits [32]) t).

(** [re.sub(r"\D", "", s)] *)
Definition only_digits (s : str) : str := sub false (Chr (CNot CDigit)) [] s.

Definition in_price_range (v : Z) : bool := (10 <=? v) && (v <=? 1000000).

(** The value of a currency match of [_first_price], when it is accepted. *)
Definition accepted_price (m : option mobj) : option Z :=
  match m with
  | None => None
  | Some m =>
    let digits := only_digits (group m 1) in
    let val := match digits with
               | [] => Some 0
               | _ => py_int digits
               end in
    match val with
    | Some v => if in_price_range v then Some v else None
    | None => None
    end
  end.

(** The loop over [\d{1,3}(?:[\s\u00a0\u202f]\d{3})+|\d{4,}]. *)
Fixpoint first_in_range (ms : list mobj) : option Z :=
  match ms with
  | [] => None
  | m :: rest =>
    match only_digits (group m 0) with
    | [] => first_in_range rest
    | digits =>
      match py_int digits with
      | None => first_in_range rest
      | Some v => if in_price_range v then Some v else first_in_range rest
      end
    end
  end.

Definition _first_price (text : str) : Z :=
  match text with
  | [] => 0
  | _ =>
    let t := price_text text in
    match accepted_price
            (search true (SeqL [NotBehind CDigit; price_pat 6; Star space; rub_pat]) t) with
    | Some v => v
    | None =>
    match accepted_price
            (search true (SeqL [rub_pat; Star space; price_pat 6; NotAhead CDigit]) t) with
    | Some v => v
    | None =>
    match first_in_range
            (finditer false (Alt grouped_number (RepMin 4 digit)) t) with
    | Some v => v
    | None =>
    match search false (SeqL [WordB; Group 1 (Rep 2 6 digit); WordB]) t with
    | Some m => match py_int (group m 1) with Some v => v | None => 0 end
    | None => 0
    end end end end
  end.

(** [_PRICE_CONTEXT_SKIP]: the source writes the pattern in a raw string with
    doubled backslashes, so [\\s*] is a backslash followed by any number of
    [s], and [\\b] is a backslash followed by [b]. *)
Definition _PRICE_CONTEXT_SKIP : regex :=
  AltL [SeqL [Lits (u "/"); Chr (CLit 92); Star (Chr (CLit 115)); Lits (u "мес")];
        SeqL [Lits (u "в"); Chr (CLit 92); Star (Chr (CLit 115)); Lits (u "месяц")];
        SeqL [Lits (u "в"); Chr (CLit 92); Star (Chr (CLit 115)); Lits (u "мес")];
        SeqL [Chr (CLit 92); Lits (u "bмес"); Chr (CLit 92); Lits (u "b")];
        Lits (u "кредит"); Lits (u "рассроч"); Lits (u "бонус"); Lits (u "балл");
        Lits (u "кэшб"); Lits (u "cashback")].

(** [t[max(0, m.start() - 16) : min(len(t), m.end() + 16)]] *)
Definition price_context (t : str) (m : mobj) : str :=
  slice t (Z.max 0 (m_start m - 16)) (Z.min (Z.of_nat (length t)) (m_end m + 16)).

Definition context_skipped (t : str) (m : mobj) : bool :=
  match search true _PRICE_CONTEXT_SKIP (price_context t m) with
  | Some _ => true
  | None => false
  end.

Fixpoint collect_prices (t : str) (ms : list mobj) : list Z :=
  match ms with
  | [] => []
  | m :: rest =>
    if context_skipped t m then collect_prices t rest
    else
      match only_digits (group m 1) with
      | [] => collect_prices t rest
      | digits =>
        match py_int digits with
        | None => collect_prices t rest
        | Some v =>
          if in_price_range v then v :: collect_prices t rest
          else collect_prices t rest
        end
      end
  end.

Definition _prices_from_text (text : str) : list Z :=
  match text with
  | [] => []
  | _ =>
    let t := price_text text in
    match t with
    | [] => []
    | _ => collect_prices t (finditer true (SeqL [price_pat 7; Star space; rub_pat]) t)
    end
  end.

(** A value handed to [_normalize_price]. *)
Inductive pyval :=
| VNone
| VBool (b : bool)
| VInt (z : Z)
| VFloat (f : spec_float)
| VStr (s : str).     (* a [str], or any other object by its [str()] *)

(** [int(f)] of a float: truncation towards zero, [None] where it raises
    (infinities and NaN). *)
Definition int_of_float (f : spec_float) : option Z :=
  match f with
  | S754_zero _ => Some 0
  | S754_infinity _ | S754_nan => None
  | S754_finite sg m e =>
    let a := if 0 <=? e then Z.pos m * 2 ^ e else Z.pos m / 2 ^ (- e) in
    Some (if sg then - a else a)
  end.

Definition _normalize_price (value : pyval) : Z :=
  match value with
  | VNone => 0
  | VBool _ => 0
  | _ =>
    let v := match value with
             | VInt z => z
             | VFloat f => match int_of_float f with Some z => z | None => 0 end
             | VStr s => _first_price s
             | _ => 0
             end in
    if (v <=? 0) || (1000000 <? v) then 0 else v
  end.

End Prices.

(** ** A runtime for evaluating examples

    The tables restricted to Basic Latin and the Cyrillic letters
    U+0400..U+045F, which cover the patterns of the source and the example
    texts of this file; any other code point is taken as an uncased symbol.
    [html.unescape] is taken on texts without ['&'], which it returns as they
    are. *)

Module Basic.

Definition tolower (c : char) : char :=
  if in_range 65 90 c then c + 32
  else if in_range 1040 1071 c then c + 32
  else if in_range 1024 1039 c then c + 80
  else c.

Definition toupper (c : char) : char :=
  if in_range 97 122 c then c - 32
  else if in_range 1072 1103 c then c - 32
  else if in_range 1104 1119 c then c - 80
  else c.

Definition casefix (c : char) : list char :=
  if c =? 105 then [305]
  else if c =? 115 then [383]
  else if c =? 1074 then [7296]
  else if c =? 1076 then [7297]
  else if c =? 1086 then [7298]
  else if c =? 1089 then [7299]
  else if c =? 1090 then [7300; 7301]
  else if c =? 1098 then [7302]
  else [].

Definition decimal (c : char) : option Z :=
  if in_range 48 57 c then Some (c - 48) else None.

Definition isalnum (c : char) : bool :=
  in_range 48 57 c || in_range 65 90 c || in_range 97 122 c || in_range 1024 1119 c.

Definition unescape (s : str) : str := s.

Definition lower (s : str) : str := map tolower s.

Definition runtime : PyRuntime :=
  Build_PyRuntime unescape lower tolower toupper casefix decimal isalnum
    (fun s _ => eq_refl)
    ltac:(intros c H; unfold tolower, in_range;
          repeat match goal with
                 | |- context [?a <=? ?b] => destruct (Z.leb_spec a b); simpl; try lia
                 end; reflexivity)
    ltac:(intros c H; unfold toupper, in_range;
          repeat match goal with
                 | |- context [?a <=? ?b] => destruct (Z.leb_spec a b); simpl; try lia
                 end; reflexivity).

End Basic.


(** ** Query tokens and the token match *)

Section Tokens.
Context {R : PyRuntime}.

Definition _QUERY_STOPWORDS : list str :=
  map u ["и"; "в"; "во"; "на"; "для"; "по"; "с"; "со"; "от"; "до"; "а"; "или";
         "у"; "к"; "из"; "без"; "что"; "это"; "как"; "так"; "же"]%string.

Definition _TOKEN_SYNONYMS : list (str * list str) :=
  [(u "айфон", [u "iphone"]);
   (u "iphone", [u "айфон"]);
   (u "айпад", [u "ipad"]);
   (u "ipad", [u "айпад"]);
   (u "эппл", [u "apple"]);
   (u "эпл", [u "apple"]);
   (u "apple", [u "эппл"; u "эпл"]);
   (u "самсунг", [u "samsung"]);
   (u "samsung", [u "самсунг"]);
   (u "сяоми", [u "xiaomi"]);
   (u "xiaomi", [u "сяоми"]);
   (u "хуавей", [u "huawei"]);
   (u "huawei", [u "хуавей"]);
   (u "реалми", [u "realme"]);
   (u "realme", [u "реалми"])].

Definition str_in (x : str) (l : list str) : bool := existsb (str_eqb x) l.

(** [d.get(k, [])] on a dictionary written as its list of entries. *)
Fixpoint dict_get {A} (d : list (str * A)) (k : str) (dflt : A) : A :=
  match d with
  | [] => dflt
  | (k', v) :: rest => if str_eqb k' k then v else dict_get rest k dflt
  end.

(** [s.replace("ё", "е")] *)
Definition yo_to_ye (s : str) : str := replace (u "ё") (u "е") s.

(** The loop of [_query_tokens] that drops stop words, one-character tokens
    and repetitions. *)
Fixpoint keep_tokens (seen : list str) (raw : list str) : list str :=
  match raw with
  | [] => []
  | t :: rest =>
    if str_in t _QUERY_STOPWORDS then keep_tokens seen rest
    else if (length t <=? 1)%nat then keep_tokens seen rest
    else if str_in t seen then keep_tokens seen rest
    else t :: keep_tokens (t :: seen) rest
  end.

Definition nonempty (s : str) : bool := match s with [] => false | _ => true end.

Definition _query_tokens (query : str) : list str :=
  let q := yo_to_ye (lower (strip query)) in
  let q := sub false (Plus (Chr (CNot (COr CWord CSpace)))) (tlits [32]) q in
  let q := strip (sub false (Plus (Chr CSpace)) (tlits [32]) q) in
  let raw := List.filter (fun t => nonempty t) (split 32 q) in
  slice (keep_tokens [] raw) 0 10.

(** The title as [_matches_query] looks at it. *)
Definition match_title (title : str) : str := yo_to_ye (lower (strip title)).

(** [[tok, *(_TOKEN_SYNONYMS.get(tok, []) or [])]] *)
Definition variants (tok : str) : list str := tok :: dict_get _TOKEN_SYNONYMS tok [].

(** [any(v and v in t for v in variants)] *)
Definition token_hit (t : str) (tok : str) : bool :=
  existsb (fun v => nonempty v && contains v t) (variants tok).

(** The value of [hits] after the loop over the tokens. *)
Definition count_hits (t : str) (tokens : list str) : Z :=
  Z.of_nat (length (List.filter (token_hit t) tokens)).

(** Binary64 arithmetic of [len(tokens) * 0.6]. *)
Definition b64_mul := SFmul 53 1024.
Definition b64_of_Z (n : Z) : spec_float := binary_normalize 53 1024 n 0 false.
(** The double written [0.6]: 5404319552844595 * 2^-53. *)
Definition b64_0_6 : spec_float := S754_finite false 5404319552844595 (-53).

(** [int(n * 0.6)] *)
Definition int_times_0_6 (n : Z) : Z :=
  match int_of_float (b64_mul (b64_of_Z n) b64_0_6) with
  | Some z => z
  | None => 0
  end.

(** [required] of [_matches_query] for [n] tokens. *)
Definition required_hits (n : Z) : Z :=
  if n =? 1 then 1
  else if n =? 2 then 2
  else Z.max 2 (int_times_0_6 n).

Definition _matches_query (title : str) (tokens : list str) : bool :=
  match tokens with
  | [] => true
  | _ =>
    let t := match_title title in
    match t with
    | [] => false
    | _ => required_hits (Z.of_nat (length tokens)) <=? count_hits t tokens
    end
  end.

End Tokens.

(** ** Title cleaning *)

Section Titles.
Context {R : PyRuntime}.

(** A class listing its characters. *)
Fixpoint CSet (cs : list char) : cls :=
  match cs with
  | [] => CNot (COr CSpace (CNot CSpace))
  | [c] => CLit c
  | c :: rest => COr (CLit c) (CSet rest)
  end.

(** [[\u200b\u200c\u200d\u200e\u200f\u202a\u202b\u202c\u2060]] *)
Definition invisible_chars : list char :=
  [8203; 8204; 8205; 8206; 8207; 8234; 8235; 8236; 8288].

(** [^(смартфон|мобильный телефон|сотовый телефон|телефон)\s+] *)
Definition title_prefix_rx : regex :=
  SeqL [Bol;
        Group 1 (AltL [Lits (u "смартфон"); Lits (u "мобильный телефон");
                       Lits (u "сотовый телефон"); Lits (u "телефон")]);
        Plus space].

(** [,?\s*(?<!\()б/у\b] *)
Definition used_rx : regex :=
  SeqL [Opt (Chr (CLit 44)); Star space; NotBehind (CLit 40); Lits (u "б/у"); WordB].

(** [\d+\s*/\s*\d+\s*гб] *)
Definition memory_body : regex :=
  SeqL [Plus digit; Star space; Chr (CLit 47); Star space; Plus digit; Star space;
        Lits (u "гб")].

(** [,\s*(\d+\s*/\s*\d+\s*гб)] *)
Definition comma_memory_rx : regex :=
  SeqL [Chr (CLit 44); Star space; Group 1 memory_body].

(** [\s+ГБ] *)
Definition space_gb_rx : regex := Seq (Plus space) (Lits (u "ГБ")).

(** [_clean_title] up to, not including, the limit of 160 characters. *)
Definition clean_title_body (text : str) : str :=
  let t := unescape text in
  let t := replace [160] [32] t in
  let t := sub false (Chr (CSet invisible_chars)) [] t in
  let t := sub false (Plus space) (tlits [32]) (strip_chars [32; 44; 59; 160] t) in
  let t := sub true title_prefix_rx [] t in
  let t := sub true used_rx (tlits (u " (б/у)")) t in
  let t := sub true comma_memory_rx [TLit 32; TGroup 1] t in
  let t := sub true space_gb_rx (tlits (u " ГБ")) t in
  if contains (u "(б/у") t && negb (contains (u "(б/у)") t)
  then replace (u "(б/у") (u "(б/у)") t
  else t.

(** [if len(t) > 160: t = t[:160].rsplit(" ", 1)[0]] *)
Definition limit_title (t : str) : str :=
  if (160 <? length t)%nat then rsplit1_head 32 (slice t 0 160) else t.

Definition _clean_title (text : str) : str := limit_title (clean_title_body text).

(** [\b\d+\s*/\s*\d+\s*гб\b] *)
Definition mem_rx : regex := SeqL [WordB; memory_body; WordB].

Definition _clean_ali_title (text : str) : str :=
  let t := _clean_title text in
  let mems := findall true mem_rx t in
  let t :=
    match mems with
    | first :: _ :: _ =>
      let t2 := strip (sub true mem_rx [] t) in
      let t2 := sub false (Plus space) (tlits [32]) t2 in
      let t2 :=
        if contains (u "(б/у)") t2
        then sub false (SeqL [Star space; Lits (u "(б/у)"); Star space; Eol])
                 (tlits ([32] ++ first ++ u " (б/у)")) t2
        else strip (t2 ++ [32] ++ first) in
      strip (sub false (Plus space) (tlits [32]) t2)
    | _ => t
    end in
  let t := strip (sub false (Plus space) (tlits [32]) t) in
  let t := sub false (Seq (Plus space) (Chr (CLit 40))) (tlits (u " (")) t in
  sub false (Seq (Chr (CLit 40)) (Plus space)) (tlits (u "(")) t.

End Titles.


(** ** Items and cache entries *)

(** [SearchItem]; [P] is the type of the price: a [pyval] as a provider
    returns it, an integer once [_normalize_price] has been applied. *)
Module Item.
Record t (P : Type) := Make {
  id : str;
  title : str;
  price : P;
  thumbnail_url : str;
  product_url : str;
  merchant_name : str;
  merchant_logo_url : str;
  source : str;
}.
Arguments Make {P}.
Arguments id {P}.
Arguments title {P}.
Arguments price {P}.
Arguments thumbnail_url {P}.
Arguments product_url {P}.
Arguments merchant_name {P}.
Arguments merchant_logo_url {P}.
Arguments source {P}.
End Item.

(** An item as a provider returns it. *)
Definition RawItem := Item.t pyval.
(** An item of the cache. *)
Definition SearchItem := Item.t Z.

Definition YANDEX_MAX_PAGES : Z := 10.
Definition CACHE_TTL_SECONDS : Z := 10 * 60.
Definition MAX_CACHE_ITEMS : Z := 200.
Definition PER_SOURCE_LIMIT : Z := 20.
Definition SLOW_SOURCES_TIMEOUT_SECONDS : Z := 8.
Definition SLOW_SOURCES_TIMEOUT_SECONDS_PER_SOURCE : Z := 60.

(** ["market.yandex.ru"] *)
Definition YANDEX : str := u "market.yandex.ru".

Module Entry.
(** [SearchCacheEntry]; clock readings and durations are in seconds.  The
    [lock] is not a field: every function below that changes an entry is run
    by the source while it holds the lock of that entry. *)
Record t := Make {
  key : str;
  expires_at : Z;
  items : list SearchItem;
  seen : gset str;
  source_limits : gmap str Z;
  pending_sources : gset str;
  yandex_next_page : Z;
  yandex_rs : str;
  yandex_exhausted : bool;
}.

Definition with_items (f : list SearchItem -> list SearchItem) (e : t) : t :=
  Make (key e) (expires_at e) (f (items e)) (seen e) (source_limits e)
       (pending_sources e) (yandex_next_page e) (yandex_rs e) (yandex_exhausted e).
Definition with_seen (f : gset str -> gset str) (e : t) : t :=
  Make (key e) (expires_at e) (items e) (f (seen e)) (source_limits e)
       (pending_sources e) (yandex_next_page e) (yandex_rs e) (yandex_exhausted e).
Definition with_source_limits (f : gmap str Z -> gmap str Z) (e : t) : t :=
  Make (key e) (expires_at e) (items e) (seen e) (f (source_limits e))
       (pending_sources e) (yandex_next_page e) (yandex_rs e) (yandex_exhausted e).
Definition with_pending_sources (f : gset str -> gset str) (e : t) : t :=
  Make (key e) (expires_at e) (items e) (seen e) (source_limits e)
       (f (pending_sources e)) (yandex_next_page e) (yandex_rs e) (yandex_exhausted e).
Definition with_yandex_next_page (p : Z) (e : t) : t :=
  Make (key e) (expires_at e) (items e) (seen e) (source_limits e)
       (pending_sources e) p (yandex_rs e) (yandex_exhausted e).
Definition with_yandex_rs (rs : str) (e : t) : t :=
  Make (key e) (expires_at e) (items e) (seen e) (source_limits e)
       (pending_sources e) (yandex_next_page e) rs (yandex_exhausted e).
Definition with_yandex_exhausted (b : bool) (e : t) : t :=
  Make (key e) (expires_at e) (items e) (seen e) (source_limits e)
       (pending_sources e) (yandex_next_page e) (yandex_rs e) b.

(** [SearchCacheEntry(key=key)] *)
Definition new (k : str) : t := Make k 0 [] ∅ ∅ ∅ 1 [] false.

(** [SearchCacheEntry.reset] *)
Definition reset (now : Z) (e : t) : t :=
  Make (key e) (now + CACHE_TTL_SECONDS) [] ∅ ∅ ∅ 1 [] false.
End Entry.

Section Cache.
Context {R : PyRuntime}.

Definition _DISPLAY_MERCHANT_NAMES : list (str * str) :=
  [(u "market.yandex.ru", u "Яндекс Маркет");
   (u "aliexpress.ru", u "AliExpress");
   (u "wildberries.ru", u "Wildberries");
   (u "cdek.shopping", u "CDEK Shopping");
   (u "citilink.ru", u "Ситилинк");
   (u "xcom-shop.ru", u "XCOM-SHOP");
   (u "mvideo.ru", u "М.Видео");
   (u "eldorado.ru", u "Эльдорадо");
   (u "dns-shop.ru", u "DNS");
   (u "avito.ru", u "Avito");
   (u "onlinetrade.ru", u "Onlinetrade");
   (u "ozon.ru", u "Ozon")].

Definition _display_merchant_name (source : str) : str :=
  dict_get _DISPLAY_MERCHANT_NAMES source source.

(** [f"{item.source}|{item.id}"] *)
Definition _item_key {P} (item : Item.t P) : str :=
  Item.source item ++ [124] ++ Item.id item.

(** The three assignments made to an item before it is filtered and cached;
    [clean] is the title cleaning of the call site. *)
Definition normalize_item (clean : str -> str) (item : RawItem) : SearchItem :=
  let mn := Item.merchant_name item in
  Item.Make (Item.id item) (clean (Item.title item))
    (_normalize_price (Item.price item))
    (Item.thumbnail_url item) (Item.product_url item)
    (if negb (nonempty mn) || str_eqb mn (Item.source item)
     then _display_merchant_name (Item.source item) else mn)
    (Item.merchant_logo_url item) (Item.source item).

(** [entry.seen.add(k); entry.items.append(item)] *)
Definition append_item (k : str) (item : SearchItem) (e : Entry.t) : Entry.t :=
  Entry.with_items (fun l => l ++ [item]) (Entry.with_seen (fun s => {[k]} ∪ s) e).

(** What a provider task produced. *)
Inductive provider_result :=
| RNone                               (* the task was still pending *)
| RException
| RItems (res : list RawItem).

(** The [for item in res] loop of [_apply_provider_result]. *)
Fixpoint apply_items (tokens : list str) (res : list RawItem) (e : Entry.t) : Entry.t :=
  match res with
  | [] => e
  | raw :: rest =>
    let clean := if str_eqb (Item.source raw) (u "aliexpress.ru")
                 then _clean_ali_title else _clean_title in
    let item := normalize_item clean raw in
    if match tokens with [] => false | _ => negb (_matches_query (Item.title item) tokens) end
    then apply_items tokens rest e
    else
      let k := _item_key item in
      if decide (k ∈ Entry.seen e) then apply_items tokens rest e
      else apply_items tokens rest (append_item k item e)
  end.

Definition set_limit (source : str) (v : Z) (e : Entry.t) : Entry.t :=
  Entry.with_source_limits (fun m => <[source := v]> m) e.

(** [_apply_provider_result], with the variables of the enclosing
    [_ensure_cached] it reads as parameters. *)
Definition _apply_provider_result (tokens : list str)
    (explicit_sources track_limits : bool)
    (source : str) (requested_limit prev_limit : Z) (res : provider_result)
    (e : Entry.t) : Entry.t :=
  match res with
  | RNone => e
  | RException => if track_limits then set_limit source requested_limit e else e
  | RItems l =>
    let e := if (match l with [] => false | _ => true end) || negb explicit_sources
             then set_limit source (Z.max prev_limit requested_limit) e else e in
    apply_items tokens l e
  end.

(** A task left running at the deadline, with what its callback will pass to
    [_apply_provider_result_async]. *)
Record straggler := Straggler {
  st_tokens : list str;
  st_explicit : bool;
  st_track : bool;
  st_source : str;
  st_requested : Z;
  st_prev : Z;
  st_res : provider_result;
}.

Definition _apply_provider_result_async (st : straggler) (e : Entry.t) : Entry.t :=
  let e := _apply_provider_result (st_tokens st) (st_explicit st) (st_track st)
             (st_source st) (st_requested st) (st_prev st) (st_res st) e in
  Entry.with_pending_sources (fun p => p ∖ {[st_source st]}) e.

(** *** The Yandex filler *)

(** What one page fetch gives the filler. *)
Record YandexPage := {
  yp_no_html : bool;              (* [not html] *)
  yp_rs : str;                    (* the [rs] parameter of [final_url], empty when absent *)
  yp_parsed : list RawItem;       (* [provider._parse_html(html, limit=100)] *)
}.

(** What the network and the providers answer. *)
Record Env := {
  fetch_yandex : str -> Z -> str -> YandexPage;   (* query, page, rs *)
  provider_latency : str -> str -> Z -> Z;        (* source, query, limit: seconds *)
  provider_result_of : str -> str -> Z -> provider_result;
}.

Inductive event :=
| EvYandexPage (page : Z)
| EvSearch (source : str) (limit : Z).

Definition yandex_count (e : Entry.t) : Z :=
  Z.of_nat (length (List.filter (fun it => str_eqb (Item.source it) YANDEX) (Entry.items e))).

Definition len_items (e : Entry.t) : Z := Z.of_nat (length (Entry.items e)).

(** The [for item in page_items] loop of [_fill_yandex]; the result carries
    [added]. *)
Fixpoint add_page_items (yandex_target : Z) (page_items : list RawItem)
    (added current_yandex : Z) (e : Entry.t) : Entry.t * Z :=
  match page_items with
  | [] => (e, added)
  | raw :: rest =>
    let item := normalize_item _clean_title raw in
    let k := _item_key item in
    if decide (k ∈ Entry.seen e) then add_page_items yandex_target rest added current_yandex e
    else
      let e := append_item k item e in
      let added := added + 1 in
      let current_yandex := current_yandex + 1 in
      if yandex_target <=? current_yandex then (e, added)
      else if MAX_CACHE_ITEMS <=? len_items e then (e, added)
      else add_page_items yandex_target rest added current_yandex e
  end.

(** The token filter of a Yandex page. *)
Definition yandex_page_items (tokens : list str) (parsed : list RawItem) : list RawItem :=
  match tokens, parsed with
  | _ :: _, _ :: _ =>
    match tokens with
    | [t0; t1] =>
      List.filter (fun it => _matches_query (Item.title it) [t0]
                        || _matches_query (Item.title it) [t1]) parsed
    | _ => List.filter (fun it => _matches_query (Item.title it) tokens) parsed
    end
  | _, _ => parsed
  end.

(** The [while] loop of [_fill_yandex]; [fuel] bounds its iterations. *)
Fixpoint fill_loop (env : Env) (query : str) (tokens : list str) (yandex_target : Z)
    (fuel : nat) (e : Entry.t) : Entry.t * list event :=
  match fuel with
  | O => (e, [])
  | S fuel' =>
    if (yandex_count e <? yandex_target) && (len_items e <? MAX_CACHE_ITEMS) then
      if YANDEX_MAX_PAGES <? Entry.yandex_next_page e
      then (Entry.with_yandex_exhausted true e, [])
      else
        let page := Entry.yandex_next_page e in
        let resp := fetch_yandex env query page (Entry.yandex_rs e) in
        if yp_no_html resp then (e, [EvYandexPage page])
        else
          let e := if nonempty (yp_rs resp) then Entry.with_yandex_rs (yp_rs resp) e else e in
          let page_items := yandex_page_items tokens (yp_parsed resp) in
          let e := Entry.with_yandex_next_page (Entry.yandex_next_page e + 1) e in
          match page_items with
          | [] => (Entry.with_yandex_exhausted true e, [EvYandexPage page])
          | _ =>
            let '(e, added) := add_page_items yandex_target page_items 0 (yandex_count e) e in
            if added =? 0 then (Entry.with_yandex_exhausted true e, [EvYandexPage page])
            else
              let '(e', evs) := fill_loop env query tokens yandex_target fuel' e in
              (e', EvYandexPage page :: evs)
          end
    else (e, [])
  end.

(** Every iteration that does not leave the loop moves the page cursor by one
    and the loop is left once the cursor has passed [YANDEX_MAX_PAGES]. *)
Definition fill_fuel (e : Entry.t) : nat :=
  S (Z.to_nat (YANDEX_MAX_PAGES + 1 - Entry.yandex_next_page e)).

Definition _fill_yandex (env : Env) (e : Entry.t) (query : str) (target : Z)
    (per_source_limit : option Z) : Entry.t * list event :=
  let tokens := _query_tokens query in
  let yandex_target := match per_source_limit with Some l => l | None => target end in
  fill_loop env query tokens yandex_target (fill_fuel e) e.


(** *** Fan-out over the other providers *)

(** The keys of [_PROVIDER_FACTORIES]. *)
Definition _PROVIDER_FACTORIES : list str :=
  map u ["cdek.shopping"; "citilink.ru"; "xcom-shop.ru"; "mvideo.ru"; "eldorado.ru";
         "aliexpress.ru"; "wildberries.ru"; "avito.ru"; "dns-shop.ru";
         "onlinetrade.ru"; "ozon.ru"]%string.

(** [_provider_for_source(source) is not None] *)
Definition known_provider (source : str) : bool := str_in source _PROVIDER_FACTORIES.

(** A scheduled task: [(source, requested_limit, prev_limit)]. *)
Definition task := (str * Z * Z)%type.

(** The loop of [_ensure_cached] that creates the tasks. *)
Fixpoint schedule (e : Entry.t) (track_limits : bool) (per_source_limit : Z)
    (sources : list str) : list task :=
  match sources with
  | [] => []
  | source :: rest =>
    let more := schedule e track_limits per_source_limit rest in
    if str_eqb source YANDEX then more
    else if decide (source ∈ Entry.pending_sources e) then more
    else
      let prev_limit :=
        if track_limits then default 0 (Entry.source_limits e !! source) else 0 in
      if track_limits && (per_source_limit <=? prev_limit) then more
      else if negb (known_provider source) then more
      else (source, per_source_limit, prev_limit) :: more
  end.

(** [math.ceil(a / b)] for the small positive integers of [_ensure_cached]. *)
Definition ceil_div (a b : Z) : Z := (a + b - 1) / b.

(** The first test of [_ensure_cached]: the cache already holds [target]
    items and the sources were not explicit. *)
Definition cache_is_enough (e : Entry.t) (target : Z) (explicit_sources : bool) : bool :=
  (target <=? len_items e) && negb explicit_sources.

(** [per_source_limit] of [_ensure_cached]; [None] where the function returns
    before computing it. *)
Definition per_source_limit_of (e : Entry.t) (target : Z) (sources : list str)
    (explicit_sources : bool) (per_source_target : option Z) : option Z :=
  let remaining := Z.max 0 (target - len_items e) in
  if negb explicit_sources && (remaining <=? 0) then None
  else if explicit_sources then
    let non_yandex := List.filter (fun src => negb (str_eqb src YANDEX)) sources in
    match non_yandex with
    | [] => None
    | _ =>
      match per_source_target with
      | Some t => Some t
      | None =>
        let n := Z.of_nat (length non_yandex) in
        Some (if PER_SOURCE_LIMIT * n <? target then ceil_div target n else PER_SOURCE_LIMIT)
      end
    end
  else Some remaining.

Definition finished_in_time (env : Env) (query : str) (slow_timeout : Z) (t : task) : bool :=
  let '(source, limit, _) := t in
  provider_latency env source query limit <=? slow_timeout.

Definition apply_task (env : Env) (query : str) (tokens : list str)
    (explicit_sources track_limits : bool) (res_of : task -> provider_result)
    (t : task) (e : Entry.t) : Entry.t :=
  let '(source, requested_limit, prev_limit) := t in
  _apply_provider_result tokens explicit_sources track_limits
    source requested_limit prev_limit (res_of t) e.

Definition task_result (env : Env) (query : str) (t : task) : provider_result :=
  let '(source, limit, _) := t in provider_result_of env source query limit.

Definition _ensure_cached (env : Env) (e : Entry.t) (query : str) (target : Z)
    (sources : list str) (explicit_sources : bool) (per_source_target : option Z)
    (slow_timeout : Z) (wait_for_all : bool)
    : Entry.t * list event * list straggler :=
  if cache_is_enough e target explicit_sources then (e, [], [])
  else
    let tokens := _query_tokens query in
    let '(e, evs) :=
      if str_in YANDEX sources && negb (Entry.yandex_exhausted e)
      then _fill_yandex env e query target per_source_target
      else (e, []) in
    if cache_is_enough e target explicit_sources then (e, evs, [])
    else
      match per_source_limit_of e target sources explicit_sources per_source_target with
      | None => (e, evs, [])
      | Some per_source_limit =>
        if per_source_limit <=? 0 then (e, evs, [])
        else
          let track_limits :=
            negb explicit_sources
            || match per_source_target with Some _ => true | None => false end in
          let tasks := schedule e track_limits per_source_limit sources in
          match tasks with
          | [] => (e, evs, [])
          | _ =>
            let evs := evs ++ map (fun t : task => EvSearch (fst (fst t)) (snd (fst t))) tasks in
            let apply := apply_task env query tokens explicit_sources track_limits in
            if wait_for_all then
              let e := Entry.with_pending_sources (fun _ => ∅) e in
              (fold_left (fun e t => apply (task_result env query) t e) tasks e, evs, [])
            else
              let late := List.filter (fun t => negb (finished_in_time env query slow_timeout t)) tasks in
              let e := Entry.with_pending_sources
                         (fun _ => list_to_set (map (fun t : task => fst (fst t)) late)) e in
              let res_of t := if finished_in_time env query slow_timeout t
                              then task_result env query t else RNone in
              (fold_left (fun e t => apply res_of t e) tasks e, evs,
               map (fun t : task =>
                      Straggler tokens explicit_sources track_limits
                        (fst (fst t)) (snd (fst t)) (snd t) (task_result env query t)) late)
          end
      end.

(** *** [search_products] *)

Definition default_sources : list str :=
  map u ["market.yandex.ru"; "mvideo.ru"; "citilink.ru"; "eldorado.ru"; "avito.ru";
         "cdek.shopping"; "aliexpress.ru"; "xcom-shop.ru"]%string.

(** The loop of [_normalize_sources] that removes repetitions. *)
Fixpoint dedupe (seen : list str) (l : list str) : list str :=
  match l with
  | [] => []
  | s :: rest =>
    if str_in s seen then dedupe seen rest else s :: dedupe (s :: seen) rest
  end.

Definition _normalize_sources (sources : option (list str)) : list str :=
  match sources with
  | None | Some [] => default_sources
  | Some l =>
    let cleaned := List.filter nonempty (map (fun s => lower (strip s)) l) in
    match dedupe [] cleaned with
    | [] => default_sources
    | out => out
    end
  end.

(** [explicit_sources] as [search_products] passes it to [_ensure_cached]. *)
Definition explicit_sources_of (sources : option (list str)) : bool :=
  let explicit_sources := match sources with Some _ => true | None => false end in
  let sources_n := _normalize_sources sources in
  if negb explicit_sources && (1 <? length sources_n)%nat then true else explicit_sources.

(** [slow_timeout] of [search_products], in seconds. *)
Definition slow_timeout_of (search_timeout_seconds : Z) (sources_n : list str)
    (per_source partial : bool) : Z :=
  let slow_timeout :=
    if partial then SLOW_SOURCES_TIMEOUT_SECONDS
    else if per_source then SLOW_SOURCES_TIMEOUT_SECONDS_PER_SOURCE
         else SLOW_SOURCES_TIMEOUT_SECONDS in
  if (length sources_n =? 1)%nat then Z.max search_timeout_seconds slow_timeout
  else slow_timeout.

(** The sort key [(x.price if x.price else 1_000_000_000, x.source, x.id)]. *)
Definition price_key (it : SearchItem) : Z :=
  if Item.price it =? 0 then 1000000000 else Item.price it.

Definition item_compare (a b : SearchItem) : comparison :=
  match price_key a ?= price_key b with
  | Eq =>
    match str_compare (Item.source a) (Item.source b) with
    | Eq => str_compare (Item.id a) (Item.id b)
    | c => c
    end
  | c => c
  end.

Fixpoint insert_by {A} (cmp : A -> A -> comparison) (x : A) (l : list A) : list A :=
  match l with
  | [] => [x]
  | y :: rest =>
    match cmp x y with
    | Gt => y :: insert_by cmp x rest
    | _ => x :: l
    end
  end.

(** [list.sort] / [sorted]: the stable sort. *)
Fixpoint sort_by {A} (cmp : A -> A -> comparison) (l : list A) : list A :=
  match l with
  | [] => []
  | x :: rest => insert_by cmp x (sort_by cmp rest)
  end.

Record SearchMeta := {
  checked_sources : Z;
  total_sources : Z;
  meta_pending_sources : list str;
}.

(** The test on the Yandex cursor shared by both pagination modes. *)
Definition yandex_has_more (e : Entry.t) (sources_n : list str) : bool :=
  str_in YANDEX sources_n && negb (Entry.yandex_exhausted e)
  && (Entry.yandex_next_page e <=? YANDEX_MAX_PAGES).

Definition has_pending (e : Entry.t) : bool :=
  negb (bool_decide (Entry.pending_sources e = ∅)).

(** The page and [has_more] for [per_source=False]. *)
Definition global_page (e : Entry.t) (sources_n : list str) (offset limit : Z)
    (partial : bool) : list SearchItem * bool :=
  let page_items := slice (Entry.items e) offset (offset + limit) in
  let has_more := false in
  let has_more := if yandex_has_more e sources_n then true else has_more in
  let has_more := if offset + Z.of_nat (length page_items) <? len_items e
                  then true else has_more in
  let has_more := if partial && has_pending e then true else has_more in
  (page_items, has_more).

(** The page and [has_more] for [per_source=True]. *)
Definition per_source_page (e : Entry.t) (sources_n : list str) (offset limit : Z)
    (partial : bool) : list SearchItem * bool :=
  let group src := List.filter (fun it => str_eqb (Item.source it) src) (Entry.items e) in
  let page_items := flat_map (fun src => slice (group src) offset (offset + limit)) sources_n in
  let has_more := existsb (fun src => offset + limit <=? Z.of_nat (length (group src))) sources_n in
  let has_more := if yandex_has_more e sources_n then true else has_more in
  let has_more := if partial && has_pending e then true else has_more in
  (sort_by item_compare page_items, has_more).

(** [search_products], from the entry [_get_cache_entry] returned.  Besides
    the triple of the source the result holds the entry as the call leaves
    it, the fetches made and the tasks left running. *)
Definition search_products (env : Env) (search_timeout_seconds : Z) (now : Z)
    (entry : Entry.t) (query : str) (offset limit : Z)
    (sources : option (list str)) (per_source partial : bool)
    : (list SearchItem * bool * SearchMeta) * Entry.t * list event * list straggler :=
  let explicit_sources := explicit_sources_of sources in
  let sources_n := _normalize_sources sources in
  let entry := if Entry.expires_at entry <=? now then Entry.reset now entry else entry in
  let per_source_target := if per_source then Some (offset + limit) else None in
  let target :=
    if per_source then Z.min ((offset + limit) * Z.of_nat (length sources_n)) MAX_CACHE_ITEMS
    else Z.min (offset + limit) MAX_CACHE_ITEMS in
  let slow_timeout := slow_timeout_of search_timeout_seconds sources_n per_source partial in
  let wait_for_all := per_source && negb partial in
  let '(entry, evs, late) :=
    _ensure_cached env entry query target sources_n explicit_sources per_source_target
      slow_timeout wait_for_all in
  let entry := Entry.with_items (sort_by item_compare) entry in
  let pending := sort_by str_compare (elements (Entry.pending_sources entry)) in
  let total := Z.of_nat (length sources_n) in
  let meta := {| checked_sources := Z.max 0 (total - Z.of_nat (length pending));
                 total_sources := total;
                 meta_pending_sources := pending |} in
  let '(page_items, has_more) :=
    if per_source then per_source_page entry sources_n offset limit partial
    else global_page entry sources_n offset limit partial in
  ((page_items, has_more, meta), entry, evs, late).

End Cache.

(** ** Further helpers of the search service *)

(** A decoded JSON value, as [_extract_max_int] walks it; a [dict] is the list
    of its entries in insertion order. *)
#[warnings="-register-all"] Inductive json :=
| JNull
| JBool (b : bool)
| JInt (z : Z)
| JFloat (f : spec_float)
| JStr (s : str)
| JList (l : list json)
| JDict (d : list (str * json)).

Section Helpers.
Context {R : PyRuntime}.

(** [_query_hit_count] *)
Definition _query_hit_count (title : str) (tokens : list str) : Z :=
  match tokens with
  | [] => 0
  | _ =>
    let t := yo_to_ye (lower (strip title)) in
    match t with
    | [] => 0
    | _ => count_hits t tokens
    end
  end.

(** [max(prices)] for a non-empty list. *)
Definition py_max (x : Z) (l : list Z) : Z := fold_left Z.max l x.

Definition _best_price_from_text (text : str) : Z :=
  match _prices_from_text text with
  | [] => 0
  | p :: rest => py_max p rest
  end.

(** [_price_to_int]: [value or ""] is the empty string for [None]. *)
Definition _price_to_int (value : option str) : Z :=
  _first_price (match value with Some s => s | None => [] end).

(** The test [min_value <= val <= max_value and val > best] at [best = 0]. *)
Definition in_bounds (min_value max_value val : Z) : Z :=
  if (min_value <=? val) && (val <=? max_value) && (0 <? val) then val else 0.

(** [_extract_max_int]; [None] where [int(obj)] raises (an infinity or a
    NaN). *)
Fixpoint _extract_max_int (min_value max_value : Z) (obj : json) : option Z :=
  match obj with
  | JDict d =>
    (fix values (d : list (str * json)) (best : Z) : option Z :=
       match d with
       | [] => Some best
       | (_, v) :: rest =>
         match _extract_max_int min_value max_value v with
         | None => None
         | Some got => values rest (if best <? got then got else best)
         end
       end) d 0
  | JList l =>
    (fix elements (l : list json) (best : Z) : option Z :=
       match l with
       | [] => Some best
       | v :: rest =>
         match _extract_max_int min_value max_value v with
         | None => None
         | Some got => elements rest (if best <? got then got else best)
         end
       end) l 0
  | JBool b => Some (in_bounds min_value max_value (if b then 1 else 0))
  | JInt z => Some (in_bounds min_value max_value z)
  | JFloat f =>
    match int_of_float f with
    | Some val => Some (in_bounds min_value max_value val)
    | None => None
    end
  | JStr s => Some (in_bounds min_value max_value (_first_price s))
  | JNull => Some 0
  end.

(** [_first_http_url], on the list of its arguments; a candidate may be
    [None]. *)
Fixpoint _first_http_url (candidates : list (option str)) : str :=
  match candidates with
  | [] => []
  | c :: rest =>
    let v := strip (match c with Some s => s | None => [] end) in
    if negb (nonempty v) then _first_http_url rest
    else if starts_with (u "data:") v then _first_http_url rest
    else if starts_with (u "//") v then u "https:" ++ v
    else if starts_with (u "http://") v || starts_with (u "https://") v then v
    else _first_http_url rest
  end.

(** [_abs_url]; [urljoin] is [urllib.parse.urljoin]. *)
Definition _abs_url (urljoin : str -> str -> str) (base : str) (href : option str) : str :=
  let href := strip (match href with Some s => s | None => [] end) in
  if negb (nonempty href) then []
  else if starts_with (u "http://") href || starts_with (u "https://") href then href
  else if starts_with (u "//") href then u "https:" ++ href
  else urljoin base href.

(** [[^a-z0-9._-]] *)
Definition unsafe_name_char : cls :=
  CNot (COr (CRange 97 122) (COr (CRange 48 57) (CSet [46; 95; 45]))).

Definition _safe_debug_name (provider : option str) : str :=
  let s := lower (strip (match provider with Some p => p | None => [] end)) in
  if negb (nonempty s) then u "unknown"
  else
    let s := replace (u ":") (u "_") s in
    let s := sub false (Plus (Chr unsafe_name_char)) (tlits (u "_")) s in
    let s := strip_chars (u "_") (sub false (Plus (Chr (CLit 95))) (tlits (u "_")) s) in
    if nonempty s then s else u "unknown".

(** [sep.join(l)] *)
Fixpoint join (sep : str) (l : list str) : str :=
  match l with
  | [] => []
  | [s] => s
  | s :: rest => s ++ sep ++ join sep rest
  end.

Definition _normalize_query (query : str) : str :=
  sub false (Plus space) (tlits [32]) (lower (strip query)).

(** [f"{_normalize_query(query)}|{','.join(sorted(sources))}"] *)
Definition _cache_key (query : str) (sources : list str) : str :=
  _normalize_query query ++ u "|" ++ join (u ",") (sort_by str_compare sources).

(** [next_offset] of the search endpoint ([api.search_products]); [n_out]
    is [len(out)], the number of items of the page. *)
Definition next_offset (offset limit : Z) (per_source has_more : bool) (n_out : nat)
    : option Z :=
  if has_more && (0 <? n_out)%nat
  then Some (offset + (if per_source then limit else Z.of_nat n_out))
  else None.

End Helpers.

(** *** Provider cool-downs

    [_PROVIDER_COOLDOWN_UNTIL] and [_PROVIDER_COOLDOWN_REASON].  The
    functions are written over the type of the clock readings with the
    operations the source applies to them. *)
Module Cooldown.

Section Clock.
Variable time : Type.
Variable zero : time.                    (* [0.0] *)
Variable falsy : time -> bool.           (* [not x] *)
Variable leb : time -> time -> bool.     (* [x <= y] *)
Variable ltb : time -> time -> bool.     (* [x < y] *)
Variable add : time -> time -> time.
Variable sub : time -> time -> time.

Record t := Make {
  until : gmap str time;
  reason : gmap str str;
}.

Definition empty : t := Make ∅ ∅.

(** [pop(source, None)] on both dictionaries. *)
Definition forget (source : str) (c : t) : t :=
  Make (delete source (until c)) (delete source (reason c)).

(** [until = _PROVIDER_COOLDOWN_UNTIL.get(source)] where [not until] does
    not hold. *)
Definition deadline (source : str) (c : t) : option time :=
  match until c !! source with
  | Some v => if falsy v then None else Some v
  | None => None
  end.

(** [_cooldown_active] at the clock reading [now]: the answer and the
    registry as the call leaves it. *)
Definition _cooldown_active (now : time) (source : str) (c : t) : bool * t :=
  match deadline source c with
  | None => (false, c)
  | Some v => if leb v now then (false, forget source c) else (true, c)
  end.

(** [_cooldown_left]; [max(0.0, d)] is [d] when [0.0 < d] and [0.0]
    otherwise. *)
Definition _cooldown_left (now : time) (source : str) (c : t) : time :=
  match deadline source c with
  | None => zero
  | Some v => let d := sub v now in if ltb zero d then d else zero
  end.

Definition _set_cooldown (now : time) (source : str) (seconds : time) (why : str)
    (c : t) : t :=
  if leb seconds zero then forget source c
  else Make (<[source := add now seconds]> (until c))
            (match why with
             | [] => reason c
             | _ => <[source := why]> (reason c)
             end).

End Clock.

Arguments Make {time}.
Arguments until {time}.
Arguments reason {time}.
Arguments empty {time}.
Arguments forget {time}.

End Cooldown.

(** * Notions used in the statements *)

(** ** Text held by the matcher *)

Section MatcherNotions.
Context {R : PyRuntime}.
Variable P : char -> Prop.

(** All the text a state holds satisfies [P]. *)
Definition state_in (s : mstate) : Prop :=
  Forall P (before s) /\ Forall P (after s) /\ Forall (fun nv => Forall P (snd nv)) (caps s).

(** The text of a match object satisfies [P]. *)
Definition mobj_in (m : mobj) : Prop :=
  Forall P (m_text m) /\ Forall (fun nv => Forall P (snd nv)) (m_caps m).

(** The literal characters of a template satisfy [P]. *)
Definition tpl_in (tpl : list titem) : Prop :=
  Forall (fun t => match t with TLit c => P c | TGroup _ => True end) tpl.

(** A character outside the matches, or the text of a match, satisfies [P]. *)
Definition token_in (t : char + mobj) : Prop :=
  match t with
  | inl c => P c
  | inr m => mobj_in m
  end.

(** [needs ic r]: every match of [r] passes over a character in [P]. *)
Fixpoint needs (ic : bool) (r : regex) : Prop :=
  match r with
  | Chr c => forall ch, cls_match ic c ch = true -> P ch
  | Seq a b => needs ic a \/ needs ic b
  | Alt a b => needs ic a /\ needs ic b
  | Group _ a => needs ic a
  | _ => False
  end.

(** No character after the cursor is in [P]. *)
Definition clear_after (s : mstate) : Prop := Forall (fun c => ~ P c) (after s).

End MatcherNotions.

(** ** Titles *)

(** U+00A0, U+200B..U+200F, U+202A..U+202C and U+2060. *)
Definition forbidden (c : char) : bool :=
  (c =? 160) || in_range 8203 8207 c || in_range 8234 8236 c || (c =? 8288).

Definition allowed (c : char) : Prop := forbidden c = false.

(** A character of a settled title: a plain space, or a character that is
    neither white space (so not U+00A0) nor invisible. *)
Definition title_char (c : char) : bool :=
  ((c =? 32) || negb (is_space c)) && negb (mem c invisible_chars).

(** Neither the first nor the last character is a comma or a semicolon. *)
Definition ends_clear (t : str) : bool :=
  negb (head_is (fun c => mem c [44; 59]) t)
  && negb (head_is (fun c => mem c [44; 59]) (rev t)).

(** Words separated by single spaces; [after_space] tells that a word has to
    start here. *)
Fixpoint single_spaced (after_space : bool) (t : str) : bool :=
  match t with
  | [] => negb after_space
  | c :: rest =>
    if c =? 32 then negb after_space && single_spaced true rest
    else single_spaced false rest
  end.

Definition spaced (t : str) : bool :=
  match t with
  | [] => true
  | _ => single_spaced true t
  end.

Section Settled.
Context {R : PyRuntime}.

(** A title on which no step of [_clean_title] has anything to do: at most
    160 characters; left as it is by [html.unescape]; words of title
    characters separated by single spaces; no comma or semicolon at either
    end; no service prefix at the start; no ["б/у"] to put into brackets; no
    comma before a memory size ["N/M гб"]; ["гб"] after a space written
    ["ГБ"]; and an opened ["(б/у"] only where ["(б/у)"] occurs. *)
Definition settled (t : str) : Prop :=
  (length t <= 160)%nat /\
  unescape t = t /\
  Forall (fun c => title_char c = true) t /\
  spaced t = true /\
  ends_clear t = true /\
  search true title_prefix_rx t = None /\
  search true used_rx t = None /\
  search true comma_memory_rx t = None /\
  Forall (fun m => m_text m = u " ГБ") (finditer true space_gb_rx t) /\
  (contains (u "(б/у") t = true -> contains (u "(б/у)") t = true).

End Settled.

(** The cut of a title is on a word boundary: what is cut off is nothing, or
    starts with a space. *)
Definition cut_on_word_boundary (body out : str) : Prop :=
  exists rest, body = out ++ rest /\ (rest = [] \/ exists rest', rest = 32 :: rest').

(** ** Prices and tokens *)

(** [_PRICE_CONTEXT_SKIP] as it reads with single backslashes: [\s*] is white
    space and [\b] a word boundary. *)
Definition skip_with_single_backslashes : regex :=
  AltL [SeqL [Lits (u "/"); Star space; Lits (u "мес")];
        SeqL [Lits (u "в"); Star space; Lits (u "месяц")];
        SeqL [Lits (u "в"); Star space; Lits (u "мес")];
        SeqL [WordB; Lits (u "мес"); WordB];
        Lits (u "кредит"); Lits (u "рассроч"); Lits (u "бонус"); Lits (u "балл");
        Lits (u "кэшб"); Lits (u "cashback")].

(** [int(n * 0.6)] is checked against the integer part of 3n/5 on a range. *)
Fixpoint floor_agrees (fuel : nat) (n : Z) : bool :=
  match fuel with
  | O => true
  | S fuel' => (int_times_0_6 n =? 3 * n / 5) && floor_agrees fuel' (n + 1)
  end.

(** [required] with the ceiling the specification names. *)
Definition required_as_claimed (n : Z) : Z :=
  if n =? 1 then 1 else if n =? 2 then 2 else Z.max 2 ((3 * n + 4) / 5).

(** ** The cache and the orchestrator *)

(** The deduplication invariant: as many keys in [seen] as cached items. *)
Definition dedup_inv (e : Entry.t) : Prop :=
  size (Entry.seen e) = length (Entry.items e).

(** The stronger form: [seen] is the set of the keys of the cached items, and
    these keys are pairwise distinct. *)
Definition keys_inv (e : Entry.t) : Prop :=
  Entry.seen e = list_to_set (map _item_key (Entry.items e)) /\
  NoDup (map _item_key (Entry.items e)).

(** [x] may stand before [y] in a list sorted by [cmp]. *)
Definition le_by {A} (cmp : A -> A -> comparison) (x y : A) : Prop := cmp x y <> Gt.

(** The parts of the result of [search_products]. *)
Definition sp_result := ((list SearchItem * bool * SearchMeta) * Entry.t
                         * list event * list straggler)%type.
Definition sp_page (r : sp_result) : list SearchItem := fst (fst (fst (fst (fst r)))).
Definition sp_has_more (r : sp_result) : bool := snd (fst (fst (fst (fst r)))).
Definition sp_meta (r : sp_result) : SearchMeta := snd (fst (fst (fst r))).
Definition sp_entry (r : sp_result) : Entry.t := snd (fst (fst r)).
Definition sp_events (r : sp_result) : list event := snd (fst r).
Definition sp_late (r : sp_result) : list straggler := snd r.

(** [has_more] of the global-merge mode with the second test as the
    specification words it: [offset + len(page) > total]. *)
Definition has_more_as_claimed (e : Entry.t) (sources_n : list str) (offset : Z)
    (page : list SearchItem) (partial : bool) : bool :=
  yandex_has_more e sources_n
  || (len_items e <? offset + Z.of_nat (length page))
  || (partial && has_pending e).

(** ** Growth of the cache *)

(** [e] holds the items of [e0] in their order, followed by further ones, and
    every key [e0] has seen. *)
Definition grows_from (e0 e : Entry.t) : Prop :=
  (exists more, Entry.items e = Entry.items e0 ++ more) /\
  Entry.seen e0 ⊆ Entry.seen e.

(** The fetches of the pages [p], [p + 1], ... ([n] of them). *)
Fixpoint pages_from (p : Z) (n : nat) : list event :=
  match n with
  | O => []
  | S n' => EvYandexPage p :: pages_from (p + 1) n'
  end.

(** The fields the page loop leaves alone. *)
Definition same_bookkeeping (e e' : Entry.t) : Prop :=
  Entry.key e' = Entry.key e /\ Entry.expires_at e' = Entry.expires_at e /\
  Entry.source_limits e' = Entry.source_limits e /\
  Entry.pending_sources e' = Entry.pending_sources e.

Definition is_search (ev : event) : bool :=
  match ev with EvSearch _ _ => true | EvYandexPage _ => false end.

(** The sources asked by the fan-out, in the order of the requests. *)
Fixpoint searched (evs : list event) : list str :=
  match evs with
  | [] => []
  | EvSearch source _ :: rest => source :: searched rest
  | EvYandexPage _ :: rest => searched rest
  end.

(** The items of [src] that a page of the per-source mode takes. *)
Definition source_chunk (items : list SearchItem) (offset limit : Z) (src : str)
    : list SearchItem :=
  slice (List.filter (fun it => str_eqb (Item.source it) src) items) offset (offset + limit).

(** A cached item as the orchestrator leaves it: the price is 0 or lies in
    [1, 1_000_000], the title holds no invisible character, and the merchant
    has a name when the source has one. *)
Definition well_formed (it : SearchItem) : Prop :=
  (Item.price it = 0 \/ 1 <= Item.price it <= 1000000) /\
  Forall allowed (Item.title it) /\
  (Item.source it <> [] -> Item.merchant_name it <> []).

(** ** Matches of bounded width *)

(** The greatest number of characters a match of [r] takes; [None] for a
    pattern with a star. *)
Fixpoint width (r : regex) : option nat :=
  match r with
  | Chr _ => Some 1%nat
  | Seq a b =>
    match width a, width b with
    | Some x, Some y => Some (x + y)%nat
    | _, _ => None
    end
  | Alt a b =>
    match width a, width b with
    | Some x, Some y => Some (Nat.max x y)
    | _, _ => None
    end
  | Star _ => None
  | Group _ a => width a
  | _ => Some O
  end.

(** [s'] is [s] with the cursor moved forward. *)
Definition moved (s s' : mstate) : Prop :=
  (length (before s) <= length (before s'))%nat /\
  (length (before s') + length (after s') = length (before s) + length (after s))%nat.

(** ** File names and keys *)

(** [[a-z0-9._-]] *)
Definition safe_name_char (c : char) : bool :=
  in_range 97 122 c || in_range 48 57 c || mem c [46; 95; 45].

(** ** Numbers in a JSON value *)

(** No infinity and no NaN anywhere in the value. *)
Fixpoint finite_json (obj : json) : bool :=
  match obj with
  | JFloat f => match int_of_float f with Some _ => true | None => false end
  | JList l =>
    (fix all (l : list json) : bool :=
       match l with
       | [] => true
       | v :: rest => finite_json v && all rest
       end) l
  | JDict d =>
    (fix all (d : list (str * json)) : bool :=
       match d with
       | [] => true
       | (_, v) :: rest => finite_json v && all rest
       end) d
  | _ => true
  end.

(** The numbers at the leaves of a value, in the order of the walk: [int(x)]
    of a number or a boolean, [_first_price] of a string. *)
Fixpoint leaf_values `{R : PyRuntime} (obj : json) : list Z :=
  match obj with
  | JNull => []
  | JBool b => [if b then 1 else 0]
  | JInt z => [z]
  | JFloat f => match int_of_float f with Some z => [z] | None => [] end
  | JStr s => [_first_price s]
  | JList l =>
    (fix walk (l : list json) : list Z :=
       match l with
       | [] => []
       | v :: rest => leaf_values v ++ walk rest
       end) l
  | JDict d =>
    (fix walk (d : list (str * json)) : list Z :=
       match d with
       | [] => []
       | (_, v) :: rest => leaf_values v ++ walk rest
       end) d
  end.

(** The greatest number of a list, 0 when none is positive. *)
Definition greatest (l : list Z) : Z := fold_left Z.max l 0.

(** [v] lies within the bounds and is positive. *)
Definition qualifies (min_value max_value v : Z) : Prop :=
  min_value <= v <= max_value /\ 0 < v.

(** ** Watermarks *)

(** A result after which [_apply_provider_result] records the limit that was
    asked for. *)
Definition recorded (explicit_sources track_limits : bool) (res : provider_result) : bool :=
  match res with
  | RNone => false
  | RException => track_limits
  | RItems [] => negb explicit_sources
  | RItems _ => true
  end.

(** The watermark of [source] is at least [limit]. *)
Definition marked (source : str) (limit : Z) (e : Entry.t) : Prop :=
  limit <= default 0 (Entry.source_limits e !! source).

(** ** Sample data *)

(** An environment in which Yandex gives no page and every provider answers
    at once with an empty list. *)
Definition silent_env : Env :=
  {| fetch_yandex := fun _ _ _ => {| yp_no_html := true; yp_rs := []; yp_parsed := [] |};
     provider_latency := fun _ _ _ => 0;
     provider_result_of := fun _ _ _ => RItems [] |}.

(** An environment in which the provider of avito.ru needs 9 seconds and
    every other provider 8. *)
Definition slow_avito_env : Env :=
  {| fetch_yandex := fun _ _ _ => {| yp_no_html := true; yp_rs := []; yp_parsed := [] |};
     provider_latency := fun source _ _ => if str_eqb source (u "avito.ru") then 9 else 8;
     provider_result_of := fun _ _ _ => RItems [] |}.

Definition avito_item (id : string) (price : Z) : SearchItem :=
  Item.Make (u id) (u "phone") price [] [] (u "Avito") [] (u "avito.ru").

Definition five_items : list SearchItem :=
  [avito_item "a1" 500; avito_item "a2" 300; avito_item "a3" 0;
   avito_item "a4" 100; avito_item "a5" 200].

(** A live entry that already holds five items of one source. *)
Definition five_item_entry : Entry.t :=
  Entry.Make (u "phone|avito.ru") 600 five_items
    (list_to_set (map _item_key five_items)) ∅ ∅ 1 [] false.


(** * Properties *)

(** ** Worked examples

    Evaluations of the functions above on sample texts. *)

Module Examples.

Example sub_empty_matches :
  @sub Basic.runtime false (Star (Chr (CLit 120))) (tlits (u "-")) (u "abxd")
  = u "-a-b--d-".
Proof. vm_compute. reflexivity. Qed.

Example first_price_samples :
  map (@_first_price Basic.runtime)
    (map u ["A3526 79 990 ₽"; "цена 12 500 руб."; "1234567 руб"; "р. 1 000 000";
            "1 0001 ₽"; "99 рублей 1000"; "12,5 р"; "x 5 ₽ 1 2 3"]%string)
  = [79990; 12500; 0; 1000000; 1000; 1000; 12; 0].
Proof. vm_compute. reflexivity. Qed.

Example clean_title_samples :
  map (@_clean_title Basic.runtime)
    (map u [" Смартфон iPhone 15 , 8/128 гб б/у"; "x, (Б/У y"; "x (б/у y";
            "Телефон Б/У,8/256ГБ,  б/у;"; "ab б/уx б/у1 Б/у."]%string)
  = map u ["iPhone 15  8/128 ГБ (б/у)"; "x, (Б/У y"; "x (б/у) y";
           " (б/у) 8/256ГБ (б/у)"; "ab б/уx б/у1 (б/у)."]%string.
Proof. vm_compute. reflexivity. Qed.

(** The fourth scenario of the specification. *)
Example clean_title_invisible :
  @_clean_title Basic.runtime ([160] ++ u "Смартфон iPhone 15" ++ [8203]) = u "iPhone 15".
Proof. vm_compute. reflexivity. Qed.

Example clean_ali_title_samples :
  map (@_clean_ali_title Basic.runtime)
    (map u ["Phone 8/128ГБ 8/256 гб ( new б/у"; "A 1/2гб 3/4 ГБ x";
            "A 1/2гб B 3/4 ГБ (  y"]%string)
  = map u ["Phone (new 8/128ГБ (б/у)"; "A x 1/2гб"; "A B (y 1/2гб"]%string.
Proof. vm_compute. reflexivity. Qed.

Example query_tokens_sample :
  @_query_tokens Basic.runtime (u "  Айфон 15 pro-max для ёжика и iPhone  айфон ")
  = map u ["айфон"; "15"; "pro"; "max"; "ежика"; "iphone"]%string.
Proof. vm_compute. reflexivity. Qed.

Example required_hits_samples :
  map required_hits [1; 2; 3; 4; 5; 6; 7; 8; 9; 10] = [1; 2; 2; 2; 3; 3; 4; 4; 5; 6].
Proof. vm_compute. reflexivity. Qed.

End Examples.

(** ** The matcher *)

Section MatcherFacts.
Context {R : PyRuntime}.
Variable P : char -> Prop.

Local Abbreviation state_in := (state_in P).
Local Abbreviation mobj_in := (mobj_in P).
Local Abbreviation tpl_in := (tpl_in P).
Local Abbreviation token_in := (token_in P).
Local Abbreviation needs := (needs P).
Local Abbreviation clear_after := (clear_after P).

Lemma state_in_step s ch rest :
  state_in s -> after s = ch :: rest ->
  state_in (MState (ch :: before s) rest (caps s)).
Proof.
  intros (Hb & Ha & Hc) E. rewrite E in Ha. inversion Ha; subst.
  repeat split; simpl; auto.
Qed.

Lemma state_in_close n s0 s1 : state_in s1 -> state_in (close_group n s0 s1).
Proof.
  intros (Hb & Ha & Hc). repeat split; simpl; auto.
  constructor; auto. simpl. apply Forall_rev. apply Forall_take. exact Hb.
Qed.

(** A successful match ends in a state whose text satisfies [P] when it
    started in one. *)
Lemma rmatch_state_in ic r : forall k s res,
  (forall s' res', state_in s' -> k s' = Some res' -> state_in res') ->
  state_in s -> rmatch ic r k s = Some res -> state_in res.
Proof.
  induction r; simpl; intros k s res Hk Hs Hm.
  - eauto.
  - destruct (after s) as [|ch rest] eqn:E; [discriminate|].
    destruct (cls_match ic c ch); [|discriminate].
    eapply Hk; [|exact Hm]. eapply state_in_step; eauto.
  - eapply IHr1; [|exact Hs|exact Hm]. intros s' res' Hs' Hm'. eapply IHr2; eauto.
  - destruct (rmatch ic r1 k s) eqn:E1.
    + inversion Hm; subst. eapply IHr1; eauto.
    + eapply IHr2; eauto.
  - revert res Hm. generalize (length (after s)). intros n. revert s Hs.
    induction n as [|n IHn]; intros s Hs res Hm.
    + eauto.
    + match type of Hm with
      | match ?x with _ => _ end = _ => destruct x eqn:E1
      end.
      * inversion Hm; subst. eapply IHr; [|exact Hs|exact E1].
        intros s' res' Hs' Hm'. simpl in Hm'.
        destruct (length (after s') <? length (after s))%nat; [|discriminate].
        eapply IHn; eauto.
      * eauto.
  - eapply IHr; [|exact Hs|exact Hm]. intros s' res' Hs' Hm'.
    eapply Hk; [|exact Hm']. apply state_in_close; auto.
  - destruct (before s); [eauto|discriminate].
  - destruct (at_end _); [eauto|discriminate].
  - destruct (at_boundary s); [eauto|discriminate].
  - destruct (head_is _ _); [discriminate|eauto].
  - destruct (head_is _ _); [discriminate|eauto].
Qed.

Lemma try_at_state_in ic r ma bef aft s' :
  Forall P bef -> Forall P aft ->
  try_at ic r ma bef aft = Some s' -> state_in s'.
Proof.
  intros Hb Ha. unfold try_at. apply rmatch_state_in.
  - intros s1 res Hs1 Hk. destruct (_ && _); inversion Hk; subst; auto.
  - repeat split; simpl; auto.
Qed.

Lemma mk_match_in bef aft s' :
  Forall P aft -> state_in s' -> mobj_in (mk_match bef aft s').
Proof.
  intros Ha (_ & _ & Hc). split; simpl; auto. apply Forall_take. exact Ha.
Qed.

Lemma lookup_cap_in n l v :
  Forall (fun nv => Forall P (snd nv)) l -> lookup_cap n l = Some v -> Forall P v.
Proof.
  induction l as [|[i w] l IH]; simpl; intros Hl E; [discriminate|].
  inversion Hl; subst. destruct (i =? n)%nat; [inversion E; subst; auto | auto].
Qed.

Lemma group_in m n : mobj_in m -> Forall P (group m n).
Proof.
  intros [Ht Hc]. destruct n; simpl; auto.
  destruct (lookup_cap (S n) (m_caps m)) eqn:E; [|constructor].
  eapply lookup_cap_in; eauto.
Qed.

Lemma tlits_in s : Forall P s -> tpl_in (tlits s).
Proof. intros H. unfold tpl_in, tlits. apply Forall_map. exact H. Qed.

Lemma expand_in tpl m : tpl_in tpl -> mobj_in m -> Forall P (expand tpl m).
Proof.
  intros Ht Hm. unfold expand. induction Ht as [|t tpl Ht _ IH]; simpl; [constructor|].
  apply Forall_app. split; [|exact IH].
  destruct t; [repeat constructor; exact Ht | apply group_in; exact Hm].
Qed.

Lemma scan_in ic r : forall aft skip bef,
  Forall P bef -> Forall P aft -> Forall token_in (scan ic r skip bef aft).
Proof.
  induction aft as [|c rest IH]; intros skip bef Hb Ha; simpl.
  - destruct skip; [|constructor].
    destruct (try_at ic r false bef []) eqn:E; [|constructor].
    repeat constructor; simpl; eauto using try_at_state_in.
    eapply try_at_state_in in E; auto. apply E.
  - assert (Hc : P c) by (inversion Ha; auto).
    assert (Hr : Forall P rest) by (inversion Ha; auto).
    assert (Hb' : Forall P (c :: bef)) by (constructor; auto).
    destruct skip; [|apply IH; auto].
    destruct (try_at ic r false bef (c :: rest)) eqn:E.
    + pose proof (try_at_state_in _ _ _ _ _ _ Hb Ha E) as Hs.
      destruct (consumed (c :: rest) m).
      * constructor; [apply mk_match_in; auto|].
        destruct (try_at ic r true bef (c :: rest)) eqn:E2.
        -- pose proof (try_at_state_in _ _ _ _ _ _ Hb Ha E2) as Hs2.
           constructor; [apply mk_match_in; auto | apply IH; auto].
        -- constructor; [exact Hc | apply IH; auto].
      * constructor; [apply mk_match_in; auto | apply IH; auto].
    + constructor; [exact Hc | apply IH; auto].
Qed.

(** [re.sub] only produces characters of the input and of the template. *)
Lemma sub_Forall ic r tpl s :
  Forall P s -> tpl_in tpl -> Forall P (sub ic r tpl s).
Proof.
  intros Hs Ht. unfold sub.
  assert (H : Forall token_in (scan ic r O [] s)) by (apply scan_in; auto).
  induction H as [|t l Ht' _ IH]; simpl; [constructor|].
  apply Forall_app. split; [|exact IH].
  destruct t; [repeat constructor; exact Ht' | apply expand_in; auto].
Qed.

(** *** Patterns that cannot match *)

(** A continuation that always fails makes the match fail. *)
Lemma rmatch_cont_fails ic r : forall k s,
  (forall s', clear_after s' -> k s' = None) ->
  clear_after s -> rmatch ic r k s = None.
Proof.
  induction r; simpl; intros k s Hk Hs.
  - auto.
  - destruct (after s) as [|ch rest] eqn:E; [reflexivity|].
    destruct (cls_match ic c ch); [|reflexivity].
    apply Hk. unfold clear_after in *. simpl. rewrite E in Hs. inversion Hs; auto.
  - apply IHr1; auto.
  - rewrite IHr1 by auto. apply IHr2; auto.
  - generalize (length (after s)). intros n. revert s Hs.
    induction n as [|n IHn]; intros s Hs; [auto|].
    rewrite IHr; auto.
    intros s' Hs'. destruct (_ <? _)%nat; auto.
  - apply IHr; auto.
  - destruct (before s); auto.
  - destruct (at_end _); auto.
  - destruct (at_boundary s); auto.
  - destruct (head_is _ _); auto.
  - destruct (head_is _ _); auto.
Qed.

Lemma needs_no_match ic r : forall k s,
  needs ic r -> clear_after s -> rmatch ic r k s = None.
Proof.
  induction r; simpl; intros k s Hn Hs; try contradiction.
  - destruct (after s) as [|ch rest] eqn:E; [reflexivity|].
    destruct (cls_match ic c ch) eqn:Ec; [|reflexivity].
    exfalso. unfold clear_after in Hs. rewrite E in Hs. inversion Hs; subst. auto.
  - destruct Hn as [Hn|Hn]; [apply IHr1; auto|].
    apply rmatch_cont_fails; auto.
  - destruct Hn as [Ha Hb]. rewrite IHr1 by auto. apply IHr2; auto.
  - apply IHr; auto.
Qed.

Lemma try_at_needs ic r ma bef aft :
  needs ic r -> Forall (fun c => ~ P c) aft -> try_at ic r ma bef aft = None.
Proof. intros Hn Ha. unfold try_at. apply needs_no_match; auto. Qed.

Lemma scan_needs ic r : forall aft bef,
  needs ic r -> Forall (fun c => ~ P c) aft -> scan ic r O bef aft = map inl aft.
Proof.
  induction aft as [|c rest IH]; intros bef Hn Ha; simpl.
  - rewrite try_at_needs; auto.
  - rewrite try_at_needs by auto. f_equal. apply IH; auto. inversion Ha; auto.
Qed.

(** [re.sub] returns its argument when the pattern needs a character the
    argument does not have. *)
Lemma sub_needs ic r tpl s :
  needs ic r -> Forall (fun c => ~ P c) s -> sub ic r tpl s = s.
Proof.
  intros Hn Hs. unfold sub. rewrite scan_needs by auto.
  clear. induction s; simpl; congruence.
Qed.

End MatcherFacts.

(** ** Strings *)

Section StringFacts.
Variable P : char -> Prop.

Lemma dropwhile_Forall p s : Forall P s -> Forall P (dropwhile p s).
Proof.
  induction s as [|c s IH]; simpl; intros H; [constructor|].
  destruct (p c); [apply IH; inversion H; auto | exact H].
Qed.

Lemma strip_with_Forall p s : Forall P s -> Forall P (strip_with p s).
Proof.
  intros H. unfold strip_with.
  apply Forall_rev, dropwhile_Forall, Forall_rev, dropwhile_Forall, H.
Qed.

Lemma replace_from_Forall old new : forall s skip,
  Forall P new -> Forall P s -> Forall P (replace_from old new skip s).
Proof.
  induction s as [|c s IH]; intros skip Hn Hs; simpl; [constructor|].
  assert (Hs' : Forall P s) by (inversion Hs; auto).
  destruct skip; [|apply IH; auto].
  destruct (starts_with old (c :: s)).
  - apply Forall_app. split; auto.
  - constructor; [inversion Hs; auto | apply IH; auto].
Qed.

Lemma replace_Forall old new s :
  Forall P new -> Forall P s -> Forall P (replace old new s).
Proof.
  intros Hn Hs. destruct old; simpl.
  - apply Forall_app. split; auto.
    induction Hs; simpl; [constructor|]. constructor; auto. apply Forall_app. auto.
  - apply replace_from_Forall; auto.
Qed.

Lemma slice_Forall (l : str) a b : Forall P l -> Forall P (slice l a b).
Proof. intros H. unfold slice. apply Forall_take, Forall_drop, H. Qed.

Lemma rsplit1_head_Forall sep s : Forall P s -> Forall P (rsplit1_head sep s).
Proof.
  intros H. unfold rsplit1_head. destruct (mem sep s); [|exact H].
  apply Forall_rev.
  assert (H' : Forall P (dropwhile (fun c => negb (c =? sep)) (rev s)))
    by (apply dropwhile_Forall, Forall_rev, H).
  destruct (dropwhile _ _); simpl; [constructor | inversion H'; auto].
Qed.

End StringFacts.

Lemma dropwhile_id p s : head_is p s = false -> dropwhile p s = s.
Proof. destruct s; simpl; [reflexivity|]. intros ->. reflexivity. Qed.

Lemma strip_with_id p s :
  Forall (fun c => p c = false) s -> strip_with p s = s.
Proof.
  intros H. unfold strip_with.
  rewrite (dropwhile_id p s) by (destruct H; simpl; auto).
  rewrite dropwhile_id, rev_involutive; [reflexivity|].
  apply Forall_rev in H. destruct H; simpl; auto.
Qed.

Lemma replace_char_absent c new s :
  mem c s = false -> replace [c] new s = s.
Proof.
  unfold replace. induction s as [|x s IH]; simpl; [reflexivity|].
  intros H. apply orb_false_iff in H as [H1 H2].
  rewrite H1. simpl. f_equal. apply IH, H2.
Qed.

Lemma mem_app c a b : mem c (a ++ b) = mem c a || mem c b.
Proof. unfold mem. apply existsb_app. Qed.

(** After [s.replace(c, new)] no [c] is left, when [new] holds none. *)
Lemma replace_char_removes c new s :
  mem c new = false -> mem c (replace [c] new s) = false.
Proof.
  intros Hn. unfold replace. induction s as [|x s IH]; [reflexivity|].
  cbn [replace_from starts_with length Nat.pred].
  destruct (c =? x) eqn:E; cbn [andb].
  - rewrite mem_app, Hn. exact IH.
  - change (mem c (x :: replace_from [c] new 0 s))
      with ((c =? x) || mem c (replace_from [c] new 0 s)).
    rewrite E. exact IH.
Qed.

Lemma starts_with_mem c : forall p s,
  mem c p = true -> starts_with p s = true -> mem c s = true.
Proof.
  induction p as [|a p IH]; intros [|b s] Hm Hs; simpl in *; try discriminate.
  apply andb_true_iff in Hs as [E Hs]. apply Z.eqb_eq in E. subst b.
  destruct (c =? a); simpl in *; [reflexivity | eauto].
Qed.

(** A string that contains [p] holds every character of [p]. *)
Lemma contains_mem c p : forall s,
  mem c p = true -> contains p s = true -> mem c s = true.
Proof.
  induction s as [|b s IH]; intros Hm Hc.
  - simpl in Hc. rewrite orb_false_r in Hc. eapply starts_with_mem in Hc; eauto.
  - cbn [contains] in Hc. apply orb_true_iff in Hc as [Hc|Hc].
    + eapply starts_with_mem; eauto.
    + simpl. rewrite (IH Hm Hc). apply orb_true_r.
Qed.

Lemma slice_prefix {A} (l : list A) (n : nat) :
  slice l 0 (Z.of_nat n) = firstn n l.
Proof.
  unfold slice, clamp_index. simpl.
  destruct (Z.of_nat n <? 0) eqn:E; [apply Z.ltb_lt in E; lia|].
  rewrite (Z.min_l 0) by lia. rewrite Z.sub_0_r.
  change (Z.to_nat 0) with O. rewrite skipn_O.
  destruct (Z.min_spec (Z.of_nat n) (Z.of_nat (length l))) as [[H ->]|[H ->]].
  - rewrite Nat2Z.id. reflexivity.
  - rewrite Nat2Z.id. rewrite firstn_all. symmetry. apply firstn_all2. lia.
Qed.

Lemma dropwhile_split p : forall l,
  exists w, l = w ++ dropwhile p l /\ Forall (fun c => p c = true) w.
Proof.
  induction l as [|c l [w [E Hw]]]; simpl.
  - exists []. split; [reflexivity | constructor].
  - destruct (p c) eqn:Ep.
    + exists (c :: w). split; [simpl; congruence | constructor; auto].
    + exists []. split; [reflexivity | constructor].
Qed.

Lemma dropwhile_head p l :
  existsb (fun c => negb (p c)) l = true ->
  exists x rest, dropwhile p l = x :: rest /\ p x = false.
Proof.
  induction l as [|c l IH]; simpl; [discriminate|].
  destruct (p c) eqn:Ep; simpl; [exact IH | intros _; eauto].
Qed.

Lemma existsb_rev {A} (f : A -> bool) l : existsb f (rev l) = existsb f l.
Proof.
  induction l as [|x l IH]; simpl; [reflexivity|].
  rewrite existsb_app, IH. simpl. rewrite orb_false_r. apply orb_comm.
Qed.

Lemma existsb_same {A} (f g : A -> bool) l :
  (forall x, f x = g x) -> existsb f l = existsb g l.
Proof. intros H. induction l; simpl; congruence. Qed.

(** [s.rsplit(sep, 1)[0]] cuts at the last separator. *)
Lemma rsplit1_head_spec sep s :
  mem sep s = true ->
  exists word, s = rsplit1_head sep s ++ sep :: word /\ mem sep word = false.
Proof.
  intros Hm. unfold rsplit1_head. rewrite Hm.
  set (p := fun c : char => negb (c =? sep)).
  destruct (dropwhile_split p (rev s)) as [w [E Hw]].
  destruct (dropwhile_head p (rev s)) as [x [rest [Ed Hx]]].
  { rewrite existsb_rev. unfold mem in Hm. rewrite <- Hm.
    apply existsb_same. intros c. unfold p.
    rewrite negb_involutive. apply Z.eqb_sym. }
  unfold p in Hx. apply negb_false_iff, Z.eqb_eq in Hx. subst x.
  rewrite Ed in E.
  assert (Hs : s = rev rest ++ sep :: rev w).
  { rewrite <- (rev_involutive s), E, rev_app_distr. simpl.
    rewrite <- app_assoc. reflexivity. }
  rewrite Ed. simpl. exists (rev w). split; [exact Hs|].
  unfold mem. rewrite existsb_rev. clear -Hw.
  induction Hw as [|c w Hc _ IH]; simpl; [reflexivity|].
  unfold p in Hc. apply negb_true_iff in Hc. rewrite Z.eqb_sym, Hc. exact IH.
Qed.

Lemma rsplit1_head_length sep s : (length (rsplit1_head sep s) <= length s)%nat.
Proof.
  destruct (mem sep s) eqn:E.
  - destruct (rsplit1_head_spec sep s E) as [w [Hs _]].
    rewrite Hs at 2. rewrite length_app. lia.
  - unfold rsplit1_head. rewrite E. lia.
Qed.

(** ** Title cleaning *)

Section TitleFacts.
Context {R : PyRuntime}.

Lemma forbidden_spec c : forbidden c = (c =? 160) || mem c invisible_chars.
Proof.
  apply Bool.eq_iff_eq_true. unfold forbidden, in_range, mem, invisible_chars.
  simpl. repeat rewrite ?orb_true_iff, ?andb_true_iff, ?Z.eqb_eq, ?Z.leb_le.
  lia.
Qed.

Lemma allowed_forallb s :
  forallb (fun c => negb (forbidden c)) s = true -> Forall allowed s.
Proof.
  intros H. apply List.Forall_forall. intros c Hc.
  rewrite forallb_forall in H. apply negb_true_iff, H, Hc.
Qed.

Lemma cls_match_CSet ch : forall cs, cls_match false (CSet cs) ch = mem ch cs.
Proof.
  induction cs as [|c cs IH]; simpl.
  - destruct (is_space ch); reflexivity.
  - destruct cs as [|c' cs'].
    + simpl. unfold lit_match. simpl. rewrite orb_false_r. reflexivity.
    + change (CSet (c :: c' :: cs')) with (COr (CLit c) (CSet (c' :: cs'))).
      cbn [cls_match]. rewrite IH. reflexivity.
Qed.

(** Replacing the characters of a class by nothing deletes them. *)
Lemma scan_class_delete ic c : forall aft bef,
  flat_map (fun t => match t with inl ch => [ch] | inr m => expand [] m end)
           (scan ic (Chr c) O bef aft)
  = List.filter (fun ch => negb (cls_match ic c ch)) aft.
Proof.
  induction aft as [|ch rest IH]; intros bef; [reflexivity|].
  cbn [scan List.filter]. unfold try_at. cbn [rmatch after before caps].
  destruct (cls_match ic c ch) eqn:E; cbn [negb andb].
  - unfold consumed at 1. cbn [after length].
    replace (S (length rest) - length rest)%nat with 1%nat by lia.
    cbn [flat_map expand app]. apply IH.
  - cbn [flat_map app]. f_equal. apply IH.
Qed.

Lemma sub_class_delete ic c s :
  sub ic (Chr c) [] s = List.filter (fun ch => negb (cls_match ic c ch)) s.
Proof. apply scan_class_delete. Qed.

(** The string after the first three steps of [_clean_title] holds no
    forbidden character. *)
Lemma invisible_removed text :
  Forall allowed
    (sub false (Chr (CSet invisible_chars)) [] (replace [160] [32] (unescape text))).
Proof.
  rewrite sub_class_delete. apply List.Forall_forall. intros c Hc.
  apply filter_In in Hc as [Hin Hc]. rewrite cls_match_CSet in Hc.
  unfold allowed. rewrite forbidden_spec. apply negb_true_iff in Hc. rewrite Hc.
  rewrite orb_false_r. apply Z.eqb_neq. intros ->.
  assert (Hm : mem 160 (replace [160] [32] (unescape text)) = false)
    by (apply replace_char_removes; reflexivity).
  unfold mem in Hm. apply not_true_iff_false in Hm. apply Hm.
  apply existsb_exists. exists 160. split; [exact Hin | reflexivity].
Qed.

Lemma clean_title_body_allowed text : Forall allowed (clean_title_body text).
Proof.
  unfold clean_title_body.
  set (t3 := sub false (Chr (CSet invisible_chars)) [] _).
  assert (H3 : Forall allowed t3) by apply invisible_removed.
  set (t8 := sub true space_gb_rx _ _).
  assert (H8 : Forall allowed t8).
  { unfold t8.
    repeat (apply sub_Forall;
            [| first [ solve [apply tlits_in, allowed_forallb; reflexivity]
                     | solve [repeat constructor] ] ]).
    apply strip_with_Forall. exact H3. }
  destruct (_ && _); [|exact H8].
  apply replace_Forall; [apply allowed_forallb; reflexivity | exact H8].
Qed.

Lemma limit_title_length t : (length (limit_title t) <= 160)%nat.
Proof.
  unfold limit_title. destruct (160 <? length t)%nat eqn:E.
  - etransitivity; [apply rsplit1_head_length|].
    change 160 with (Z.of_nat 160). rewrite slice_prefix, length_take. lia.
  - apply Nat.ltb_ge in E. exact E.
Qed.

End TitleFacts.

(** *** Titles that cleaning leaves alone *)

Section NoMatch.
Context {R : PyRuntime}.

Lemma scan_no_match ic r : forall aft bef,
  matches_of (scan ic r O bef aft) = [] -> scan ic r O bef aft = map inl aft.
Proof.
  induction aft as [|c rest IH]; intros bef H; cbn [scan] in *.
  - destruct (try_at ic r false bef []); [discriminate | reflexivity].
  - destruct (try_at ic r false bef (c :: rest)).
    + destruct (consumed (c :: rest) m); discriminate.
    + cbn [matches_of map] in *. f_equal. apply IH, H.
Qed.

(** [re.sub] returns its argument when [re.search] finds nothing. *)
Lemma sub_no_match ic r tpl s : search ic r s = None -> sub ic r tpl s = s.
Proof.
  unfold search, finditer, sub. intros H.
  rewrite scan_no_match by (destruct (matches_of _); [reflexivity | discriminate]).
  clear. induction s; simpl; congruence.
Qed.

End NoMatch.

Section SettledTitles.
Context {R : PyRuntime}.

Lemma title_char_cases c :
  title_char c = true ->
  (c = 32 \/ is_space c = false) /\ mem c invisible_chars = false.
Proof.
  unfold title_char. intros H.
  apply andb_true_iff in H as [H1 H3]. apply negb_true_iff in H3.
  split; [|exact H3].
  apply orb_true_iff in H1 as [H1|H1];
    [left; apply Z.eqb_eq, H1 | right; apply negb_true_iff, H1].
Qed.

Lemma Forall_not_mem (t : str) x : Forall (fun c => ~ c = x) t -> mem x t = false.
Proof.
  intros H. apply not_true_iff_false. intros Hm.
  apply existsb_exists in Hm as [c [Hc E]]. apply Z.eqb_eq in E. subst c.
  rewrite List.Forall_forall in H. exact (H x Hc eq_refl).
Qed.

Lemma title_chars_no_nbsp t :
  Forall (fun c => title_char c = true) t -> mem 160 t = false.
Proof.
  intros H. apply Forall_not_mem. revert H. apply List.Forall_impl.
  intros c Hc E. subst c. apply title_char_cases in Hc as ([Hc|Hc] & _); discriminate.
Qed.

Lemma title_chars_visible t :
  Forall (fun c => title_char c = true) t ->
  Forall (fun c => ~ mem c invisible_chars = true) t.
Proof.
  apply List.Forall_impl. intros c H. apply title_char_cases in H as (_ & H).
  congruence.
Qed.

(** A title character that [strip(" ,; ")] removes is a plain space, a
    comma or a semicolon. *)
Lemma title_char_stripped c :
  title_char c = true -> mem c [32; 44; 59; 160] = (c =? 32) || mem c [44; 59].
Proof.
  intros H. apply title_char_cases in H as (Hs & _).
  unfold mem. cbn [existsb].
  assert (H160 : (c =? 160) = false).
  { apply Z.eqb_neq. intros ->. destruct Hs; discriminate. }
  rewrite H160. rewrite !orb_false_r. reflexivity.
Qed.

Lemma single_spaced_last : forall t b,
  single_spaced b t = true -> head_is (fun c => c =? 32) (rev t) = false.
Proof.
  induction t as [|c rest IH]; intros b H; [reflexivity|].
  cbn [single_spaced] in H. cbn [rev].
  destruct rest as [|c' rest'].
  - cbn [rev app head_is]. destruct (c =? 32); [|reflexivity].
    cbn [single_spaced] in H. rewrite andb_false_r in H. discriminate.
  - assert (Hr : head_is (fun c => c =? 32) (rev (c' :: rest')) = false).
    { destruct (c =? 32); [apply andb_true_iff in H as [_ H]|]; eapply IH; exact H. }
    destruct (rev (c' :: rest')) as [|x l] eqn:E; [|exact Hr].
    apply (f_equal (@length _)) in E. rewrite length_rev in E. discriminate.
Qed.

Lemma spaced_strip t :
  Forall (fun c => title_char c = true) t -> spaced t = true -> ends_clear t = true ->
  strip_chars [32; 44; 59; 160] t = t.
Proof.
  intros Hc Hs He. unfold strip_chars, strip_with.
  apply andb_true_iff in He as [He1 He2]. apply negb_true_iff in He1, He2.
  destruct t as [|c rest]; [reflexivity|]. cbn [spaced] in Hs.
  rewrite (dropwhile_id _ (c :: rest)).
  2:{ cbn [head_is] in *. inversion Hc; subst. rewrite title_char_stripped by assumption.
      rewrite He1. cbn [single_spaced] in Hs.
      destruct (c =? 32); [discriminate | reflexivity]. }
  rewrite dropwhile_id; [apply rev_involutive|].
  pose proof (single_spaced_last _ _ Hs) as Hl.
  apply Forall_rev in Hc.
  destruct (rev (c :: rest)) as [|x l]; [reflexivity|].
  cbn [head_is] in *. inversion Hc; subst.
  rewrite title_char_stripped by assumption. rewrite Hl, He2. reflexivity.
Qed.

(** On single-spaced words, collapsing white space changes nothing. *)
Lemma scan_single_spaces : forall t b bef,
  Forall (fun c => title_char c = true) t -> single_spaced b t = true ->
  flat_map (fun x => match x with inl ch => [ch] | inr m => expand (tlits [32]) m end)
           (scan false (Plus space) O bef t) = t.
Proof.
  induction t as [|c rest IH]; intros b bef Hc Hs; [reflexivity|].
  inversion Hc as [|? ? Hc1 Hc2]; subst.
  cbn [single_spaced] in Hs. cbn [scan].
  destruct (c =? 32) eqn:E32.
  - apply Z.eqb_eq in E32. subst c. apply andb_true_iff in Hs as [_ Hs].
    destruct rest as [|c' rest']; [discriminate|].
    assert (Hn : is_space c' = false).
    { cbn [single_spaced] in Hs. inversion Hc2; subst.
      destruct (title_char_cases c' ltac:(assumption)) as ([->|H] & _);
        [discriminate | exact H]. }
    unfold try_at, Plus, space. cbn [rmatch after before caps cls_match length].
    change (is_space 32) with true. cbv iota. cbn [after cls_match].
    rewrite Hn. cbn [andb]. unfold consumed. cbn [after length].
    replace (S (S (length rest')) - S (length rest'))%nat with 1%nat by lia.
    cbn [flat_map]. unfold expand at 1. cbn [tlits map flat_map app].
    f_equal. apply (IH true); assumption.
  - assert (Hn : is_space c = false).
    { destruct (title_char_cases c Hc1) as ([->|H] & _); [discriminate | exact H]. }
    unfold try_at, Plus, space. cbn [rmatch after before caps cls_match].
    rewrite Hn. cbn [flat_map app]. f_equal. apply (IH false); assumption.
Qed.

Lemma sub_single_spaces t :
  Forall (fun c => title_char c = true) t -> spaced t = true ->
  sub false (Plus space) (tlits [32]) t = t.
Proof.
  intros Hc Hs. destruct t as [|c rest]; [reflexivity|].
  unfold sub. apply (scan_single_spaces _ true); assumption.
Qed.

Lemma needs_invisible :
  needs (fun c => mem c invisible_chars = true) false (Chr (CSet invisible_chars)).
Proof. cbn [needs]. intros ch. rewrite cls_match_CSet. auto. Qed.

End SettledTitles.

(** ** The cache entry *)

(** What every function that changes an entry keeps, for a property [I] that
    is kept by appending an item under its own, fresh key and that only
    depends on [items] and [seen]. *)
Section Preservation.
Context {R : PyRuntime}.
Variable I : Entry.t -> Prop.
Hypothesis I_append : forall item e,
  _item_key item ∉ Entry.seen e -> I e -> I (append_item (_item_key item) item e).
Hypothesis I_frame : forall e e',
  Entry.items e' = Entry.items e -> Entry.seen e' = Entry.seen e -> I e -> I e'.

Lemma set_limit_keeps source v e : I e -> I (set_limit source v e).
Proof. apply I_frame; reflexivity. Qed.

Lemma apply_items_keeps tokens res : forall e, I e -> I (apply_items tokens res e).
Proof.
  induction res as [|raw rest IH]; intros e He; simpl; [exact He|].
  destruct (match tokens with [] => false | _ => _ end); [apply IH, He|].
  destruct (decide _); [apply IH, He|].
  apply IH, I_append; assumption.
Qed.

Lemma apply_provider_result_keeps tokens ex tr source req prev res e :
  I e -> I (_apply_provider_result tokens ex tr source req prev res e).
Proof.
  intros He. destruct res; simpl; auto.
  - destruct tr; auto using set_limit_keeps.
  - apply apply_items_keeps. destruct (_ || _); auto using set_limit_keeps.
Qed.

Lemma apply_provider_result_async_keeps st e :
  I e -> I (_apply_provider_result_async st e).
Proof.
  intros He. unfold _apply_provider_result_async.
  eapply I_frame; [| |apply apply_provider_result_keeps, He]; reflexivity.
Qed.

Lemma add_page_items_keeps target page : forall added cur e,
  I e -> I (fst (add_page_items target page added cur e)).
Proof.
  induction page as [|raw rest IH]; intros added cur e He; simpl; [exact He|].
  destruct (decide _); [apply IH, He|].
  assert (He' : I (append_item (_item_key (normalize_item _clean_title raw))
                     (normalize_item _clean_title raw) e))
    by (apply I_append; assumption).
  destruct (_ <=? _); [exact He'|].
  destruct (_ <=? _); [exact He'|].
  apply IH, He'.
Qed.

Lemma fill_loop_keeps env query tokens target : forall fuel e,
  I e -> I (fst (fill_loop env query tokens target fuel e)).
Proof.
  induction fuel as [|fuel IH]; intros e He; simpl; [exact He|].
  destruct (_ && _); [|exact He].
  destruct (_ <? _); [revert He; apply I_frame; reflexivity|].
  destruct (yp_no_html _); [exact He|].
  set (e1 := Entry.with_yandex_next_page _ _).
  assert (He1 : I e1).
  { revert He. apply I_frame; unfold e1; destruct (nonempty _); reflexivity. }
  destruct (yandex_page_items _ _) as [|it page] eqn:Ep.
  { revert He1. apply I_frame; reflexivity. }
  pose proof (add_page_items_keeps target (it :: page) 0 (yandex_count e1) e1 He1) as H2.
  destruct (add_page_items _ _ _ _ _) as [e2 added]. cbn [fst] in H2.
  destruct (added =? 0); [revert H2; apply I_frame; reflexivity|].
  specialize (IH e2 H2). destruct (fill_loop _ _ _ _ _ e2). exact IH.
Qed.

Lemma fill_yandex_keeps env e query target psl :
  I e -> I (fst (_fill_yandex env e query target psl)).
Proof. apply fill_loop_keeps. Qed.

Lemma fold_tasks_keeps (f : Entry.t -> task -> Entry.t) tasks :
  (forall e t, I e -> I (f e t)) -> forall e, I e -> I (fold_left f tasks e).
Proof.
  intros Hf. induction tasks as [|t tasks IH]; intros e He; simpl; auto.
Qed.

Lemma apply_task_keeps env query tokens ex tr res_of t e :
  I e -> I (apply_task env query tokens ex tr res_of t e).
Proof.
  intros He. destruct t as [[source req] prev]. simpl.
  apply apply_provider_result_keeps, He.
Qed.

Lemma ensure_cached_keeps env e query target sources ex pst slow wait :
  I e -> I (fst (fst (_ensure_cached env e query target sources ex pst slow wait))).
Proof.
  intros He. unfold _ensure_cached.
  destruct (cache_is_enough e target ex); [exact He|].
  set (filled := if _ && _ then _ else _).
  assert (H1 : I (fst filled)).
  { unfold filled. destruct (_ && _); [apply fill_yandex_keeps, He | exact He]. }
  destruct filled as [e1 evs]. cbn [fst] in H1.
  destruct (cache_is_enough e1 target ex); [exact H1|].
  destruct (per_source_limit_of _ _ _ _ _) as [psl|]; [|exact H1].
  destruct (psl <=? 0); [exact H1|].
  destruct (schedule _ _ _ _) as [|t tasks]; [exact H1|].
  destruct wait; cbn [fst].
  - apply (fold_tasks_keeps (fun e t => apply_task _ _ _ _ _ _ t e));
      [intros; apply apply_task_keeps; assumption|].
    revert H1. apply I_frame; reflexivity.
  - apply (fold_tasks_keeps (fun e t => apply_task _ _ _ _ _ _ t e));
      [intros; apply apply_task_keeps; assumption|].
    revert H1. apply I_frame; reflexivity.
Qed.

End Preservation.

Section CacheFacts.
Context {R : PyRuntime}.

Lemma reset_inv now e : dedup_inv (Entry.reset now e).
Proof.
  unfold dedup_inv, Entry.reset. cbn [Entry.seen Entry.items length].
  apply size_empty.
Qed.

(** An item appended under a key not yet seen adds one to both sides. *)
Lemma append_item_inv k item e :
  k ∉ Entry.seen e -> dedup_inv e -> dedup_inv (append_item k item e).
Proof.
  unfold dedup_inv, append_item, Entry.with_items, Entry.with_seen.
  cbn [Entry.seen Entry.items]. intros Hk He.
  rewrite size_union by set_solver. rewrite size_singleton, length_app.
  cbn [length]. lia.
Qed.

Lemma dedup_frame e e' :
  Entry.items e' = Entry.items e -> Entry.seen e' = Entry.seen e ->
  dedup_inv e -> dedup_inv e'.
Proof. unfold dedup_inv. intros -> ->. auto. Qed.

Lemma apply_provider_result_inv tokens ex tr source req prev res e :
  dedup_inv e -> dedup_inv (_apply_provider_result tokens ex tr source req prev res e).
Proof.
  apply apply_provider_result_keeps;
    [intros; apply append_item_inv; assumption | apply dedup_frame].
Qed.

Lemma apply_provider_result_async_inv st e :
  dedup_inv e -> dedup_inv (_apply_provider_result_async st e).
Proof.
  apply apply_provider_result_async_keeps;
    [intros; apply append_item_inv; assumption | apply dedup_frame].
Qed.

Lemma fill_yandex_inv env e query target psl :
  dedup_inv e -> dedup_inv (fst (_fill_yandex env e query target psl)).
Proof.
  apply fill_yandex_keeps;
    [intros; apply append_item_inv; assumption | apply dedup_frame].
Qed.

Lemma ensure_cached_inv env e query target sources ex pst slow wait :
  dedup_inv e ->
  dedup_inv (fst (fst (_ensure_cached env e query target sources ex pst slow wait))).
Proof.
  apply ensure_cached_keeps;
    [intros; apply append_item_inv; assumption | apply dedup_frame].
Qed.

(** The stronger reading of the invariant: [seen] is the set of the keys of
    the cached items, and no two cached items have the same key. *)
Lemma keys_reset now e : keys_inv (Entry.reset now e).
Proof.
  unfold keys_inv, Entry.reset. cbn [Entry.seen Entry.items map].
  split; [reflexivity | constructor].
Qed.

Lemma keys_append item e :
  _item_key item ∉ Entry.seen e -> keys_inv e ->
  keys_inv (append_item (_item_key item) item e).
Proof.
  unfold keys_inv, append_item, Entry.with_items, Entry.with_seen.
  cbn [Entry.seen Entry.items]. intros Hk [Hs Hn].
  rewrite map_app. cbn [map]. split.
  - rewrite list_to_set_app_L, Hs. cbn [list_to_set].
    rewrite union_empty_r_L. apply (comm_L (∪)).
  - apply NoDup_app. split; [exact Hn|]. split; [|apply NoDup_singleton].
    intros x Hx Hx'. apply list_elem_of_singleton in Hx'. subst x.
    apply Hk. rewrite Hs. apply elem_of_list_to_set. exact Hx.
Qed.

Lemma keys_frame e e' :
  Entry.items e' = Entry.items e -> Entry.seen e' = Entry.seen e ->
  keys_inv e -> keys_inv e'.
Proof. unfold keys_inv. intros -> ->. auto. Qed.

Lemma keys_dedup e : keys_inv e -> dedup_inv e.
Proof.
  unfold keys_inv, dedup_inv. intros [-> Hn].
  rewrite size_list_to_set by exact Hn. apply length_map.
Qed.

(** [_apply_provider_result], a straggler's late result, the Yandex filler
    and the whole of [_ensure_cached] keep it. *)
Lemma keys_invariant tokens ex tr source req prev res st env query target psl
    sources slow wait e :
  keys_inv e ->
  keys_inv (_apply_provider_result tokens ex tr source req prev res e) /\
  keys_inv (_apply_provider_result_async st e) /\
  keys_inv (fst (_fill_yandex env e query target psl)) /\
  keys_inv (fst (fst (_ensure_cached env e query target sources ex psl slow wait))).
Proof.
  intros He. split; [|split; [|split]].
  - revert He. apply apply_provider_result_keeps; [exact keys_append | exact keys_frame].
  - revert He. apply apply_provider_result_async_keeps; [exact keys_append | exact keys_frame].
  - revert He. apply fill_yandex_keeps; [exact keys_append | exact keys_frame].
  - revert He. apply ensure_cached_keeps; [exact keys_append | exact keys_frame].
Qed.

Lemma add_page_items_cursor target page : forall added cur e,
  Entry.yandex_next_page (fst (add_page_items target page added cur e))
  = Entry.yandex_next_page e.
Proof.
  induction page as [|raw rest IH]; intros added cur e; simpl; [reflexivity|].
  destruct (decide _); [apply IH|].
  destruct (_ <=? _); [reflexivity|].
  destruct (_ <=? _); [reflexivity|].
  rewrite IH. reflexivity.
Qed.

(** The fuel of [_fill_yandex] is enough: more fuel changes nothing. *)
Lemma fill_loop_enough env query tokens target : forall fuel e,
  (fill_fuel e <= fuel)%nat ->
  fill_loop env query tokens target (S fuel) e = fill_loop env query tokens target fuel e.
Proof.
  induction fuel as [|fuel IH]; intros e Hf; [unfold fill_fuel in Hf; lia|].
  cbn [fill_loop].
  destruct (_ && _); [|reflexivity].
  destruct (YANDEX_MAX_PAGES <? Entry.yandex_next_page e) eqn:Ep; [reflexivity|].
  destruct (yp_no_html _); [reflexivity|].
  set (e1 := Entry.with_yandex_next_page _ _).
  assert (Hc : Entry.yandex_next_page e1 = Entry.yandex_next_page e + 1)
    by (unfold e1; destruct (nonempty _); reflexivity).
  destruct (yandex_page_items _ _) as [|it page]; [reflexivity|].
  pose proof (add_page_items_cursor target (it :: page) 0 (yandex_count e1) e1) as Hc2.
  destruct (add_page_items _ _ _ _ _) as [e2 added]. cbn [fst] in Hc2.
  destruct (added =? 0); [reflexivity|].
  rewrite <- IH; [reflexivity|].
  apply Z.ltb_ge in Ep. unfold fill_fuel, YANDEX_MAX_PAGES in *.
  clearbody e1. lia.
Qed.

Lemma insert_by_length {A} (cmp : A -> A -> comparison) x l :
  length (insert_by cmp x l) = S (length l).
Proof.
  induction l as [|y l IH]; simpl; [reflexivity|].
  destruct (cmp x y); simpl; congruence.
Qed.

Lemma sort_by_length {A} (cmp : A -> A -> comparison) (l : list A) :
  length (sort_by cmp l) = length l.
Proof.
  induction l as [|x l IH]; simpl; [reflexivity|].
  rewrite insert_by_length. congruence.
Qed.

End CacheFacts.

(** * The claims of the specification *)

(** ** Price normalisation *)

(** The integer branch of [_normalize_price]. *)
Lemma normalize_price_int `{R : PyRuntime} (z : Z) :
  _normalize_price (VInt z) = if (1 <=? z) && (z <=? 1000000) then z else 0.
Proof.
  unfold _normalize_price.
  destruct (Z.leb_spec z 0), (Z.ltb_spec 1000000 z), (Z.leb_spec 1 z),
    (Z.leb_spec z 1000000); simpl; lia.
Qed.

(** C1, as stated, fails: [_normalize_price(5)] is 5, which is neither 0 nor
    in [10, 1_000_000]. *)
Lemma normalize_price_keeps_5 :
  let r := @_normalize_price Basic.runtime (VInt 5) in
  ~ (r = 0 \/ 10 <= r <= 1000000).
Proof.
  intros r. assert (E : r = 5) by reflexivity. clearbody r. lia.
Qed.

(** A float just above the upper bound is truncated to it and kept:
    [_normalize_price(1000000.5)] is 1000000. *)
Lemma normalize_price_truncates :
  @_normalize_price Basic.runtime (VFloat (S754_finite false 8589938886967296 (-33)))
  = 1000000.
Proof. vm_compute. reflexivity. Qed.

(** C1 (amended): for every input, [_normalize_price] returns 0 or a value in
    [1, 1_000_000].  [None] and booleans give 0.  An integer in
    [1, 1_000_000] is returned as it is (so are 1..9), any other integer
    gives 0.  A float is read through [int()], that is truncated towards zero
    (0 where [int()] raises), any other value through [_first_price] of its
    text, and the integer read is treated in the same way.
    [_normalize_price] is idempotent. *)
Theorem normalize_price_range `{R : PyRuntime} (x : pyval) :
  let r := _normalize_price x in
  let gate z := if (1 <=? z) && (z <=? 1000000) then z else 0 in
  (r = 0 \/ 1 <= r <= 1000000) /\
  r = match x with
      | VNone | VBool _ => 0
      | VInt z => gate z
      | VFloat f => gate (match int_of_float f with Some z => z | None => 0 end)
      | VStr s => gate (_first_price s)
      end /\
  (forall sg m e, exists a,
     int_of_float (S754_finite sg m e) = Some (if sg then - a else a) /\ 0 <= a /\
     if 0 <=? e then a = Z.pos m * 2 ^ e
     else a * 2 ^ (- e) <= Z.pos m < (a + 1) * 2 ^ (- e)) /\
  _normalize_price (VInt r) = r.
Proof.
  intros r gate.
  assert (Hg : forall v, (if (v <=? 0) || (1000000 <? v) then 0 else v) = gate v).
  { intros v. unfold gate.
    destruct (Z.leb_spec v 0), (Z.ltb_spec 1000000 v), (Z.leb_spec 1 v),
      (Z.leb_spec v 1000000); simpl; lia. }
  assert (Hr : r = match x with
      | VNone | VBool _ => 0
      | VInt z => gate z
      | VFloat f => gate (match int_of_float f with Some z => z | None => 0 end)
      | VStr s => gate (_first_price s)
      end).
  { unfold r, _normalize_price. destruct x; try reflexivity; apply Hg. }
  assert (Hrange : forall v, gate v = 0 \/ 1 <= gate v <= 1000000).
  { intros v. unfold gate.
    destruct (Z.leb_spec 1 v), (Z.leb_spec v 1000000); simpl; lia. }
  assert (Hr' : r = 0 \/ 1 <= r <= 1000000).
  { rewrite Hr. destruct x; try (left; reflexivity); apply Hrange. }
  split; [exact Hr'|]. split; [exact Hr|]. split.
  - intros sg m e. cbn [int_of_float]. destruct (Z.leb_spec 0 e) as [He|He].
    + exists (Z.pos m * 2 ^ e). split; [reflexivity|]. split; [|reflexivity].
      apply Z.mul_nonneg_nonneg; [lia | apply Z.pow_nonneg; lia].
    + assert (Hd : 0 < 2 ^ (- e)) by (apply Z.pow_pos_nonneg; lia).
      exists (Z.pos m / 2 ^ (- e)). split; [reflexivity|].
      split; [apply Z.div_pos; lia|].
      pose proof (Z.mul_div_le (Z.pos m) _ Hd).
      pose proof (Z.mul_succ_div_gt (Z.pos m) _ Hd). lia.
  - rewrite normalize_price_int.
    destruct (Z.leb_spec 1 r), (Z.leb_spec r 1000000); simpl; lia.
Qed.

(** ** Price extraction from text *)

(** C10: a text without any currency marker for which [_first_price] is not
    zero: ["iPhone 15"] gives 15, by the last fallback on a standalone number
    of two to six digits. *)
Theorem first_price_without_currency :
  let text := u "iPhone 15" in
  @search Basic.runtime true rub_pat text = None /\
  existsb (fun c => mem c (u "₽рР")) text = false /\
  @search Basic.runtime false (SeqL [WordB; Group 1 (Rep 2 6 digit); WordB]) text
    = Some (MObj 7 9 (u "15") [(1%nat, u "15")]) /\
  @_first_price Basic.runtime text = 15.
Proof. vm_compute. repeat split; reflexivity. Qed.

(** C8, what the code does: for ["1 000 ₽/мес"] the context of the match is
    the whole text, [_PRICE_CONTEXT_SKIP] does not match it, and the price
    1000 is returned. *)
Theorem prices_from_text_monthly :
  let text := u "1 000 ₽/мес" in
  @search Basic.runtime true _PRICE_CONTEXT_SKIP text = None /\
  @_prices_from_text Basic.runtime text = [1000].
Proof. vm_compute. split; reflexivity. Qed.

(** With single backslashes the pattern finds ["/мес"] in that context. *)
Lemma monthly_context_intended :
  @search Basic.runtime true skip_with_single_backslashes (u "1 000 ₽/мес")
  = Some (MObj 7 11 (u "/мес") []).
Proof. vm_compute. reflexivity. Qed.

(** What does hold in general: a match whose context [_PRICE_CONTEXT_SKIP]
    finds something in contributes no price. *)
Lemma skipped_context_rejected `{R : PyRuntime} (t : str) (m : mobj) (ms : list mobj) :
  context_skipped t m = true -> collect_prices t (m :: ms) = collect_prices t ms.
Proof. intros H. cbn [collect_prices]. rewrite H. reflexivity. Qed.

(** The alternatives of [_PRICE_CONTEXT_SKIP] written without a backslash do
    reject a price. *)
Lemma prices_from_text_credit :
  @_prices_from_text Basic.runtime (u "1 000 ₽ кредит, 25 990 р. и 300 РУБ") = [300].
Proof. vm_compute. reflexivity. Qed.

(** ** The token match *)

Section TokenFacts.
Context {R : PyRuntime}.

Lemma contains_nil v : nonempty v = true -> contains v [] = false.
Proof. destruct v; [discriminate | reflexivity]. Qed.

Lemma token_hit_nil tok : token_hit [] tok = false.
Proof.
  unfold token_hit. apply not_true_iff_false. intros H.
  apply existsb_exists in H as [v [_ H]]. apply andb_true_iff in H as [Hn Hc].
  rewrite contains_nil in Hc by exact Hn. discriminate.
Qed.

Lemma count_hits_nil tokens : count_hits [] tokens = 0.
Proof.
  unfold count_hits. induction tokens as [|tok tokens IH]; [reflexivity|].
  cbn [List.filter]. rewrite token_hit_nil. exact IH.
Qed.

Lemma required_hits_positive n : 1 <= required_hits n.
Proof. unfold required_hits. destruct (n =? 1), (n =? 2); lia. Qed.

End TokenFacts.

Lemma floor_agrees_spec : forall fuel n k,
  floor_agrees fuel n = true -> n <= k < n + Z.of_nat fuel ->
  int_times_0_6 k = 3 * k / 5.
Proof.
  induction fuel as [|fuel IH]; intros n k H Hk; [lia|].
  cbn [floor_agrees] in H. apply andb_true_iff in H as [H0 H1].
  destruct (Z.eq_dec k n) as [->|Hne]; [apply Z.eqb_eq, H0|].
  apply (IH (n + 1)); [exact H1 | lia].
Qed.

(** In binary64, [int(n * 0.6)] is the integer part of 3n/5 for every list
    length up to 10000. *)
Lemma int_times_0_6_floor k : 0 <= k <= 10000 -> int_times_0_6 k = 3 * k / 5.
Proof.
  intros Hk. apply (floor_agrees_spec (Z.to_nat 10001) 0).
  - vm_compute. reflexivity.
  - lia.
Qed.

(** C2, as stated, fails: with four tokens of which two occur in the title the
    code accepts the title ([int(4 * 0.6)] is 2), while [max(2, ceil(2.4))] is
    3. *)
Lemma matches_query_four_tokens :
  let title := u "aa bb" in
  let tokens := map u ["aa"; "bb"; "cc"; "dd"]%string in
  ~ (@_matches_query Basic.runtime title tokens = true <->
     required_as_claimed (Z.of_nat (length tokens))
       <= count_hits (@match_title Basic.runtime title) tokens).
Proof.
  intros title tokens [H _].
  assert (E : (required_as_claimed (Z.of_nat (length tokens))
               <=? count_hits (@match_title Basic.runtime title) tokens) = false)
    by (vm_compute; reflexivity).
  apply Z.leb_gt in E. apply Z.lt_nge in E. apply E, H. vm_compute. reflexivity.
Qed.

(** C2 (amended): for every title and every non-empty token list,
    [_matches_query] holds iff the number of tokens of which a non-empty
    variant (the token or one of its synonyms) is a substring of the stripped,
    lower-cased, ё→е-normalised title is at least [required], where
    [required] is 1 for one token, 2 for two tokens and
    [max(2, int(0.6 N))] for N >= 3 tokens; the conversion truncates, so that
    for 3 <= N <= 10000 [required] is [max(2, floor(0.6 N))]. *)
Theorem matches_query_required `{R : PyRuntime} (title : str) (tokens : list str) :
  tokens <> [] ->
  (_matches_query title tokens = true <->
   required_hits (Z.of_nat (length tokens)) <= count_hits (match_title title) tokens) /\
  required_hits 1 = 1 /\
  required_hits 2 = 2 /\
  (forall n, 3 <= n -> required_hits n = Z.max 2 (int_times_0_6 n)) /\
  (forall n, 3 <= n <= 10000 -> required_hits n = Z.max 2 (3 * n / 5)).
Proof.
  intros Hne.
  assert (Hgen : forall n, 3 <= n -> required_hits n = Z.max 2 (int_times_0_6 n)).
  { intros n Hn. unfold required_hits.
    destruct (Z.eqb_spec n 1); [lia|]. destruct (Z.eqb_spec n 2); [lia|]. reflexivity. }
  split; [|split; [reflexivity|split; [reflexivity|split; [exact Hgen|]]]].
  - pose proof (required_hits_positive (Z.of_nat (length tokens))) as Hpos.
    unfold _matches_query. destruct tokens as [|tok tokens]; [contradiction|].
    destruct (match_title title) as [|c t] eqn:Et.
    + rewrite count_hits_nil. split; [discriminate | lia].
    + apply Z.leb_le.
  - intros n Hn. rewrite Hgen by lia. rewrite int_times_0_6_floor by lia. reflexivity.
Qed.

Lemma matches_query_required_witness :
  let title := u "Apple iPhone 15" in
  let tokens := map u ["айфон"; "15"; "pro"; "max"]%string in
  tokens <> [] /\
  (@_matches_query Basic.runtime title tokens = true <->
   required_hits 4 <= count_hits (@match_title Basic.runtime title) tokens) /\
  required_hits 4 = 2.
Proof.
  intros title tokens.
  destruct (@matches_query_required Basic.runtime title tokens ltac:(discriminate))
    as (H & _ & _ & _ & Hf).
  split; [discriminate|]. split; [exact H|].
  rewrite Hf by lia. reflexivity.
Defined.

(** ** Title cleaning *)


(** Other ways in which a second cleaning changes the result: the space put
    before ["(б/у)"], and the comma left at the end by the cut to 160
    characters. *)
Lemma clean_title_twice_differs_used :
  @_clean_title Basic.runtime (u "б/у") = u " (б/у)" /\
  @_clean_title Basic.runtime (u " (б/у)") = u "(б/у)".
Proof. vm_compute. split; reflexivity. Qed.

Lemma clean_title_twice_differs_cut :
  let t := u "x, " ++ repeat 97 200 in
  @_clean_title Basic.runtime t = u "x," /\
  @_clean_title Basic.runtime (u "x,") = u "x".
Proof. vm_compute. split; reflexivity. Qed.

(** A second cleaning also removes the second of two spaces left where a
    comma stood before ["б/у"], and a comma left before a memory size. *)
Lemma clean_title_twice_differs_more :
  @_clean_title Basic.runtime (u "a , б/у") = u "a  (б/у)" /\
  @_clean_title Basic.runtime (u "a  (б/у)") = u "a (б/у)" /\
  @_clean_title Basic.runtime (u "a,, 8/256 гб") = u "a, 8/256 ГБ" /\
  @_clean_title Basic.runtime (u "a, 8/256 ГБ") = u "a 8/256 ГБ".
Proof. vm_compute. repeat split; reflexivity. Qed.

Lemma Forall_of_forallb (f : char -> bool) (t : str) :
  forallb f t = true -> Forall (fun c => f c = true) t.
Proof.
  intros H. apply List.Forall_forall. intros c Hc.
  rewrite forallb_forall in H. apply H, Hc.
Qed.

(** C5, as stated, fails: a title of 161 letters without a space is cut after
    its 160th letter, inside the word. *)
Lemma clean_title_cuts_inside_word :
  let text := repeat 97 161 in
  @clean_title_body Basic.runtime text = text /\
  @_clean_title Basic.runtime text = repeat 97 160 /\
  ~ cut_on_word_boundary (@clean_title_body Basic.runtime text)
                         (@_clean_title Basic.runtime text).
Proof.
  intros text.
  assert (Eb : @clean_title_body Basic.runtime text = repeat 97 160 ++ [97])
    by (vm_compute; reflexivity).
  assert (Eo : @_clean_title Basic.runtime text = repeat 97 160)
    by (vm_compute; reflexivity).
  split; [vm_compute; reflexivity|]. split; [exact Eo|].
  rewrite Eb, Eo. intros [rest [E H]].
  apply app_inv_head in E. subst rest.
  destruct H as [H|[rest' H]]; discriminate.
Qed.

(** C5 (amended): for every input the output of [_clean_title] holds none of
    U+00A0, U+200B..U+200F, U+202A..U+202C, U+2060 and has at most 160
    characters; a cleaned title of more than 160 characters is cut before the
    last space among its first 160 characters when there is one, and after
    exactly 160 characters when there is none. *)
Theorem clean_title_output `{R : PyRuntime} (text : str) :
  let body := clean_title_body text in
  let head := firstn 160 body in
  let out := _clean_title text in
  Forall (fun c => forbidden c = false) out /\
  (length out <= 160)%nat /\
  ((length body <= 160)%nat -> out = body) /\
  ((160 < length body)%nat -> mem 32 head = true ->
   exists word, head = out ++ 32 :: word /\ mem 32 word = false) /\
  ((160 < length body)%nat -> mem 32 head = false -> out = head).
Proof.
  intros body head out.
  assert (Hb : Forall allowed body) by apply clean_title_body_allowed.
  assert (Hcut : (160 < length body)%nat -> out = rsplit1_head 32 head).
  { intros H. unfold out, _clean_title, limit_title. fold body.
    apply Nat.ltb_lt in H. rewrite H.
    change 160 with (Z.of_nat 160). rewrite slice_prefix. reflexivity. }
  split; [|split; [|split; [|split]]].
  - unfold out, _clean_title, limit_title. fold body.
    destruct (160 <? length body)%nat; [|exact Hb].
    apply rsplit1_head_Forall, slice_Forall, Hb.
  - apply limit_title_length.
  - intros H. unfold out, _clean_title, limit_title. fold body.
    apply Nat.ltb_ge in H. rewrite H. reflexivity.
  - intros H Hm. rewrite (Hcut H). apply rsplit1_head_spec, Hm.
  - intros H Hm. rewrite (Hcut H). unfold rsplit1_head. rewrite Hm. reflexivity.
Qed.

(** ** The orchestrator *)

(** C3, as stated, fails: with five cached items, offset 0 and limit 2 the
    code returns the two cheapest items and [has_more = True] (0 + 2 < 5),
    while none of the three conditions of the claim holds. *)
Lemma global_page_has_more_first_page :
  let sources := Some [u "avito.ru"] in
  let r := @search_products Basic.runtime silent_env 35 0 five_item_entry
             (u "phone") 0 2 sources false false in
  sp_page r = [avito_item "a4" 100; avito_item "a5" 200] /\
  sp_has_more r = true /\
  has_more_as_claimed (sp_entry r) (@_normalize_sources Basic.runtime sources) 0
    (sp_page r) false = false.
Proof. vm_compute. repeat split; reflexivity. Qed.

Section SortFacts.
Context {A : Type} (cmp : A -> A -> comparison).
Hypothesis cmp_total : forall x y, cmp x y = Gt -> cmp y x <> Gt.

Local Abbreviation le_by := (le_by cmp).

Lemma insert_by_hd x y l :
  le_by y x -> HdRel le_by y l -> HdRel le_by y (insert_by cmp x l).
Proof.
  intros Hyx Hl. destruct l as [|z l]; simpl; [constructor; exact Hyx|].
  destruct (cmp x z); constructor; try exact Hyx.
  inversion Hl; assumption.
Qed.

Lemma insert_by_sorted x l : Sorted le_by l -> Sorted le_by (insert_by cmp x l).
Proof.
  induction l as [|y l IH]; intros Hl; simpl; [repeat constructor|].
  inversion Hl as [|? ? Hs Hh]; subst.
  destruct (cmp x y) eqn:E.
  - constructor; [exact Hl | constructor; unfold le_by; congruence].
  - constructor; [exact Hl | constructor; unfold le_by; congruence].
  - constructor; [apply IH, Hs | apply insert_by_hd; [apply cmp_total, E | exact Hh]].
Qed.

Lemma sort_by_sorted l : Sorted le_by (sort_by cmp l).
Proof.
  induction l as [|x l IH]; simpl; [constructor | apply insert_by_sorted, IH].
Qed.

End SortFacts.

Lemma str_compare_antisym : forall a b, str_compare b a = CompOpp (str_compare a b).
Proof.
  induction a as [|x a IH]; intros [|y b]; simpl; try reflexivity.
  rewrite (Z.compare_antisym x y). destruct (x ?= y); simpl; auto.
Qed.

Lemma item_compare_antisym a b : item_compare b a = CompOpp (item_compare a b).
Proof.
  unfold item_compare.
  rewrite (Z.compare_antisym (price_key a) (price_key b)).
  destruct (price_key a ?= price_key b); simpl; try reflexivity.
  rewrite (str_compare_antisym (Item.source a) (Item.source b)).
  destruct (str_compare (Item.source a) (Item.source b)); simpl; try reflexivity.
  apply str_compare_antisym.
Qed.

Lemma item_compare_total a b : item_compare a b = Gt -> item_compare b a <> Gt.
Proof. intros H. rewrite item_compare_antisym, H. discriminate. Qed.

(** C3 (amended): in global-merge mode [search_products] returns the slice
    [items[offset:offset+limit]] of the entry's item list, which is sorted by
    [(price or 1_000_000_000, source, id)], and [has_more] is true iff
    (1) ["market.yandex.ru"] is among the sources, the entry is not
    [yandex_exhausted] and [yandex_next_page <= 10], or
    (2) [offset + len(page) < ] the number of cached items, or
    (3) [partial] and [pending_sources] is not empty. *)
Theorem global_merge_page `{R : PyRuntime} (env : Env) (sts now : Z)
    (entry : Entry.t) (query : str) (offset limit : Z)
    (sources : option (list str)) (partial : bool) :
  let r := search_products env sts now entry query offset limit sources false partial in
  let e' := sp_entry r in
  let sources_n := _normalize_sources sources in
  Sorted (le_by item_compare) (Entry.items e') /\
  sp_page r = slice (Entry.items e') offset (offset + limit) /\
  (sp_has_more r = true <->
   (str_in YANDEX sources_n = true /\ Entry.yandex_exhausted e' = false
    /\ Entry.yandex_next_page e' <= 10)
   \/ offset + Z.of_nat (length (sp_page r)) < Z.of_nat (length (Entry.items e'))
   \/ (partial = true /\ Entry.pending_sources e' <> ∅)).
Proof.
  intros r e' sources_n. unfold e', r, search_products.
  destruct (_ensure_cached _ _ _ _ _ _ _ _ _) as [[e1 evs] late].
  unfold sp_entry, sp_page, sp_has_more, global_page.
  cbn [fst snd Entry.items Entry.with_items Entry.yandex_exhausted
       Entry.yandex_next_page Entry.pending_sources].
  split; [apply sort_by_sorted, item_compare_total|]. split; [reflexivity|].
  fold sources_n.
  set (items' := sort_by item_compare (Entry.items e1)).
  set (page := slice items' offset (offset + limit)).
  set (y := yandex_has_more _ _).
  set (lt := (_ <? _)).
  set (p := partial && _).
  assert (Hy : y = true <->
               str_in YANDEX sources_n = true /\ Entry.yandex_exhausted e1 = false
               /\ Entry.yandex_next_page e1 <= 10).
  { unfold y, yandex_has_more, YANDEX_MAX_PAGES.
    cbn [Entry.yandex_exhausted Entry.yandex_next_page Entry.with_items].
    rewrite !andb_true_iff, negb_true_iff, Z.leb_le. tauto. }
  assert (Hlt : lt = true <->
                offset + Z.of_nat (length page) < Z.of_nat (length items')).
  { unfold lt, len_items. cbn [Entry.items Entry.with_items]. apply Z.ltb_lt. }
  assert (Hp : p = true <-> partial = true /\ Entry.pending_sources e1 <> ∅).
  { unfold p, has_pending. cbn [Entry.pending_sources Entry.with_items].
    rewrite andb_true_iff, negb_true_iff, bool_decide_eq_false. tauto. }
  rewrite <- Hy, <- Hlt, <- Hp.
  destruct y, lt, p; cbn; intuition congruence.
Qed.

(** The values [slow_timeout] takes in [search_products]. *)
Lemma slow_timeout_of_cases `{R : PyRuntime} (search_timeout_seconds : Z)
    (sources : option (list str)) (per_source : bool) :
  let sources_n := _normalize_sources sources in
  let single := (length sources_n =? 1)%nat in
  slow_timeout_of search_timeout_seconds sources_n per_source true
    = (if single then Z.max search_timeout_seconds 8 else 8) /\
  slow_timeout_of search_timeout_seconds sources_n true false
    = (if single then Z.max search_timeout_seconds 60 else 60) /\
  slow_timeout_of search_timeout_seconds sources_n false false
    = (if single then Z.max search_timeout_seconds 8 else 8).
Proof.
  intros sources_n single. unfold slow_timeout_of. fold single.
  destruct per_source; repeat split; reflexivity.
Qed.

Lemma slow_provider_pending :
  let run sources :=
    @search_products Basic.runtime slow_avito_env 35 0 (Entry.new (u "phone"))
      (u "phone") 0 10 (Some sources) false false in
  meta_pending_sources (sp_meta (run [u "avito.ru"; u "mvideo.ru"])) = [u "avito.ru"] /\
  meta_pending_sources (sp_meta (run [u "avito.ru"])) = [].
Proof. vm_compute. split; reflexivity. Qed.

(** [search_products] always hands [explicit_sources = True] to
    [_ensure_cached]: an omitted list is replaced by the eight default
    sources, which are more than one. *)
Lemma explicit_sources_always `{R : PyRuntime} (sources : option (list str)) :
  explicit_sources_of sources = true.
Proof. destruct sources; reflexivity. Qed.

(** With the cache already holding the whole page, a call that omits
    [sources] still asks the seven other default providers. *)
Lemma default_sources_still_fetched :
  let r := @search_products Basic.runtime silent_env 35 0
             (Entry.with_yandex_exhausted true five_item_entry)
             (u "phone") 0 2 None false false in
  length (sp_events r) = 7%nat.
Proof. vm_compute. reflexivity. Qed.

(** C6: the invariant [|seen| = |items|] is established by [reset], whatever
    the entry held before, and preserved by [_apply_provider_result] and by
    the Yandex fill loop; an item is appended only under a key not in [seen],
    which then gains exactly that key. *)
Theorem dedup_invariant `{R : PyRuntime} :
  (forall now e, dedup_inv (Entry.reset now e)) /\
  (forall e, dedup_inv e ->
     (forall tokens explicit_sources track_limits source requested_limit prev_limit res,
        dedup_inv (_apply_provider_result tokens explicit_sources track_limits
                     source requested_limit prev_limit res e)) /\
     (forall env query target per_source_limit,
        dedup_inv (fst (_fill_yandex env e query target per_source_limit)))) /\
  (forall e k item, k ∉ Entry.seen e ->
     Entry.seen (append_item k item e) = {[k]} ∪ Entry.seen e /\
     size (Entry.seen (append_item k item e)) = S (size (Entry.seen e)) /\
     length (Entry.items (append_item k item e)) = S (length (Entry.items e))).
Proof.
  split; [|split].
  - intros now e. apply reset_inv.
  - intros e He. split.
    + intros. apply apply_provider_result_inv, He.
    + intros. apply fill_yandex_inv, He.
  - intros e k item Hk. split; [reflexivity|]. split.
    + unfold append_item, Entry.with_items, Entry.with_seen. cbn [Entry.seen].
      rewrite size_union by set_solver. rewrite size_singleton. reflexivity.
    + unfold append_item, Entry.with_items, Entry.with_seen. cbn [Entry.items].
      rewrite length_app. cbn [length]. lia.
Qed.

(** An entry that was never reset can hold the invariant too. *)
Lemma five_item_entry_inv : dedup_inv five_item_entry.
Proof. vm_compute. reflexivity. Qed.

(** The whole of [search_products] keeps the invariant as well. *)
Lemma search_products_inv `{R : PyRuntime} env sts now entry query offset limit
    sources per_source partial :
  dedup_inv entry ->
  dedup_inv (sp_entry (search_products env sts now entry query offset limit
                         sources per_source partial)).
Proof.
  intros He. unfold search_products.
  set (e0 := if Entry.expires_at entry <=? now then _ else _).
  assert (H0 : dedup_inv e0) by (unfold e0; destruct (_ <=? _); [apply reset_inv | exact He]).
  match goal with
  | |- context [_ensure_cached ?a ?b ?c ?d ?e ?f ?g ?h ?i] =>
    pose proof (ensure_cached_inv a b c d e f g h i H0) as H1;
    destruct (_ensure_cached a b c d e f g h i) as [[e1 evs] late]
  end.
  cbn [fst] in H1.
  assert (H2 : dedup_inv (Entry.with_items (sort_by item_compare) e1)).
  { unfold dedup_inv in *. cbn [Entry.seen Entry.items Entry.with_items].
    rewrite sort_by_length. exact H1. }
  destruct per_source.
  - destruct (per_source_page _ _ _ _ _). exact H2.
  - destruct (global_page _ _ _ _ _). exact H2.
Qed.

(** * Further properties of the code *)

(** ** Strings and sorting *)

Lemma str_compare_eq : forall a b, str_compare a b = Eq <-> a = b.
Proof.
  induction a as [|x a IH]; intros [|y b]; simpl; split; intros H;
    try discriminate; try reflexivity.
  - destruct (Z.compare_spec x y); try discriminate.
    subst y. f_equal. apply IH, H.
  - inversion H; subst. rewrite Z.compare_refl. apply IH. reflexivity.
Qed.

Lemma str_eqb_eq a b : str_eqb a b = true <-> a = b.
Proof.
  unfold str_eqb. rewrite <- str_compare_eq.
  destruct (str_compare a b); split; intros H; congruence.
Qed.

Lemma str_eqb_neq a b : str_eqb a b = false <-> a <> b.
Proof.
  rewrite <- str_eqb_eq. destruct (str_eqb a b); split; intros H; congruence.
Qed.

Lemma str_in_In x l : str_in x l = true <-> In x l.
Proof.
  unfold str_in. rewrite existsb_exists. split.
  - intros [y [Hy E]]. apply str_eqb_eq in E. subst y. exact Hy.
  - intros H. exists x. split; [exact H | apply str_eqb_eq; reflexivity].
Qed.

Lemma insert_by_perm {A} (cmp : A -> A -> comparison) x l :
  Permutation (insert_by cmp x l) (x :: l).
Proof.
  induction l as [|y l IH]; simpl; [reflexivity|].
  destruct (cmp x y); try reflexivity.
  rewrite IH. apply perm_swap.
Qed.

(** Sorting rearranges, it neither drops nor repeats an element. *)
Lemma sort_by_perm {A} (cmp : A -> A -> comparison) (l : list A) :
  Permutation (sort_by cmp l) l.
Proof.
  induction l as [|x l IH]; simpl; [reflexivity|].
  rewrite insert_by_perm, IH. reflexivity.
Qed.

(** ** The cache only grows *)

Section Growth.
Context {R : PyRuntime}.

Lemma grows_refl e : grows_from e e.
Proof. split; [exists []; symmetry; apply app_nil_r | reflexivity]. Qed.

Lemma grows_append e0 item e :
  grows_from e0 e -> grows_from e0 (append_item (_item_key item) item e).
Proof.
  intros [[more E] Hs]. unfold append_item, Entry.with_items, Entry.with_seen.
  split; cbn [Entry.items Entry.seen].
  - exists (more ++ [item]). rewrite E, app_assoc. reflexivity.
  - set_solver.
Qed.

Lemma grows_frame e0 e e' :
  Entry.items e' = Entry.items e -> Entry.seen e' = Entry.seen e ->
  grows_from e0 e -> grows_from e0 e'.
Proof. unfold grows_from. intros -> ->. auto. Qed.

(** Whatever a provider returns, the items already cached stay where they
    are and no key is forgotten: [_apply_provider_result], the late result of
    a straggler, the Yandex filler and the whole of [_ensure_cached] only
    append to [items] and only add to [seen]. *)
Theorem cache_only_grows (e : Entry.t) :
  (forall tokens explicit_sources track_limits source requested_limit prev_limit res,
     grows_from e (_apply_provider_result tokens explicit_sources track_limits
                     source requested_limit prev_limit res e)) /\
  (forall st, grows_from e (_apply_provider_result_async st e)) /\
  (forall env query target per_source_limit,
     grows_from e (fst (_fill_yandex env e query target per_source_limit))) /\
  (forall env query target sources explicit_sources per_source_target slow_timeout
          wait_for_all,
     grows_from e (fst (fst (_ensure_cached env e query target sources explicit_sources
                               per_source_target slow_timeout wait_for_all)))).
Proof.
  split; [|split; [|split]]; intros.
  - apply (apply_provider_result_keeps (grows_from e));
      [intros; apply grows_append; assumption | apply grows_frame | apply grows_refl].
  - apply (apply_provider_result_async_keeps (grows_from e));
      [intros; apply grows_append; assumption | apply grows_frame | apply grows_refl].
  - apply (fill_yandex_keeps (grows_from e));
      [intros; apply grows_append; assumption | apply grows_frame | apply grows_refl].
  - apply (ensure_cached_keeps (grows_from e));
      [intros; apply grows_append; assumption | apply grows_frame | apply grows_refl].
Qed.

End Growth.

(** ** The Yandex filler *)

Section Filler.
Context {R : PyRuntime}.

Lemma add_page_items_fields target page : forall added cur e,
  let e' := fst (add_page_items target page added cur e) in
  same_bookkeeping e e' /\ Entry.yandex_exhausted e' = Entry.yandex_exhausted e.
Proof.
  induction page as [|raw rest IH]; intros added cur e; simpl;
    [repeat split; reflexivity|].
  destruct (decide _); [apply IH|].
  destruct (_ <=? _); [repeat split; reflexivity|].
  destruct (_ <=? _); [repeat split; reflexivity|].
  apply (IH (added + 1) (cur + 1) (append_item _ _ e)).
Qed.

Lemma add_page_items_cap target page : forall added cur e,
  len_items e < MAX_CACHE_ITEMS ->
  len_items (fst (add_page_items target page added cur e)) <= MAX_CACHE_ITEMS.
Proof.
  induction page as [|raw rest IH]; intros added cur e He; simpl; [lia|].
  destruct (decide _); [apply IH, He|].
  set (e1 := append_item _ _ e).
  assert (H1 : len_items e1 = len_items e + 1).
  { unfold e1, len_items, append_item, Entry.with_items, Entry.with_seen.
    cbn [Entry.items]. rewrite length_app. cbn [length]. lia. }
  destruct (_ <=? _); [cbn [fst]; lia|].
  destruct (Z.leb_spec MAX_CACHE_ITEMS (len_items e1)); [cbn [fst]; lia|].
  apply IH. assumption.
Qed.

Lemma fill_loop_cap env query tokens target : forall fuel e,
  len_items (fst (fill_loop env query tokens target fuel e))
  <= Z.max (len_items e) MAX_CACHE_ITEMS.
Proof.
  induction fuel as [|fuel IH]; intros e; simpl; [lia|].
  destruct (yandex_count e <? target); cbn [andb fst]; [|lia].
  destruct (Z.ltb_spec (len_items e) MAX_CACHE_ITEMS) as [Hlt|]; cbn [fst]; [|lia].
  destruct (_ <? _); [cbn [fst]; unfold len_items in *; cbn [Entry.items Entry.with_yandex_exhausted]; lia|].
  destruct (yp_no_html _); [cbn [fst]; lia|].
  set (e1 := Entry.with_yandex_next_page _ _).
  assert (H1 : len_items e1 = len_items e)
    by (unfold e1; destruct (nonempty _); reflexivity).
  destruct (yandex_page_items _ _) as [|it page]; [cbn [fst]; change (len_items e1 <= Z.max (len_items e) MAX_CACHE_ITEMS); lia|].
  pose proof (add_page_items_cap target (it :: page) 0 (yandex_count e1) e1 ltac:(lia)) as H2.
  destruct (add_page_items _ _ _ _ _) as [e2 added]. cbn [fst] in H2.
  destruct (added =? 0); [cbn [fst]; change (len_items e2 <= Z.max (len_items e) MAX_CACHE_ITEMS); lia|].
  specialize (IH e2). destruct (fill_loop _ _ _ _ _ e2). cbn [fst] in *. lia.
Qed.

Lemma pages_from_length p n : length (pages_from p n) = n.
Proof. revert p. induction n; intros p; simpl; congruence. Qed.

Lemma pages_from_In q : forall n p,
  In (EvYandexPage q) (pages_from p n) <-> p <= q < p + Z.of_nat n.
Proof.
  induction n as [|n IH]; intros p; cbn [pages_from In]; [lia|].
  rewrite IH. split.
  - intros [E|H]; [inversion E; lia | lia].
  - intros H. destruct (Z.eq_dec p q) as [->|]; [left; reflexivity | right; lia].
Qed.

Lemma fill_loop_pages env query tokens target : forall fuel e,
  let r := fill_loop env query tokens target fuel e in
  exists n,
    snd r = pages_from (Entry.yandex_next_page e) n /\
    (n = O \/ Entry.yandex_next_page e + Z.of_nat n <= YANDEX_MAX_PAGES + 1) /\
    Entry.yandex_next_page e <= Entry.yandex_next_page (fst r)
      <= Entry.yandex_next_page e + Z.of_nat n /\
    same_bookkeeping e (fst r) /\
    (Entry.yandex_exhausted e = true -> Entry.yandex_exhausted (fst r) = true).
Proof.
  assert (Hsame : forall e, same_bookkeeping e e) by (repeat split; reflexivity).
  induction fuel as [|fuel IH]; intros e; cbn [fill_loop].
  { exists O. cbn. repeat split; auto; lia. }
  destruct (_ && _); [|exists O; cbn; repeat split; auto; lia].
  destruct (Z.ltb_spec YANDEX_MAX_PAGES (Entry.yandex_next_page e)) as [|Hp].
  { exists O. cbn. repeat split; auto; lia. }
  destruct (yp_no_html _).
  { exists 1%nat. cbn. repeat split; auto; lia. }
  set (e1 := Entry.with_yandex_next_page _ _).
  assert (Hc : Entry.yandex_next_page e1 = Entry.yandex_next_page e + 1)
    by (unfold e1; destruct (nonempty _); reflexivity).
  assert (Hb : same_bookkeeping e e1)
    by (unfold e1; destruct (nonempty _); repeat split; reflexivity).
  assert (Hx : Entry.yandex_exhausted e1 = Entry.yandex_exhausted e)
    by (unfold e1; destruct (nonempty _); reflexivity).
  destruct (yandex_page_items _ _) as [|it page].
  { exists 1%nat. cbn [snd fst pages_from].
    change (Entry.yandex_next_page (Entry.with_yandex_exhausted true e1))
      with (Entry.yandex_next_page e1).
    split; [reflexivity|]. split; [right; lia|]. split; [lia|].
    split; [exact Hb | reflexivity]. }
  pose proof (add_page_items_cursor target (it :: page) 0 (yandex_count e1) e1) as Hc2.
  pose proof (add_page_items_fields target (it :: page) 0 (yandex_count e1) e1) as [Hb2 Hx2].
  destruct (add_page_items _ _ _ _ _) as [e2 added]. cbn [fst] in Hc2, Hb2, Hx2.
  assert (Hb' : same_bookkeeping e e2).
  { destruct Hb as (a1 & a2 & a3 & a4), Hb2 as (b1 & b2 & b3 & b4).
    repeat split; congruence. }
  destruct (added =? 0).
  { exists 1%nat. cbn [snd fst pages_from].
    change (Entry.yandex_next_page (Entry.with_yandex_exhausted true e2))
      with (Entry.yandex_next_page e2).
    split; [reflexivity|]. split; [right; lia|]. split; [lia|].
    split; [exact Hb' | reflexivity]. }
  destruct (IH e2) as (n & Hev & Hn & Hcur & Hbk & Hex).
  destruct (fill_loop _ _ _ _ _ e2) as [e3 evs]. cbn [fst snd] in *.
  exists (S n). cbn [pages_from]. rewrite Hev, Hc2, Hc.
  split; [reflexivity|]. split; [|split; [|split]].
  - right. destruct Hn as [->|Hn]; lia.
  - lia.
  - destruct Hb' as (a1 & a2 & a3 & a4), Hbk as (b1 & b2 & b3 & b4).
    repeat split; congruence.
  - intros H. apply Hex. congruence.
Qed.

(** [_fill_yandex] requests consecutive result pages, starting at the cursor
    of the entry and never beyond page 10; the cursor only moves forward, by
    at most the number of requests; an entry marked exhausted stays so; the
    watermarks, the pending sources, the key and the expiry are not touched. *)
Theorem fill_yandex_requests (env : Env) (e : Entry.t) (query : str) (target : Z)
    (per_source_limit : option Z) :
  let r := _fill_yandex env e query target per_source_limit in
  exists n,
    snd r = pages_from (Entry.yandex_next_page e) n /\
    (forall p, In (EvYandexPage p) (snd r) ->
       Entry.yandex_next_page e <= p <= YANDEX_MAX_PAGES) /\
    Entry.yandex_next_page e <= Entry.yandex_next_page (fst r)
      <= Entry.yandex_next_page e + Z.of_nat n /\
    same_bookkeeping e (fst r) /\
    (Entry.yandex_exhausted e = true -> Entry.yandex_exhausted (fst r) = true).
Proof.
  intros r. unfold r, _fill_yandex.
  destruct (fill_loop_pages env query (_query_tokens query)
              (match per_source_limit with Some l => l | None => target end)
              (fill_fuel e) e) as (n & Hev & Hn & Hcur & Hbk & Hex).
  exists n. split; [exact Hev|]. split; [|auto].
  intros p Hp. rewrite Hev in Hp. apply pages_from_In in Hp.
  destruct Hn as [->|Hn]; [simpl in Hp; lia | lia].
Qed.

(** [_fill_yandex] stops appending once the cache holds [MAX_CACHE_ITEMS]
    items: it never takes the cache beyond 200 items, and leaves a cache that
    already holds more at its size. *)
Theorem fill_yandex_cap (env : Env) (e : Entry.t) (query : str) (target : Z)
    (per_source_limit : option Z) :
  len_items (fst (_fill_yandex env e query target per_source_limit))
  <= Z.max (len_items e) 200.
Proof. apply fill_loop_cap. Qed.

End Filler.

(** ** What the fan-out asks for *)

Section FanOut.
Context {R : PyRuntime}.

Lemma schedule_spec e track psl : forall sources source lim prev,
  In (source, lim, prev) (schedule e track psl sources) ->
  In source sources /\ source <> YANDEX /\ (source ∉ Entry.pending_sources e) /\
  known_provider source = true /\ lim = psl /\
  (track = true -> default 0 (Entry.source_limits e !! source) < psl).
Proof.
  induction sources as [|s rest IH]; intros source lim prev H; cbn [schedule] in H;
    [contradiction|].
  assert (Hrest : In (source, lim, prev) (schedule e track psl rest) ->
                  In source (s :: rest) /\ source <> YANDEX /\
                  (source ∉ Entry.pending_sources e) /\
                  known_provider source = true /\ lim = psl /\
                  (track = true -> default 0 (Entry.source_limits e !! source) < psl)).
  { intros H'. destruct (IH _ _ _ H') as (a & b). split; [right; exact a | exact b]. }
  destruct (str_eqb s YANDEX) eqn:Ey; [auto|].
  destruct (decide (s ∈ Entry.pending_sources e)) as [|Hp]; [auto|].
  destruct (track && _) eqn:Et; [auto|].
  destruct (known_provider s) eqn:Ek; cbn [negb] in H; [|auto].
  destruct H as [E|H]; [|auto]. inversion E; subst.
  split; [left; reflexivity|]. split; [apply str_eqb_neq, Ey|].
  split; [exact Hp|]. split; [exact Ek|]. split; [reflexivity|].
  intros ->. cbn [andb] in Et. apply Z.leb_gt in Et. exact Et.
Qed.

Lemma schedule_NoDup e track psl : forall sources,
  NoDup sources ->
  NoDup (map (fun t : task => fst (fst t)) (schedule e track psl sources)).
Proof.
  induction sources as [|s rest IH]; intros Hn; cbn [schedule]; [constructor|].
  apply NoDup_cons in Hn as [Hs Hn]. specialize (IH Hn).
  destruct (str_eqb s YANDEX); [exact IH|].
  destruct (decide _); [exact IH|].
  destruct (_ && _); [exact IH|].
  destruct (negb _); [exact IH|].
  cbn [map fst]. apply NoDup_cons. split; [|exact IH].
  intros Hin. apply Hs. apply list_elem_of_In. apply list_elem_of_In in Hin.
  apply in_map_iff in Hin as [[[s' lim] prev] [E Hin]]. cbn in E. subst s'.
  apply (schedule_spec _ _ _ _ _ _ _ Hin).
Qed.

Lemma schedule_bookkeeping e e' track psl sources :
  same_bookkeeping e e' ->
  schedule e' track psl sources = schedule e track psl sources.
Proof.
  intros (_ & _ & Hl & Hp). induction sources as [|s rest IH]; cbn [schedule];
    [reflexivity|].
  rewrite IH, Hl, Hp. reflexivity.
Qed.

Lemma searched_app a b : searched (a ++ b) = searched a ++ searched b.
Proof.
  induction a as [|[p|s l] a IH]; cbn [searched app]; [reflexivity | exact IH|].
  rewrite IH. reflexivity.
Qed.

Lemma searched_pages n : forall p, searched (pages_from p n) = [].
Proof. induction n as [|n IH]; intros p; cbn [pages_from searched]; auto. Qed.

Lemma pages_from_In_search source limit n : forall p,
  ~ In (EvSearch source limit) (pages_from p n).
Proof.
  induction n as [|n IH]; intros p; cbn [pages_from In]; [tauto|].
  intros [H|H]; [discriminate | exact (IH _ H)].
Qed.

Lemma searched_tasks (tasks : list task) :
  searched (map (fun t : task => EvSearch (fst (fst t)) (snd (fst t))) tasks)
  = map (fun t : task => fst (fst t)) tasks.
Proof. induction tasks as [|t tasks IH]; cbn [map searched]; congruence. Qed.

Lemma searched_In source evs :
  In source (searched evs) <-> exists limit, In (EvSearch source limit) evs.
Proof.
  induction evs as [|[p|s l] evs IH]; cbn [searched In].
  - split; [contradiction | intros [? []]].
  - rewrite IH. split; intros [l H]; exists l; [right; exact H|].
    destruct H as [H|H]; [discriminate | exact H].
  - rewrite IH. split.
    + intros [->|[l' H]]; [exists l; left; reflexivity | exists l'; right; exact H].
    + intros [l' [H|H]]; [left; congruence | right; exists l'; exact H].
Qed.

(** The requests and the stragglers of [_ensure_cached]: page fetches first,
    then the searches of the scheduled tasks. *)
Lemma ensure_cached_events env e query target sources ex pst slow wait :
  let r := _ensure_cached env e query target sources ex pst slow wait in
  let track := negb ex || match pst with Some _ => true | None => false end in
  exists n tasks,
    snd (fst r) = pages_from (Entry.yandex_next_page e) n
                  ++ map (fun t : task => EvSearch (fst (fst t)) (snd (fst t))) tasks /\
    (n <> O -> str_in YANDEX sources = true /\ Entry.yandex_exhausted e = false /\
               Entry.yandex_next_page e + Z.of_nat n <= YANDEX_MAX_PAGES + 1) /\
    (tasks = [] \/
     exists e1 psl, same_bookkeeping e e1 /\
       per_source_limit_of e1 target sources ex pst = Some psl /\ 0 < psl /\
       tasks = schedule e track psl sources) /\
    (forall st, In st (snd r) -> exists t, In t tasks /\ st_source st = fst (fst t)).
Proof.
  intros r track. unfold r, _ensure_cached.
  assert (Hnone : forall e0 : Entry.t,
    exists n tasks,
      @nil event = pages_from (Entry.yandex_next_page e) n
                   ++ map (fun t : task => EvSearch (fst (fst t)) (snd (fst t))) tasks /\
      (n <> O -> str_in YANDEX sources = true /\ Entry.yandex_exhausted e = false /\
                 Entry.yandex_next_page e + Z.of_nat n <= YANDEX_MAX_PAGES + 1) /\
      (tasks = [] \/
       exists e1 psl, same_bookkeeping e e1 /\
         per_source_limit_of e1 target sources ex pst = Some psl /\ 0 < psl /\
         tasks = schedule e track psl sources) /\
      (forall st, In st (@nil straggler) -> exists t, In t tasks /\ st_source st = fst (fst t))).
  { intros _. exists O, []. cbn. repeat split; auto; try contradiction. }
  destruct (cache_is_enough e target ex); [apply (Hnone e)|].
  set (filled := if _ && _ then _ else _).
  assert (Hf : exists n,
    snd filled = pages_from (Entry.yandex_next_page e) n /\
    (n <> O -> str_in YANDEX sources = true /\ Entry.yandex_exhausted e = false /\
               Entry.yandex_next_page e + Z.of_nat n <= YANDEX_MAX_PAGES + 1) /\
    same_bookkeeping e (fst filled)).
  { unfold filled. destruct (str_in YANDEX sources) eqn:Ey; cbn [andb].
    - destruct (Entry.yandex_exhausted e) eqn:Ex; cbn [negb].
      + exists O. cbn. repeat split; auto; congruence.
      + destruct (fill_loop_pages env query (_query_tokens query)
                    (match pst with Some l => l | None => target end)
                    (fill_fuel e) e) as (n & Hev & Hn & _ & Hbk & _).
        exists n. split; [exact Hev|]. split; [|exact Hbk].
        intros Hne. split; [reflexivity|]. split; [reflexivity|].
        destruct Hn; [contradiction | assumption].
    - exists O. cbn. repeat split; auto; congruence. }
  destruct Hf as (n & Hev & Hn & Hbk).
  destruct filled as [e1 evs]. cbn [fst snd] in Hev, Hbk. subst evs.
  assert (Hpages : forall e0 : Entry.t, exists n' tasks,
    pages_from (Entry.yandex_next_page e) n
      = pages_from (Entry.yandex_next_page e) n'
        ++ map (fun t : task => EvSearch (fst (fst t)) (snd (fst t))) tasks /\
    (n' <> O -> str_in YANDEX sources = true /\ Entry.yandex_exhausted e = false /\
                Entry.yandex_next_page e + Z.of_nat n' <= YANDEX_MAX_PAGES + 1) /\
    (tasks = [] \/
     exists e1 psl, same_bookkeeping e e1 /\
       per_source_limit_of e1 target sources ex pst = Some psl /\ 0 < psl /\
       tasks = schedule e track psl sources) /\
    (forall st, In st (@nil straggler) -> exists t, In t tasks /\ st_source st = fst (fst t))).
  { intros _. exists n, []. cbn [map]. rewrite app_nil_r.
    repeat split; auto; try contradiction; apply Hn; assumption. }
  destruct (cache_is_enough e1 target ex); [apply (Hpages e1)|].
  destruct (per_source_limit_of e1 target sources ex pst) as [psl|] eqn:Epsl;
    [|apply (Hpages e1)].
  destruct (Z.leb_spec psl 0) as [|Hpos]; [apply (Hpages e1)|].
  fold track. rewrite (schedule_bookkeeping e e1 track psl sources Hbk).
  destruct (schedule e track psl sources) as [|t tasks] eqn:Es; [apply (Hpages e1)|].
  exists n, (t :: tasks).
  assert (Htasks : t :: tasks = [] \/
     exists e1 psl0, same_bookkeeping e e1 /\
       per_source_limit_of e1 target sources ex pst = Some psl0 /\ 0 < psl0 /\
       t :: tasks = schedule e track psl0 sources).
  { right. exists e1, psl. auto. }
  destruct wait; cbn [fst snd].
  - split; [reflexivity|]. split; [exact Hn|]. split; [exact Htasks|].
    intros st [].
  - split; [reflexivity|]. split; [exact Hn|]. split; [exact Htasks|].
    intros st Hst. apply in_map_iff in Hst as [t' [E Hin]].
    apply filter_In in Hin as [Hin _]. exists t'. split; [exact Hin|].
    subst st. reflexivity.
Qed.

(** [_ensure_cached] fetches Yandex pages only when ["market.yandex.ru"] is
    among the sources and the entry is not exhausted, and then only pages
    from the cursor up to page 10.  The fan-out asks only sources of the
    request other than Yandex that have a provider and no task pending, each
    for a positive number of items (the whole page size [per_source_target]
    when that is given); where limits are tracked, a source is asked only for
    more than its watermark.  Distinct sources are asked once each, and every
    task left running belongs to a source asked in this call. *)
Theorem ensure_cached_requests (env : Env) (e : Entry.t) (query : str) (target : Z)
    (sources : list str) (explicit_sources : bool) (per_source_target : option Z)
    (slow_timeout : Z) (wait_for_all : bool) :
  let r := _ensure_cached env e query target sources explicit_sources
             per_source_target slow_timeout wait_for_all in
  let evs := snd (fst r) in
  (forall p, In (EvYandexPage p) evs ->
     In YANDEX sources /\ Entry.yandex_exhausted e = false /\
     Entry.yandex_next_page e <= p <= YANDEX_MAX_PAGES) /\
  (forall source limit, In (EvSearch source limit) evs ->
     In source sources /\ source <> YANDEX /\ known_provider source = true /\
     (source ∉ Entry.pending_sources e) /\ 0 < limit /\
     (explicit_sources = true ->
      forall t, per_source_target = Some t -> limit = t) /\
     (explicit_sources = false \/ per_source_target <> None ->
      default 0 (Entry.source_limits e !! source) < limit)) /\
  (NoDup sources -> NoDup (searched evs)) /\
  (forall st, In st (snd r) -> In (st_source st) (searched evs)).
Proof.
  intros r evs. unfold evs, r.
  destruct (ensure_cached_events env e query target sources explicit_sources
              per_source_target slow_timeout wait_for_all)
    as (n & tasks & Hev & Hn & Htasks & Hlate).
  cbv zeta in Hev, Hlate. rewrite Hev. clear Hev.
  split; [|split; [|split]].
  - intros p Hp. apply in_app_iff in Hp as [Hp|Hp].
    + assert (Hne : n <> O) by (intros ->; contradiction).
      destruct (Hn Hne) as (Hy & Hx & Hb).
      apply pages_from_In in Hp. apply str_in_In in Hy. repeat split; auto; lia.
    + apply in_map_iff in Hp as [t [E _]]. discriminate.
  - intros source limit Hs. apply in_app_iff in Hs as [Hs|Hs].
    { apply pages_from_In_search in Hs. contradiction. }
    apply in_map_iff in Hs as [[[s lim] prev] [E Hin]]. cbn in E.
    inversion E; subst s lim. clear E.
    destruct Htasks as [->|(e1 & psl & Hbk & Epsl & Hpos & ->)]; [contradiction|].
    destruct (schedule_spec _ _ _ _ _ _ _ Hin) as (H1 & H2 & H3 & H4 & H5 & H6).
    subst limit. repeat split; auto.
    + intros -> t ->. unfold per_source_limit_of in Epsl. cbn [negb andb] in Epsl.
      destruct (List.filter _ sources); [discriminate|]. congruence.
    + intros Ht. apply H6. destruct Ht as [->|Ht]; [reflexivity|].
      destruct per_source_target; [apply orb_true_r | contradiction].
  - intros Hnd. rewrite searched_app, searched_pages, searched_tasks. cbn [app].
    destruct Htasks as [->|(e1 & psl & _ & _ & _ & ->)]; [constructor|].
    apply schedule_NoDup, Hnd.
  - intros st Hst. destruct (Hlate st Hst) as (t & Hin & E).
    rewrite searched_app, searched_pages, searched_tasks. cbn [app].
    rewrite E. apply (in_map (fun t : task => fst (fst t))). exact Hin.
Qed.

End FanOut.

(** ** Pending sources *)

Section Pending.
Context {R : PyRuntime}.

Lemma apply_items_pending tokens res : forall e,
  Entry.pending_sources (apply_items tokens res e) = Entry.pending_sources e.
Proof.
  induction res as [|raw rest IH]; intros e; cbn [apply_items]; [reflexivity|].
  destruct (match tokens with [] => false | _ => _ end); [apply IH|].
  destruct (decide _); [apply IH|]. rewrite IH. reflexivity.
Qed.

Lemma apply_provider_result_pending tokens ex tr source req prev res e :
  Entry.pending_sources (_apply_provider_result tokens ex tr source req prev res e)
  = Entry.pending_sources e.
Proof.
  destruct res; cbn [_apply_provider_result]; [reflexivity | destruct tr; reflexivity|].
  rewrite apply_items_pending. destruct (_ || _); reflexivity.
Qed.

Lemma fold_tasks_pending env query tokens ex tr res_of tasks : forall e,
  Entry.pending_sources
    (fold_left (fun e t => apply_task env query tokens ex tr res_of t e) tasks e)
  = Entry.pending_sources e.
Proof.
  induction tasks as [|[[s l] p] tasks IH]; intros e; cbn [fold_left]; [reflexivity|].
  rewrite IH. apply apply_provider_result_pending.
Qed.

(** After [_ensure_cached] the pending sources are those of the tasks left
    running, unless no task was started, in which case they are as before. *)
Lemma ensure_cached_pending env e query target sources ex pst slow wait :
  let r := _ensure_cached env e query target sources ex pst slow wait in
  (snd r = [] /\ Entry.pending_sources (fst (fst r)) = Entry.pending_sources e) \/
  Entry.pending_sources (fst (fst r)) = list_to_set (map st_source (snd r)).
Proof.
  intros r. unfold r, _ensure_cached.
  destruct (cache_is_enough e target ex); [left; split; reflexivity|].
  set (filled := if _ && _ then _ else _).
  assert (Hf : Entry.pending_sources (fst filled) = Entry.pending_sources e).
  { unfold filled. destruct (_ && _); [|reflexivity].
    destruct (fill_loop_pages env query (_query_tokens query)
                (match pst with Some l => l | None => target end) (fill_fuel e) e)
      as (n & _ & _ & _ & Hbk & _).
    apply Hbk. }
  destruct filled as [e1 evs]. cbn [fst] in Hf.
  destruct (cache_is_enough e1 target ex); [left; split; [reflexivity | exact Hf]|].
  destruct (per_source_limit_of _ _ _ _ _) as [psl|];
    [|left; split; [reflexivity | exact Hf]].
  destruct (psl <=? 0); [left; split; [reflexivity | exact Hf]|].
  destruct (schedule _ _ _ _) as [|t tasks]; [left; split; [reflexivity | exact Hf]|].
  right. destruct wait; cbn [fst snd].
  - rewrite fold_tasks_pending. reflexivity.
  - rewrite fold_tasks_pending. cbn [Entry.pending_sources Entry.with_pending_sources].
    rewrite map_map. reflexivity.
Qed.

Lemma async_pending st e :
  Entry.pending_sources (_apply_provider_result_async st e)
  = Entry.pending_sources e ∖ {[st_source st]}.
Proof.
  unfold _apply_provider_result_async.
  cbn [Entry.pending_sources Entry.with_pending_sources].
  rewrite apply_provider_result_pending. reflexivity.
Qed.

Lemma fold_async_pending late : forall e,
  Entry.pending_sources (fold_left (fun e st => _apply_provider_result_async st e) late e)
  = Entry.pending_sources e ∖ list_to_set (map st_source late).
Proof.
  induction late as [|st late IH]; intros e; cbn [fold_left map list_to_set].
  - symmetry. apply difference_empty_L.
  - rewrite IH, async_pending. apply difference_difference_l_L.
Qed.

(** When [_ensure_cached] leaves tasks running, [pending_sources] is exactly
    the set of their sources; each late result removes its source, and once
    all of them have been applied, in whatever order, no source is pending.
    When it leaves none running, [pending_sources] is empty or as it was
    before the call. *)
Theorem stragglers_clear_pending (env : Env) (e : Entry.t) (query : str) (target : Z)
    (sources : list str) (explicit_sources : bool) (per_source_target : option Z)
    (slow_timeout : Z) (wait_for_all : bool) :
  let r := _ensure_cached env e query target sources explicit_sources
             per_source_target slow_timeout wait_for_all in
  let e' := fst (fst r) in
  let late := snd r in
  (late <> [] ->
   Entry.pending_sources e' = list_to_set (map st_source late) /\
   forall order, Permutation late order ->
     Entry.pending_sources
       (fold_left (fun e st => _apply_provider_result_async st e) order e') = ∅) /\
  (late = [] ->
   Entry.pending_sources e' = ∅ \/ Entry.pending_sources e' = Entry.pending_sources e) /\
  (forall st e0, Entry.pending_sources (_apply_provider_result_async st e0)
                 = Entry.pending_sources e0 ∖ {[st_source st]}).
Proof.
  intros r e' late.
  pose proof (ensure_cached_pending env e query target sources explicit_sources
                per_source_target slow_timeout wait_for_all) as H.
  cbv zeta in H. fold r in H. fold e' in H. fold late in H.
  split; [|split].
  - intros Hne. destruct H as [[Hl _]|H]; [contradiction|].
    split; [exact H|]. intros order Hperm. rewrite fold_async_pending, H.
    assert (Hin : forall x, x ∈ map st_source late -> x ∈ map st_source order).
    { intros x. rewrite !list_elem_of_In. apply Permutation_in.
      apply Permutation_map, Hperm. }
    apply set_eq. intros x. rewrite elem_of_difference, !elem_of_list_to_set.
    split; [intros [Hx Hnx]; exfalso; auto | intros Hx; apply elem_of_empty in Hx; contradiction].
  - intros Hl. destruct H as [[_ H]|H]; [right; exact H|].
    left. rewrite H, Hl. reflexivity.
  - intros st e0. apply async_pending.
Qed.

End Pending.

(** ** The normalised source list *)

Section Sources.
Context {R : PyRuntime}.

Lemma dedupe_In : forall l seen x,
  In x (dedupe seen l) <-> In x l /\ ~ In x seen.
Proof.
  induction l as [|s l IH]; intros seen x; cbn [dedupe In]; [tauto|].
  destruct (str_in s seen) eqn:Es.
  - apply str_in_In in Es. rewrite IH. split; [tauto|].
    intros [[->|H] Hn]; [contradiction | auto].
  - assert (Hs : ~ In s seen) by (rewrite <- str_in_In; congruence).
    cbn [In]. rewrite IH. cbn [In]. split.
    + intros [->|[H Hn]]; [auto | tauto].
    + intros [[->|H] Hn]; [auto|].
      destruct (decide (s = x)) as [->|Hne]; [auto|]. right. tauto.
Qed.

Lemma dedupe_NoDup : forall l seen, NoDup (dedupe seen l).
Proof.
  induction l as [|s l IH]; intros seen; cbn [dedupe]; [constructor|].
  destruct (str_in s seen); [apply IH|].
  apply NoDup_cons. split; [|apply IH].
  rewrite list_elem_of_In, dedupe_In. cbn [In]. tauto.
Qed.

Lemma default_sources_NoDup : NoDup default_sources.
Proof.
  assert (H : dedupe [] default_sources = default_sources) by (vm_compute; reflexivity).
  rewrite <- H. apply dedupe_NoDup.
Qed.

Lemma normalize_sources_NoDup sources : NoDup (_normalize_sources sources).
Proof.
  unfold _normalize_sources. destruct sources as [[|s l]|];
    try apply default_sources_NoDup.
  destruct (dedupe _ _) eqn:E; [apply default_sources_NoDup|].
  rewrite <- E. apply dedupe_NoDup.
Qed.

Lemma normalize_sources_nonempty sources : _normalize_sources sources <> [].
Proof.
  unfold _normalize_sources. destruct sources as [[|s l]|]; try discriminate.
  destruct (dedupe _ _); discriminate.
Qed.

(** [_normalize_sources] never returns an empty list and never a source
    twice.  With [cleaned] the stripped and lower-cased entries of the request
    that are not empty, it returns the defaults when there is none, and
    otherwise exactly the entries of [cleaned], each once, in the order of
    their first occurrence. *)
Theorem normalize_sources_shape (sources : option (list str)) :
  let out := _normalize_sources sources in
  let cleaned :=
    match sources with
    | Some l => List.filter nonempty (map (fun s => lower (strip s)) l)
    | None => []
    end in
  out <> [] /\ NoDup out /\
  (cleaned = [] -> out = default_sources) /\
  (cleaned <> [] ->
   out = dedupe [] cleaned /\ forall s, In s out <-> In s cleaned).
Proof.
  intros out cleaned.
  split; [apply normalize_sources_nonempty|].
  split; [apply normalize_sources_NoDup|].
  unfold out, cleaned, _normalize_sources.
  destruct sources as [[|s l]|]; split; try reflexivity; try contradiction.
  - intros ->. reflexivity.
  - intros Hne.
    destruct (List.filter nonempty _) as [|c cs] eqn:Ec; [contradiction|].
    assert (Hd : dedupe [] (c :: cs) = c :: dedupe [c] cs) by reflexivity.
    rewrite Hd. split; [reflexivity|].
    intros x. rewrite <- Hd, dedupe_In. cbn [In]. tauto.
Qed.

End Sources.

(** ** Pages *)

Lemma slice_length_le {A} (l : list A) (a b : Z) :
  0 <= a -> a <= b -> (length (slice l a b) <= Z.to_nat (b - a))%nat.
Proof.
  intros Ha Hb. unfold slice, clamp_index.
  destruct (Z.ltb_spec a 0); [lia|]. destruct (Z.ltb_spec b 0); [lia|].
  rewrite length_firstn. lia.
Qed.

Lemma slice_incl {A} (l : list A) (a b : Z) x : In x (slice l a b) -> In x l.
Proof.
  unfold slice. intros H.
  rewrite <- (firstn_skipn (Z.to_nat (clamp_index (Z.of_nat (length l)) a)) l).
  apply in_or_app. right.
  rewrite <- (firstn_skipn (Z.to_nat (clamp_index (Z.of_nat (length l)) b
                                      - clamp_index (Z.of_nat (length l)) a))
                (skipn _ l)).
  apply in_or_app. left. exact H.
Qed.

Lemma NoDup_map_app_l {A B} (f : A -> B) (l k : list A) :
  NoDup (map f (l ++ k)) -> NoDup (map f l).
Proof. rewrite map_app. intros H. apply NoDup_app in H. apply H. Qed.

Lemma NoDup_map_app_r {A B} (f : A -> B) (l k : list A) :
  NoDup (map f (l ++ k)) -> NoDup (map f k).
Proof. rewrite map_app. intros H. apply NoDup_app in H. apply H. Qed.

(** A slice of a list without repeated keys has no repeated key. *)
Lemma NoDup_map_slice {A B} (f : A -> B) (l : list A) (a b : Z) :
  NoDup (map f l) -> NoDup (map f (slice l a b)).
Proof.
  intros H. unfold slice.
  rewrite <- (firstn_skipn (Z.to_nat (clamp_index (Z.of_nat (length l)) a)) l) in H.
  apply NoDup_map_app_r in H.
  rewrite <- (firstn_skipn (Z.to_nat (clamp_index (Z.of_nat (length l)) b
                                      - clamp_index (Z.of_nat (length l)) a))
                (skipn _ l)) in H.
  apply NoDup_map_app_l in H. exact H.
Qed.

Lemma NoDup_map_filter {A B} (f : A -> B) (p : A -> bool) (l : list A) :
  NoDup (map f l) -> NoDup (map f (List.filter p l)).
Proof.
  induction l as [|x l IH]; cbn [map List.filter]; [auto|].
  intros H. apply NoDup_cons in H as [Hx Hl].
  destruct (p x); [|auto]. cbn [map]. apply NoDup_cons. split; [|auto].
  intros Hin. apply Hx. rewrite list_elem_of_In in *.
  apply in_map_iff in Hin as [y [E Hy]]. apply filter_In in Hy as [Hy _].
  rewrite <- E. apply in_map, Hy.
Qed.

(** Two elements of a list without repeated keys that have the same key are
    the same element. *)
Lemma NoDup_map_In_inj {A B} (f : A -> B) (l : list A) x y :
  NoDup (map f l) -> In x l -> In y l -> f x = f y -> x = y.
Proof.
  induction l as [|z l IH]; cbn [map In]; [contradiction|].
  intros H Hx Hy E. apply NoDup_cons in H as [Hz Hl].
  rewrite list_elem_of_In in Hz.
  destruct Hx as [->|Hx], Hy as [->|Hy]; auto.
  - exfalso. apply Hz. rewrite E. apply in_map, Hy.
  - exfalso. apply Hz. rewrite <- E. apply in_map, Hx.
Qed.

Section Pages.
Context {R : PyRuntime}.

(** The items of [source] in the cache, as [search_products] groups them. *)
Lemma group_In (items : list SearchItem) src x :
  In x (List.filter (fun it => str_eqb (Item.source it) src) items) <->
  In x items /\ Item.source x = src.
Proof. rewrite filter_In, str_eqb_eq. reflexivity. Qed.

Lemma per_source_chunks_NoDup (items : list SearchItem) offset limit :
  NoDup (map _item_key items) ->
  forall sources, NoDup sources ->
  NoDup (map _item_key
           (flat_map (fun src =>
                        slice (List.filter (fun it => str_eqb (Item.source it) src) items)
                              offset (offset + limit)) sources)).
Proof.
  intros Hk. induction sources as [|s rest IH]; intros Hn; cbn [flat_map map];
    [constructor|].
  apply NoDup_cons in Hn as [Hs Hn]. rewrite map_app. apply NoDup_app.
  split; [apply NoDup_map_slice, NoDup_map_filter, Hk|]. split; [|apply IH, Hn].
  intros k Hk1 Hk2. rewrite list_elem_of_In in Hk1, Hk2.
  apply in_map_iff in Hk1 as [x [Ex Hx]]. apply in_map_iff in Hk2 as [y [Ey Hy]].
  apply slice_incl, group_In in Hx as [Hx Hsx].
  apply in_flat_map in Hy as [s' [Hs' Hy]].
  apply slice_incl, group_In in Hy as [Hy Hsy].
  assert (E : x = y) by (apply (NoDup_map_In_inj _item_key items); congruence).
  apply Hs. rewrite list_elem_of_In. congruence.
Qed.

Lemma per_source_chunks_length (items : list SearchItem) offset limit :
  0 <= offset -> 0 <= limit ->
  forall sources,
  Z.of_nat (length (flat_map (fun src =>
                        slice (List.filter (fun it => str_eqb (Item.source it) src) items)
                              offset (offset + limit)) sources))
  <= limit * Z.of_nat (length sources).
Proof.
  intros Ho Hl. induction sources as [|s rest IH]; cbn [flat_map length]; [lia|].
  rewrite length_app.
  pose proof (slice_length_le
                (List.filter (fun it => str_eqb (Item.source it) s) items)
                offset (offset + limit) Ho ltac:(lia)) as H.
  replace (offset + limit - offset) with limit in H by lia. lia.
Qed.

(** What a page is made of satisfies whatever the cached items satisfy. *)
Lemma pages_Forall (Q : SearchItem -> Prop) e sources_n offset limit partial :
  Forall Q (Entry.items e) ->
  Forall Q (fst (global_page e sources_n offset limit partial)) /\
  Forall Q (fst (per_source_page e sources_n offset limit partial)).
Proof.
  intros H. rewrite List.Forall_forall in H. split; cbn [fst global_page per_source_page].
  - apply List.Forall_forall. intros x Hx. apply H. exact (slice_incl _ _ _ _ Hx).
  - apply List.Forall_forall. intros x Hx.
    apply (Permutation_in _ (sort_by_perm item_compare _)) in Hx.
    apply in_flat_map in Hx as [s [_ Hx]]. apply slice_incl, group_In in Hx as [Hx _].
    apply H, Hx.
Qed.

(** The parts of the result of [search_products] in terms of the call of
    [_ensure_cached] it makes. *)
Lemma search_products_parts env sts now entry query offset limit sources
    (per_source partial : bool) :
  let sources_n := _normalize_sources sources in
  let e0 := if Entry.expires_at entry <=? now then Entry.reset now entry else entry in
  let c := _ensure_cached env e0 query
             (if per_source
              then Z.min ((offset + limit) * Z.of_nat (length sources_n)) MAX_CACHE_ITEMS
              else Z.min (offset + limit) MAX_CACHE_ITEMS)
             sources_n (explicit_sources_of sources)
             (if per_source then Some (offset + limit) else None)
             (slow_timeout_of sts sources_n per_source partial)
             (per_source && negb partial) in
  let e2 := Entry.with_items (sort_by item_compare) (fst (fst c)) in
  let pending := sort_by str_compare (elements (Entry.pending_sources e2)) in
  let r := search_products env sts now entry query offset limit sources per_source partial in
  sp_entry r = e2 /\ sp_events r = snd (fst c) /\ sp_late r = snd c /\
  sp_page r = fst (if per_source then per_source_page e2 sources_n offset limit partial
                   else global_page e2 sources_n offset limit partial) /\
  total_sources (sp_meta r) = Z.of_nat (length sources_n) /\
  meta_pending_sources (sp_meta r) = pending /\
  checked_sources (sp_meta r)
  = Z.max 0 (Z.of_nat (length sources_n) - Z.of_nat (length pending)) /\
  sp_has_more r = snd (if per_source then per_source_page e2 sources_n offset limit partial
                       else global_page e2 sources_n offset limit partial).
Proof.
  intros sources_n e0 c e2 pending r. unfold r, search_products.
  fold sources_n. fold e0. fold c. unfold e2, pending.
  destruct c as [[e1 evs] late]. cbn [fst snd].
  destruct per_source.
  - destruct (per_source_page _ _ _ _ _) eqn:E. repeat split; reflexivity.
  - destruct (global_page _ _ _ _ _) eqn:E. repeat split; reflexivity.
Qed.

End Pages.

(** ** The result of [search_products] *)

Section SearchProducts.
Context {R : PyRuntime}.

Lemma ensure_cached_pending_subset env e query target sources ex pst slow wait :
  Entry.pending_sources e ⊆ list_to_set sources ->
  Entry.pending_sources
    (fst (fst (_ensure_cached env e query target sources ex pst slow wait)))
  ⊆ list_to_set sources.
Proof.
  intros He.
  destruct (ensure_cached_pending env e query target sources ex pst slow wait)
    as [[_ ->] | ->]; [exact He|].
  destruct (ensure_cached_events env e query target sources ex pst slow wait)
    as (n & tasks & _ & _ & Htasks & Hlate).
  intros x Hx. apply elem_of_list_to_set in Hx. apply elem_of_list_to_set.
  rewrite list_elem_of_In in *. apply in_map_iff in Hx as [st [E Hst]].
  destruct (Hlate st Hst) as ([[s l] p] & Hin & Es). cbn [fst] in Es.
  destruct Htasks as [->|(e1 & psl & _ & _ & _ & ->)]; [contradiction|].
  apply schedule_spec in Hin. rewrite <- E, Es. apply Hin.
Qed.

(** The counters of the answer add up.  On an entry whose pending sources
    are among the sources of the request (true of a new entry, and kept by
    every call), [search_products] leaves the pending sources among the
    sources of the request, and reports [total_sources], the number of
    normalised sources (at least one), [pending_sources], the sorted list
    without repetition of the sources still pending, and [checked_sources],
    so that [checked_sources + len(pending_sources) = total_sources]. *)
Theorem search_products_meta (env : Env) (sts now : Z) (entry : Entry.t) (query : str)
    (offset limit : Z) (sources : option (list str)) (per_source partial : bool) :
  let sources_n := _normalize_sources sources in
  let r := search_products env sts now entry query offset limit sources per_source partial in
  let m := sp_meta r in
  Entry.pending_sources entry ⊆ list_to_set sources_n ->
  Entry.pending_sources (sp_entry r) ⊆ list_to_set sources_n /\
  total_sources m = Z.of_nat (length sources_n) /\ 1 <= total_sources m /\
  0 <= checked_sources m /\
  checked_sources m + Z.of_nat (length (meta_pending_sources m)) = total_sources m /\
  (forall s, In s (meta_pending_sources m) <-> s ∈ Entry.pending_sources (sp_entry r)) /\
  NoDup (meta_pending_sources m) /\
  Sorted (le_by str_compare) (meta_pending_sources m).
Proof.
  intros sources_n r m Hp.
  destruct (search_products_parts env sts now entry query offset limit sources
              per_source partial) as (He & _ & _ & _ & Ht & Hm & Hc & _).
  fold r in He, Ht, Hm, Hc. fold m in Ht, Hm, Hc. fold sources_n in He, Ht, Hm, Hc.
  cbv zeta in He, Hm, Hc.
  set (e0 := if Entry.expires_at entry <=? now then Entry.reset now entry else entry) in *.
  assert (H0 : Entry.pending_sources e0 ⊆ list_to_set sources_n).
  { unfold e0. destruct (_ <=? _); [apply empty_subseteq | exact Hp]. }
  match type of He with
  | _ = Entry.with_items _ (fst (fst ?c)) => set (call := c) in *
  end.
  assert (H1 : Entry.pending_sources (sp_entry r) ⊆ list_to_set sources_n).
  { rewrite He. cbn [Entry.pending_sources Entry.with_items].
    apply ensure_cached_pending_subset, H0. }
  assert (Hpend : meta_pending_sources m
                  = sort_by str_compare (elements (Entry.pending_sources (sp_entry r))))
    by (rewrite Hm, He; reflexivity).
  assert (Hlen : length (meta_pending_sources m) = size (Entry.pending_sources (sp_entry r))).
  { rewrite Hpend, sort_by_length. reflexivity. }
  assert (Hsize : (size (Entry.pending_sources (sp_entry r)) <= length sources_n)%nat).
  { rewrite <- (size_list_to_set (C := gset str) sources_n)
      by apply normalize_sources_NoDup.
    apply subseteq_size, H1. }
  pose proof (normalize_sources_nonempty sources) as Hne. fold sources_n in Hne.
  assert (Hpos : (1 <= length sources_n)%nat)
    by (destruct sources_n; [contradiction | simpl; lia]).
  split; [exact H1|]. split; [exact Ht|]. split; [lia|].
  assert (Hc' : checked_sources m
                = Z.max 0 (Z.of_nat (length sources_n)
                           - Z.of_nat (length (meta_pending_sources m))))
    by (rewrite Hc, Hm; reflexivity).
  split; [lia|]. split; [lia|]. split; [|split].
  - intros s. rewrite Hpend. rewrite <- elem_of_elements, list_elem_of_In.
    split; apply Permutation_in; [|symmetry]; apply sort_by_perm.
  - rewrite Hpend, sort_by_perm. apply NoDup_elements.
  - rewrite Hpend. apply sort_by_sorted.
    intros x y H. rewrite str_compare_antisym, H. discriminate.
Qed.

End SearchProducts.

Lemma search_products_meta_witness :
  let r := @search_products Basic.runtime slow_avito_env 35 0 (Entry.new (u "phone"))
             (u "phone") 0 10 (Some [u "avito.ru"; u "mvideo.ru"]) false true in
  Entry.pending_sources (Entry.new (u "phone"))
    ⊆ list_to_set (@_normalize_sources Basic.runtime (Some [u "avito.ru"; u "mvideo.ru"])) /\
  checked_sources (sp_meta r) + Z.of_nat (length (meta_pending_sources (sp_meta r)))
  = total_sources (sp_meta r).
Proof.
  intros r.
  assert (H : Entry.pending_sources (Entry.new (u "phone"))
              ⊆ list_to_set (@_normalize_sources Basic.runtime
                               (Some [u "avito.ru"; u "mvideo.ru"])))
    by apply empty_subseteq.
  split; [exact H|].
  exact (proj1 (proj2 (proj2 (proj2 (proj2
    (@search_products_meta Basic.runtime slow_avito_env 35 0 (Entry.new (u "phone"))
       (u "phone") 0 10 (Some [u "avito.ru"; u "mvideo.ru"]) false true H)))))).
Defined.

(** *** No offer twice *)

Lemma keys_sorted (e : Entry.t) :
  keys_inv e -> keys_inv (Entry.with_items (sort_by item_compare) e).
Proof.
  unfold keys_inv. cbn [Entry.seen Entry.items Entry.with_items].
  intros [Hs Hn].
  assert (Hp : Permutation (map _item_key (sort_by item_compare (Entry.items e)))
                           (map _item_key (Entry.items e)))
    by apply Permutation_map, sort_by_perm.
  split; [rewrite Hs; symmetry; apply list_to_set_perm_L, Hp | rewrite Hp; exact Hn].
Qed.

(** No offer twice.  On an entry in which [seen] is the set of the keys
    [source|id] of the cached items and no two cached items have the same key
    (true of a new entry), [search_products] leaves such an entry, and the
    page it returns, in either pagination mode, is made of cached items and
    holds no two items with the same key. *)
Theorem search_products_distinct `{R : PyRuntime} (env : Env) (sts now : Z)
    (entry : Entry.t) (query : str) (offset limit : Z) (sources : option (list str))
    (per_source partial : bool) :
  let r := search_products env sts now entry query offset limit sources per_source partial in
  keys_inv entry ->
  keys_inv (sp_entry r) /\
  NoDup (map _item_key (sp_page r)) /\
  (forall it, In it (sp_page r) -> In it (Entry.items (sp_entry r))).
Proof.
  intros r Hk.
  destruct (search_products_parts env sts now entry query offset limit sources
              per_source partial) as (He & _ & _ & Hp & _).
  fold r in He, Hp. cbv zeta in He, Hp.
  set (e0 := if Entry.expires_at entry <=? now then Entry.reset now entry else entry) in *.
  assert (H0 : keys_inv e0) by (unfold e0; destruct (_ <=? _); [apply keys_reset | exact Hk]).
  match type of He with
  | _ = Entry.with_items _ (fst (fst ?c)) => set (call := c) in *
  end.
  assert (H1 : keys_inv (fst (fst call))).
  { revert H0. apply ensure_cached_keeps; [exact keys_append | exact keys_frame]. }
  apply keys_sorted in H1. rewrite <- He in H1.
  split; [exact H1|]. rewrite Hp, <- He. destruct H1 as [_ Hn]. split.
  - destruct per_source; cbn [fst per_source_page global_page].
    + rewrite (Permutation_map _item_key (sort_by_perm item_compare _)).
      apply per_source_chunks_NoDup; [exact Hn | apply normalize_sources_NoDup].
    + apply NoDup_map_slice, Hn.
  - apply List.Forall_forall.
    destruct (pages_Forall (fun it => In it (Entry.items (sp_entry r))) (sp_entry r)
                (_normalize_sources sources) offset limit partial) as [Hg Hs];
      [apply List.Forall_forall; auto|].
    destruct per_source; assumption.
Qed.

Lemma five_item_entry_keys : keys_inv five_item_entry.
Proof.
  split; [reflexivity|].
  apply (bool_decide_unpack (NoDup (map _item_key (Entry.items five_item_entry)))).
  vm_compute. reflexivity.
Qed.

Lemma search_products_distinct_witness :
  let r := @search_products Basic.runtime silent_env 35 0 five_item_entry
             (u "phone") 0 2 (Some [u "avito.ru"]) true false in
  keys_inv five_item_entry /\
  NoDup (map _item_key (sp_page r)).
Proof.
  intros r. split; [exact five_item_entry_keys|].
  exact (proj1 (proj2
    (@search_products_distinct Basic.runtime silent_env 35 0 five_item_entry
       (u "phone") 0 2 (Some [u "avito.ru"]) true false five_item_entry_keys))).
Defined.

(** *** The size and the order of a page *)

Lemma filter_length_perm {A} (p : A -> bool) (l l' : list A) :
  Permutation l l' -> length (List.filter p l) = length (List.filter p l').
Proof.
  induction 1 as [|x l l' _ IH|x y l|l l' l'' _ IH1 _ IH2]; cbn [List.filter].
  - reflexivity.
  - destruct (p x); cbn [length]; congruence.
  - destruct (p x), (p y); reflexivity.
  - congruence.
Qed.

Lemma filter_none {A} (p : A -> bool) (l : list A) :
  (forall x, In x l -> p x = false) -> List.filter p l = [].
Proof.
  induction l as [|x l IH]; intros H; cbn [List.filter]; [reflexivity|].
  rewrite (H x) by (left; reflexivity). apply IH. intros y Hy. apply H. right. exact Hy.
Qed.

Lemma filter_length_le {A} (p : A -> bool) (l : list A) :
  (length (List.filter p l) <= length l)%nat.
Proof.
  induction l as [|x l IH]; cbn [List.filter length]; [lia|].
  destruct (p x); cbn [length]; lia.
Qed.

Lemma Sorted_skipn {A} (le : A -> A -> Prop) n : forall l,
  Sorted le l -> Sorted le (skipn n l).
Proof.
  induction n as [|n IH]; intros l H; [exact H|].
  destruct l as [|x l]; [constructor|]. cbn [skipn]. apply IH.
  inversion H; assumption.
Qed.

Lemma Sorted_firstn {A} (le : A -> A -> Prop) n : forall l,
  Sorted le l -> Sorted le (firstn n l).
Proof.
  induction n as [|n IH]; intros l H; [constructor|].
  destruct l as [|x l]; [constructor|]. cbn [firstn].
  inversion H as [|? ? Hs Hh]; subst. constructor; [apply IH, Hs|].
  destruct n; [constructor|]. destruct l as [|y l]; [constructor|].
  cbn [firstn]. inversion Hh; subst. constructor. assumption.
Qed.

Lemma Sorted_slice {A} (le : A -> A -> Prop) (l : list A) a b :
  Sorted le l -> Sorted le (slice l a b).
Proof. intros H. unfold slice. apply Sorted_firstn, Sorted_skipn, H. Qed.

Section PageSize.
Context {R : PyRuntime}.
Variables (items : list SearchItem) (offset limit : Z).
Hypothesis offset_nonneg : 0 <= offset.
Hypothesis limit_nonneg : 0 <= limit.

Local Abbreviation chunk := (source_chunk items offset limit).

Lemma chunk_length src : Z.of_nat (length (chunk src)) <= limit.
Proof.
  pose proof (slice_length_le
                (List.filter (fun it => str_eqb (Item.source it) src) items)
                offset (offset + limit) offset_nonneg ltac:(lia)) as H.
  replace (offset + limit - offset) with limit in H by lia.
  apply Nat2Z.inj_le in H. rewrite Z2Nat.id in H by exact limit_nonneg. exact H.
Qed.

Lemma chunk_source src it : In it (chunk src) -> Item.source it = src.
Proof. intros H. unfold source_chunk in H. apply slice_incl, group_In in H. apply H. Qed.

Lemma chunks_of_source src : forall sources,
  NoDup sources ->
  Z.of_nat (length (List.filter (fun it => str_eqb (Item.source it) src)
                      (flat_map chunk sources))) <= limit.
Proof.
  induction sources as [|s rest IH]; intros Hn; cbn [flat_map List.filter length]; [lia|].
  apply NoDup_cons in Hn as [Hs Hn]. rewrite List.filter_app, length_app.
  destruct (decide (s = src)) as [->|Hne].
  - rewrite (filter_none _ (flat_map chunk rest)).
    + cbn [length]. rewrite Nat.add_0_r.
      eapply Z.le_trans; [apply inj_le, filter_length_le | apply chunk_length].
    + intros it Hit. apply in_flat_map in Hit as [s' [Hs' Hit]].
      apply chunk_source in Hit. apply str_eqb_neq. intros E. apply Hs.
      rewrite list_elem_of_In. congruence.
  - rewrite (filter_none _ (chunk s)).
    + cbn [length Nat.add]. apply IH, Hn.
    + intros it Hit. apply chunk_source in Hit. apply str_eqb_neq. congruence.
Qed.

End PageSize.

(** The size and the order of a page.  For an offset and a limit that are
    not negative, the page of the global mode holds at most [limit] items; the
    page of the per-source mode holds at most [limit] items of any one source,
    only items of the requested sources, and so at most [limit] times the
    number of sources.  In both modes the page is ordered by
    [(price or 1_000_000_000, source, id)]. *)
Theorem search_products_page_size `{R : PyRuntime} (env : Env) (sts now : Z)
    (entry : Entry.t) (query : str) (offset limit : Z) (sources : option (list str))
    (per_source partial : bool) :
  let sources_n := _normalize_sources sources in
  let page := sp_page (search_products env sts now entry query offset limit sources
                         per_source partial) in
  0 <= offset -> 0 <= limit ->
  (per_source = false -> Z.of_nat (length page) <= limit) /\
  (per_source = true ->
   (forall src,
      Z.of_nat (length (List.filter (fun it => str_eqb (Item.source it) src) page))
      <= limit) /\
   (forall it, In it page -> In (Item.source it) sources_n) /\
   Z.of_nat (length page) <= limit * Z.of_nat (length sources_n)) /\
  Sorted (le_by item_compare) page.
Proof.
  intros sources_n page Ho Hl.
  destruct (search_products_parts env sts now entry query offset limit sources
              per_source partial) as (He & _ & _ & Hp & _).
  cbv zeta in He, Hp. fold page in Hp. fold sources_n in Hp.
  match type of Hp with
  | context [per_source_page ?e _ _ _ _] => set (e2 := e) in *
  end.
  assert (Hsorted : Sorted (le_by item_compare) (Entry.items e2))
    by (apply sort_by_sorted, item_compare_total).
  split; [|split].
  - intros ->. rewrite Hp. cbn [fst global_page].
    pose proof (slice_length_le (Entry.items e2) offset (offset + limit) Ho ltac:(lia)) as H.
    replace (offset + limit - offset) with limit in H by lia. lia.
  - intros ->. rewrite Hp. cbn [fst per_source_page]. split; [|split].
    + intros src. rewrite (filter_length_perm _ _ _ (sort_by_perm item_compare _)).
      apply chunks_of_source; [exact Ho | exact Hl | apply normalize_sources_NoDup].
    + intros it Hit. apply (Permutation_in _ (sort_by_perm item_compare _)) in Hit.
      apply in_flat_map in Hit as [s [Hs Hit]].
      apply slice_incl, group_In in Hit as [_ ->]. exact Hs.
    + rewrite sort_by_length. apply per_source_chunks_length; assumption.
  - rewrite Hp. destruct per_source; cbn [fst per_source_page global_page].
    + apply sort_by_sorted, item_compare_total.
    + apply Sorted_slice, Hsorted.
Qed.

Lemma search_products_page_size_witness :
  let page := sp_page (@search_products Basic.runtime silent_env 35 0 five_item_entry
                         (u "phone") 2 2 (Some [u "avito.ru"]) false false) in
  0 <= 2 /\ Z.of_nat (length page) <= 2 /\ Sorted (le_by item_compare) page.
Proof.
  intros page.
  pose proof (@search_products_page_size Basic.runtime silent_env 35 0 five_item_entry
                (u "phone") 2 2 (Some [u "avito.ru"]) false false
                ltac:(lia) ltac:(lia)) as (Hg & _ & Hs).
  split; [lia|]. split; [exact (Hg eq_refl) | exact Hs].
Defined.

(** *** The lifetime of an entry *)

Section Lifetime.
Context {R : PyRuntime}.

Lemma apply_items_expiry tokens res : forall e,
  Entry.key (apply_items tokens res e) = Entry.key e /\
  Entry.expires_at (apply_items tokens res e) = Entry.expires_at e.
Proof.
  induction res as [|raw rest IH]; intros e; cbn [apply_items]; [split; reflexivity|].
  destruct (match tokens with [] => false | _ => _ end); [apply IH|].
  destruct (decide _); [apply IH|].
  destruct (IH (append_item (_item_key (normalize_item
              (if str_eqb (Item.source raw) (u "aliexpress.ru")
               then _clean_ali_title else _clean_title) raw))
              (normalize_item
              (if str_eqb (Item.source raw) (u "aliexpress.ru")
               then _clean_ali_title else _clean_title) raw) e)) as [-> ->].
  split; reflexivity.
Qed.

Lemma apply_provider_result_expiry tokens ex tr source req prev res e :
  let e' := _apply_provider_result tokens ex tr source req prev res e in
  Entry.key e' = Entry.key e /\ Entry.expires_at e' = Entry.expires_at e.
Proof.
  destruct res; cbn [_apply_provider_result];
    [split; reflexivity | destruct tr; split; reflexivity|].
  cbv zeta. destruct (_ || _).
  - destruct (apply_items_expiry tokens res (set_limit source (Z.max prev req) e))
      as [-> ->]. split; reflexivity.
  - apply apply_items_expiry.
Qed.

Lemma fold_tasks_expiry env query tokens ex tr res_of tasks : forall e,
  let e' := fold_left (fun e t => apply_task env query tokens ex tr res_of t e) tasks e in
  Entry.key e' = Entry.key e /\ Entry.expires_at e' = Entry.expires_at e.
Proof.
  induction tasks as [|[[s l] p] tasks IH]; intros e; cbn [fold_left];
    [split; reflexivity|].
  cbv zeta in *. destruct (IH (apply_task env query tokens ex tr res_of (s, l, p) e))
    as [-> ->].
  apply apply_provider_result_expiry.
Qed.

Lemma ensure_cached_expiry env e query target sources ex pst slow wait :
  let e' := fst (fst (_ensure_cached env e query target sources ex pst slow wait)) in
  Entry.key e' = Entry.key e /\ Entry.expires_at e' = Entry.expires_at e.
Proof.
  cbv zeta. unfold _ensure_cached.
  destruct (cache_is_enough e target ex); [split; reflexivity|].
  set (filled := if _ && _ then _ else _).
  assert (Hf : Entry.key (fst filled) = Entry.key e /\
               Entry.expires_at (fst filled) = Entry.expires_at e).
  { unfold filled. destruct (_ && _); [|split; reflexivity].
    destruct (fill_loop_pages env query (_query_tokens query)
                (match pst with Some l => l | None => target end) (fill_fuel e) e)
      as (n & _ & _ & _ & (Hk & Hx & _) & _).
    split; assumption. }
  destruct filled as [e1 evs]. cbn [fst] in Hf.
  destruct (cache_is_enough e1 target ex); [exact Hf|].
  destruct (per_source_limit_of _ _ _ _ _) as [psl|]; [|exact Hf].
  destruct (psl <=? 0); [exact Hf|].
  destruct (schedule _ _ _ _) as [|t tasks]; [exact Hf|].
  destruct Hf as [Hk Hx].
  destruct wait; cbn [fst];
    match goal with
    | |- context [fold_left (fun e t => apply_task ?a ?b ?c ?d ?f ?g t e) ?l ?e0] =>
      destruct (fold_tasks_expiry a b c d f g l e0) as [-> ->]
    end; split; assumption.
Qed.

End Lifetime.

(** The lifetime of an entry; [now] is the one reading of the clock the call
    takes, under the lock and before any fetch.  A search never prolongs an
    entry that is live at that reading: its expiry is left as it is, and
    everything cached, items and keys, is still there after the call.  An
    entry that has expired at that reading is emptied first and expires ten
    minutes after the reading, and the answer is the one an empty entry gives.
    Either way the key is unchanged and the expiry the call leaves lies after
    the reading.  The fetches come after the reading and take their time, so
    this tells nothing about the clock at the moment the call returns. *)
Theorem search_products_lifetime `{R : PyRuntime} (env : Env) (sts now : Z)
    (entry : Entry.t) (query : str) (offset limit : Z) (sources : option (list str))
    (per_source partial : bool) :
  let run e := search_products env sts now e query offset limit sources per_source partial in
  let e' := sp_entry (run entry) in
  Entry.key e' = Entry.key entry /\
  now < Entry.expires_at e' /\
  (now < Entry.expires_at entry ->
   Entry.expires_at e' = Entry.expires_at entry /\
   (forall it, In it (Entry.items entry) -> In it (Entry.items e')) /\
   Entry.seen entry ⊆ Entry.seen e') /\
  (Entry.expires_at entry <= now ->
   Entry.expires_at e' = now + CACHE_TTL_SECONDS /\
   run entry = run (Entry.reset now entry)).
Proof.
  intros run e'.
  destruct (search_products_parts env sts now entry query offset limit sources
              per_source partial) as (He & _).
  cbv zeta in He. fold (run entry) in He. fold e' in He.
  set (e0 := if Entry.expires_at entry <=? now then Entry.reset now entry else entry) in *.
  match type of He with
  | _ = Entry.with_items _ (fst (fst (_ensure_cached ?a ?b ?c ?d ?f ?g ?h ?i ?j))) =>
    destruct (ensure_cached_expiry a b c d f g h i j) as [Hk Hx];
    pose proof (ensure_cached_keeps (grows_from e0)
                  ltac:(intros; apply grows_append; assumption)
                  (grows_frame e0) a b c d f g h i j (grows_refl e0)) as Hg;
    set (call := _ensure_cached a b c d f g h i j) in *
  end.
  assert (Hk' : Entry.key e' = Entry.key e0) by (rewrite He; exact Hk).
  assert (Hx' : Entry.expires_at e' = Entry.expires_at e0) by (rewrite He; exact Hx).
  split; [|split; [|split]].
  - rewrite Hk'. unfold e0. destruct (_ <=? _); reflexivity.
  - rewrite Hx'. unfold e0. destruct (Z.leb_spec (Entry.expires_at entry) now);
      cbn [Entry.expires_at Entry.reset]; unfold CACHE_TTL_SECONDS; lia.
  - intros Hlive.
    assert (E0 : e0 = entry)
      by (unfold e0; destruct (Z.leb_spec (Entry.expires_at entry) now); [lia | reflexivity]).
    rewrite E0 in *. split; [exact Hx'|]. destruct Hg as [[more Hm] Hs]. split.
    + intros it Hit. rewrite He. cbn [Entry.items Entry.with_items].
      apply (Permutation_in _ (Permutation_sym (sort_by_perm item_compare _))).
      rewrite Hm. apply in_or_app. left. exact Hit.
    + rewrite He. exact Hs.
  - intros Hdead.
    assert (E0 : e0 = Entry.reset now entry)
      by (unfold e0; destruct (Z.leb_spec (Entry.expires_at entry) now); [reflexivity | lia]).
    split; [rewrite Hx', E0; reflexivity|].
    unfold run, search_products.
    destruct (Z.leb_spec (Entry.expires_at entry) now) as [_|]; [|lia].
    destruct (Z.leb_spec (Entry.expires_at (Entry.reset now entry)) now) as [Hr|_];
      [|reflexivity].
    cbn [Entry.expires_at Entry.reset] in Hr. unfold CACHE_TTL_SECONDS in Hr. lia.
Qed.

(** ** What is cached is normalised *)

Lemma normalize_price_bounds `{R : PyRuntime} (x : pyval) :
  _normalize_price x = 0 \/ 1 <= _normalize_price x <= 1000000.
Proof.
  unfold _normalize_price. destruct x; try (left; reflexivity);
    match goal with
    | |- context [if (?v <=? 0) || (1000000 <? ?v) then _ else _] =>
      destruct (Z.leb_spec v 0), (Z.ltb_spec 1000000 v); simpl; lia
    end.
Qed.

Section AllowedTitles.
Context {R : PyRuntime}.

Lemma matches_of_in (P : char -> Prop) (l : list (char + mobj)) :
  Forall (token_in P) l -> Forall (mobj_in P) (matches_of l).
Proof.
  induction 1 as [|t l Ht _ IH]; cbn [matches_of]; [constructor|].
  destruct t; [exact IH | constructor; assumption].
Qed.

(** The strings [re.findall] returns are made of characters of the input. *)
Lemma findall_Forall (P : char -> Prop) ic r s :
  Forall P s -> Forall (Forall P) (findall ic r s).
Proof.
  intros Hs. unfold findall, finditer. apply Forall_map.
  assert (H : Forall (mobj_in P) (matches_of (scan ic r O [] s)))
    by (apply matches_of_in, scan_in; [constructor | exact Hs]).
  revert H. apply List.Forall_impl. intros m [Hm _]. exact Hm.
Qed.

Lemma clean_title_allowed text : Forall allowed (_clean_title text).
Proof.
  unfold _clean_title, limit_title.
  pose proof (clean_title_body_allowed text) as Hb.
  destruct (_ <? _)%nat; [|exact Hb].
  apply rsplit1_head_Forall, slice_Forall, Hb.
Qed.

Lemma clean_ali_title_allowed text : Forall allowed (_clean_ali_title text).
Proof.
  unfold _clean_ali_title.
  pose proof (clean_title_allowed text) as Ht.
  pose proof (findall_Forall allowed true mem_rx _ Ht) as Hm.
  assert (Hsp : tpl_in allowed (tlits [32]))
    by (apply tlits_in, allowed_forallb; reflexivity).
  assert (Hstep : forall t, Forall allowed t ->
            Forall allowed
              (sub false (Seq (Chr (CLit 40)) (Plus space)) (tlits (u "("))
                 (sub false (Seq (Plus space) (Chr (CLit 40))) (tlits (u " ("))
                    (strip (sub false (Plus space) (tlits [32]) t))))).
  { intros t H.
    apply sub_Forall; [|apply tlits_in, allowed_forallb; reflexivity].
    apply sub_Forall; [|apply tlits_in, allowed_forallb; reflexivity].
    apply strip_with_Forall, sub_Forall; assumption. }
  destruct (findall true mem_rx (_clean_title text)) as [|first [|second rest]];
    try (apply Hstep, Ht).
  apply Hstep.
  assert (Hf : Forall allowed first) by (inversion Hm; assumption).
  set (t2 := sub false (Plus space) (tlits [32]) (strip (sub true mem_rx [] _))).
  assert (H2 : Forall allowed t2).
  { unfold t2. apply sub_Forall; [|exact Hsp].
    apply strip_with_Forall, sub_Forall; [exact Ht | constructor]. }
  apply strip_with_Forall, sub_Forall; [|exact Hsp].
  destruct (contains _ t2).
  - apply sub_Forall; [exact H2|]. apply tlits_in.
    apply Forall_app. split; [apply allowed_forallb; reflexivity|].
    apply Forall_app. split; [exact Hf | apply allowed_forallb; reflexivity].
  - apply strip_with_Forall. apply Forall_app. split; [exact H2|].
    apply Forall_app. split; [apply allowed_forallb; reflexivity | exact Hf].
Qed.

End AllowedTitles.

(** What every function that changes an entry keeps, for a property [Q] of
    the items that holds of every item as the orchestrator normalises it. *)
Section Normalised.
Context {R : PyRuntime}.
Variable Q : SearchItem -> Prop.
Hypothesis Q_norm : forall clean raw,
  clean = _clean_title \/ clean = _clean_ali_title -> Q (normalize_item clean raw).

Local Abbreviation all_Q := (fun e : Entry.t => Forall Q (Entry.items e)).

Lemma append_item_all k item e : all_Q e -> Q item -> all_Q (append_item k item e).
Proof.
  intros He Hi. unfold append_item, Entry.with_items, Entry.with_seen.
  cbn [Entry.items]. apply Forall_app. split; [exact He | repeat constructor; exact Hi].
Qed.

Lemma apply_items_all tokens res : forall e, all_Q e -> all_Q (apply_items tokens res e).
Proof.
  induction res as [|raw rest IH]; intros e He; cbn [apply_items]; [exact He|].
  destruct (match tokens with [] => false | _ => _ end); [apply IH, He|].
  destruct (decide _); [apply IH, He|].
  apply IH, append_item_all; [exact He|].
  apply Q_norm. destruct (str_eqb _ _); auto.
Qed.

Lemma apply_provider_result_all tokens ex tr source req prev res e :
  all_Q e -> all_Q (_apply_provider_result tokens ex tr source req prev res e).
Proof.
  intros He. destruct res; cbn [_apply_provider_result]; [exact He | destruct tr; exact He|].
  apply apply_items_all. destruct (_ || _); exact He.
Qed.

Lemma async_all st e : all_Q e -> all_Q (_apply_provider_result_async st e).
Proof. intros He. apply (apply_provider_result_all _ _ _ _ _ _ _ e He). Qed.

Lemma add_page_items_all target page : forall added cur e,
  all_Q e -> all_Q (fst (add_page_items target page added cur e)).
Proof.
  induction page as [|raw rest IH]; intros added cur e He; cbn [add_page_items];
    [exact He|].
  cbv zeta. destruct (decide _); [apply IH, He|].
  assert (He' : all_Q (append_item (_item_key (normalize_item _clean_title raw))
                         (normalize_item _clean_title raw) e))
    by (apply append_item_all; [exact He | apply Q_norm; auto]).
  destruct (_ <=? _); [exact He'|].
  destruct (_ <=? _); [exact He'|].
  apply IH, He'.
Qed.

Lemma fill_loop_all env query tokens target : forall fuel e,
  all_Q e -> all_Q (fst (fill_loop env query tokens target fuel e)).
Proof.
  induction fuel as [|fuel IH]; intros e He; cbn [fill_loop]; [exact He|].
  destruct (_ && _); [|exact He].
  destruct (_ <? _); [exact He|].
  destruct (yp_no_html _); [exact He|].
  set (e1 := Entry.with_yandex_next_page _ _).
  assert (He1 : all_Q e1) by (unfold e1; destruct (nonempty _); exact He).
  destruct (yandex_page_items _ _) as [|it page]; [exact He1|].
  pose proof (add_page_items_all target (it :: page) 0 (yandex_count e1) e1 He1) as H2.
  destruct (add_page_items _ _ _ _ _) as [e2 added]. cbn [fst] in H2.
  destruct (added =? 0); [exact H2|].
  specialize (IH e2 H2). destruct (fill_loop _ _ _ _ _ e2). exact IH.
Qed.

Lemma fold_tasks_all env query tokens ex tr res_of tasks : forall e,
  all_Q e ->
  all_Q (fold_left (fun e t => apply_task env query tokens ex tr res_of t e) tasks e).
Proof.
  induction tasks as [|[[s l] p] tasks IH]; intros e He; cbn [fold_left]; [exact He|].
  apply IH. apply (apply_provider_result_all _ _ _ _ _ _ _ e He).
Qed.

Lemma ensure_cached_all env e query target sources ex pst slow wait :
  all_Q e ->
  all_Q (fst (fst (_ensure_cached env e query target sources ex pst slow wait))).
Proof.
  intros He. unfold _ensure_cached.
  destruct (cache_is_enough e target ex); [exact He|].
  set (filled := if _ && _ then _ else _).
  assert (H1 : all_Q (fst filled)).
  { unfold filled. destruct (_ && _); [apply fill_loop_all, He | exact He]. }
  destruct filled as [e1 evs]. cbn [fst] in H1.
  destruct (cache_is_enough e1 target ex); [exact H1|].
  destruct (per_source_limit_of _ _ _ _ _) as [psl|]; [|exact H1].
  destruct (psl <=? 0); [exact H1|].
  destruct (schedule _ _ _ _) as [|t tasks]; [exact H1|].
  destruct wait; cbn [fst]; apply fold_tasks_all; exact H1.
Qed.

Lemma search_products_all env sts now entry query offset limit sources per_source partial :
  let r := search_products env sts now entry query offset limit sources per_source partial in
  all_Q entry -> all_Q (sp_entry r) /\ Forall Q (sp_page r).
Proof.
  intros r He.
  destruct (search_products_parts env sts now entry query offset limit sources
              per_source partial) as (E & _ & _ & Hp & _).
  fold r in E, Hp. cbv zeta in E, Hp.
  set (e0 := if Entry.expires_at entry <=? now then Entry.reset now entry else entry) in *.
  assert (H0 : all_Q e0) by (unfold e0; destruct (_ <=? _); [constructor | exact He]).
  match type of E with
  | _ = Entry.with_items _ (fst (fst (_ensure_cached ?a ?b ?c ?d ?f ?g ?h ?i ?j))) =>
    pose proof (ensure_cached_all a b c d f g h i j H0) as H1;
    set (call := _ensure_cached a b c d f g h i j) in *
  end.
  assert (H2 : all_Q (sp_entry r)).
  { rewrite E. cbn [Entry.items Entry.with_items].
    revert H1. apply Permutation_Forall. symmetry. apply sort_by_perm. }
  split; [exact H2|]. rewrite Hp, <- E.
  destruct (pages_Forall Q (sp_entry r) (_normalize_sources sources) offset limit partial H2).
  destruct per_source; assumption.
Qed.

End Normalised.

Lemma dict_get_cases {A} (d : list (str * A)) k dflt :
  dict_get d k dflt = dflt \/ In (dict_get d k dflt) (map snd d).
Proof.
  induction d as [|[k' v] d IH]; cbn [dict_get map snd In]; [left; reflexivity|].
  destruct (str_eqb k' k); [right; left; reflexivity|].
  destruct IH as [E|H]; [left; exact E | right; right; exact H].
Qed.

(** A source that has a name is displayed under a name. *)
Lemma display_merchant_name_nonempty `{R : PyRuntime} source :
  source <> [] -> _display_merchant_name source <> [].
Proof.
  intros Hs. unfold _display_merchant_name.
  destruct (dict_get_cases _DISPLAY_MERCHANT_NAMES source source) as [->|H]; [exact Hs|].
  assert (Hall : forallb nonempty (map snd _DISPLAY_MERCHANT_NAMES) = true)
    by (vm_compute; reflexivity).
  rewrite forallb_forall in Hall. specialize (Hall _ H).
  destruct (dict_get _ _ _); [discriminate Hall | discriminate].
Qed.

Lemma normalize_item_well_formed `{R : PyRuntime} clean raw :
  clean = _clean_title \/ clean = _clean_ali_title ->
  well_formed (normalize_item clean raw).
Proof.
  intros Hc. split; [|split];
    cbn [normalize_item Item.price Item.title Item.source Item.merchant_name].
  - apply normalize_price_bounds.
  - destruct Hc as [->| ->]; [apply clean_title_allowed | apply clean_ali_title_allowed].
  - intros Hs. destruct (nonempty (Item.merchant_name raw)) eqn:En; cbn [negb orb].
    + destruct (str_eqb _ _); [apply display_merchant_name_nonempty, Hs|].
      destruct (Item.merchant_name raw); [discriminate En | discriminate].
    + apply display_merchant_name_nonempty, Hs.
Qed.

(** What is cached is normalised.  Every item the orchestrator appends to
    the cache has a price that is 0 or lies in [1, 1_000_000], a title
    without U+00A0 or any invisible character, and a merchant name that is not
    empty unless the source is.  So when the cached items of an entry are of
    that form (as in a new entry), they still are after a late result has been
    applied and after [search_products], and so is every item of the page
    returned. *)
Theorem cached_items_normalised `{R : PyRuntime} (env : Env) (sts now : Z)
    (entry : Entry.t) (query : str) (offset limit : Z) (sources : option (list str))
    (per_source partial : bool) :
  let r := search_products env sts now entry query offset limit sources per_source partial in
  Forall well_formed (Entry.items entry) ->
  Forall well_formed (Entry.items (sp_entry r)) /\
  Forall well_formed (sp_page r) /\
  (forall st, Forall well_formed (Entry.items (_apply_provider_result_async st entry))).
Proof.
  intros r He.
  destruct (search_products_all well_formed (@normalize_item_well_formed R)
              env sts now entry query offset limit sources per_source partial He)
    as [H1 H2].
  split; [exact H1|]. split; [exact H2|].
  intros st. apply async_all; [apply normalize_item_well_formed | exact He].
Qed.

Lemma five_items_well_formed : Forall well_formed (Entry.items five_item_entry).
Proof.
  assert (H : forall id p, p = 0 \/ 1 <= p <= 1000000 -> well_formed (avito_item id p)).
  { intros id p Hp. split; [exact Hp|].
    split; [apply allowed_forallb; vm_compute; reflexivity | discriminate]. }
  unfold five_item_entry, five_items. cbn [Entry.items].
  repeat (constructor; [apply H; lia|]). constructor.
Qed.

Lemma cached_items_normalised_witness :
  let r := @search_products Basic.runtime silent_env 35 0 five_item_entry
             (u "phone") 0 2 (Some [u "avito.ru"]) false false in
  Forall well_formed (Entry.items five_item_entry) /\
  Forall well_formed (Entry.items (sp_entry r)) /\
  Forall well_formed (sp_page r).
Proof.
  intros r. split; [exact five_items_well_formed|].
  destruct (@cached_items_normalised Basic.runtime silent_env 35 0 five_item_entry
              (u "phone") 0 2 (Some [u "avito.ru"]) false false five_items_well_formed)
    as (H1 & H2 & _).
  split; [exact H1 | exact H2].
Defined.

(** ** How far a match reaches *)

Section MatcherReach.
Context {R : PyRuntime}.

Lemma moved_refl s : moved s s.
Proof. split; lia. Qed.

Lemma moved_trans s1 s2 s3 : moved s1 s2 -> moved s2 s3 -> moved s1 s3.
Proof. unfold moved. lia. Qed.

(** A successful match hands to its continuation a state further along the
    input, by no more than the width of the pattern. *)
Lemma rmatch_reaches ic r : forall k s res,
  rmatch ic r k s = Some res ->
  exists s', k s' = Some res /\ moved s s' /\
    forall n, width r = Some n -> (length (before s') <= length (before s) + n)%nat.
Proof.
  induction r; cbn [rmatch width]; intros k s res Hm.
  - exists s. split; [exact Hm|]. split; [apply moved_refl|]. intros; lia.
  - destruct (after s) as [|ch rest] eqn:E; [discriminate|].
    destruct (cls_match ic c ch); [|discriminate].
    eexists. split; [exact Hm|]. unfold moved. cbn [before after length].
    rewrite E. cbn [length]. split; [lia|]. intros n Hn. inversion Hn. lia.
  - apply IHr1 in Hm as (s1 & Hm & H1 & W1).
    apply IHr2 in Hm as (s2 & Hm & H2 & W2).
    exists s2. split; [exact Hm|]. split; [eapply moved_trans; eassumption|].
    intros n Hn. destruct (width r1) as [x|]; [|discriminate].
    destruct (width r2) as [y|]; [|discriminate]. inversion Hn.
    specialize (W1 x eq_refl). specialize (W2 y eq_refl). lia.
  - destruct (rmatch ic r1 k s) eqn:E1.
    + inversion Hm; subst. apply IHr1 in E1 as (s1 & Hk & H1 & W1).
      exists s1. split; [exact Hk|]. split; [exact H1|].
      intros n Hn. destruct (width r1) as [x|]; [|discriminate].
      destruct (width r2) as [y|]; [|discriminate]. inversion Hn.
      specialize (W1 x eq_refl). lia.
    + apply IHr2 in Hm as (s1 & Hk & H1 & W1).
      exists s1. split; [exact Hk|]. split; [exact H1|].
      intros n Hn. destruct (width r1) as [x|]; [|discriminate].
      destruct (width r2) as [y|]; [|discriminate]. inversion Hn.
      specialize (W1 y eq_refl). lia.
  - assert (H : exists s', k s' = Some res /\ moved s s').
    { revert res Hm. generalize (length (after s)). intros n. revert s.
      induction n as [|n IHn]; intros s res Hm.
      - exists s. split; [exact Hm | apply moved_refl].
      - match type of Hm with
        | match ?x with _ => _ end = _ => destruct x eqn:E1
        end.
        + inversion Hm; subst. apply IHr in E1 as (s1 & Hk & H1 & _).
          destruct (length (after s1) <? length (after s))%nat; [|discriminate].
          apply IHn in Hk as (s2 & Hk & H2).
          exists s2. split; [exact Hk | eapply moved_trans; eassumption].
        + exists s. split; [exact Hm | apply moved_refl]. }
    destruct H as (s' & Hk & Hmv). exists s'. split; [exact Hk|].
    split; [exact Hmv | discriminate].
  - apply IHr in Hm as (s1 & Hk & H1 & W1).
    exists (close_group n s s1). split; [exact Hk|]. split; [exact H1 | exact W1].
  - destruct (before s) eqn:E; [|discriminate].
    exists s. split; [exact Hm|]. split; [apply moved_refl|].
    intros; rewrite ?E; cbn [length]; lia.
  - destruct (at_end _); [|discriminate].
    exists s. split; [exact Hm|]. split; [apply moved_refl|]. intros; lia.
  - destruct (at_boundary s); [|discriminate].
    exists s. split; [exact Hm|]. split; [apply moved_refl|]. intros; lia.
  - destruct (head_is _ _); [discriminate|].
    exists s. split; [exact Hm|]. split; [apply moved_refl|]. intros; lia.
  - destruct (head_is _ _); [discriminate|].
    exists s. split; [exact Hm|]. split; [apply moved_refl|]. intros; lia.
Qed.

(** A star never fails when what follows it cannot fail. *)
Lemma rmatch_star_total ic a k s :
  (forall s', k s' <> None) -> rmatch ic (Star a) k s <> None.
Proof.
  intros Hk. cbn [rmatch]. generalize (length (after s)). intros n. revert s.
  induction n as [|n IHn]; intros s; [apply Hk|].
  match goal with
  | |- match ?x with _ => _ end <> _ => destruct x
  end; [discriminate | apply Hk].
Qed.

(** Every match object of a scan comes from an attempt at some position. *)
Lemma scan_matches (Q : mobj -> Prop) ic r :
  (forall ma bef aft s', try_at ic r ma bef aft = Some s' -> Q (mk_match bef aft s')) ->
  forall aft skip bef, Forall Q (matches_of (scan ic r skip bef aft)).
Proof.
  intros HQ. induction aft as [|c rest IH]; intros skip bef; cbn [scan].
  - destruct skip; [|constructor].
    destruct (try_at ic r false bef []) eqn:E; [|constructor].
    cbn [matches_of]. constructor; [eapply HQ, E | constructor].
  - destruct skip; [|apply IH].
    destruct (try_at ic r false bef (c :: rest)) eqn:E; [|apply IH].
    destruct (consumed (c :: rest) m).
    + cbn [matches_of]. constructor; [eapply HQ, E|].
      destruct (try_at ic r true bef (c :: rest)) eqn:E2; [|apply IH].
      cbn [matches_of]. constructor; [eapply HQ, E2 | apply IH].
    + cbn [matches_of]. constructor; [eapply HQ, E | apply IH].
Qed.

Lemma search_matches (Q : mobj -> Prop) ic r t m :
  (forall ma bef aft s', try_at ic r ma bef aft = Some s' -> Q (mk_match bef aft s')) ->
  search ic r t = Some m -> Q m.
Proof.
  intros HQ. unfold search, finditer.
  pose proof (scan_matches Q ic r HQ t O []) as H.
  destruct (matches_of _) as [|m' ms]; [discriminate|].
  intros E. inversion E; subst. inversion H; assumption.
Qed.

(** The text of group [n] in a match of [... (a) ...] where [(a)] is
    followed by assertions only has at most [width a] characters. *)
Lemma group_width ic (pre a post : regex) (n w : nat) ma bef aft s' :
  width a = Some w ->
  (forall k s res, rmatch ic post k s = Some res -> k s = Some res) ->
  try_at ic (Seq pre (Seq (Group (S n) a) post)) ma bef aft = Some s' ->
  (length (group (mk_match bef aft s') (S n)) <= w)%nat.
Proof.
  intros Hw Hpost. unfold try_at. cbn [rmatch]. intros Hm.
  apply rmatch_reaches in Hm as (s1 & Hm & _ & _).
  apply rmatch_reaches in Hm as (s2 & Hm & [Hle _] & W).
  specialize (W w Hw). apply Hpost in Hm.
  assert (E : s' = close_group (S n) s1 s2)
    by (destruct (_ && _); [discriminate | congruence]).
  subst s'. cbn [group mk_match m_caps close_group caps lookup_cap].
  rewrite Nat.eqb_refl, length_rev, length_firstn. lia.
Qed.

End MatcherReach.

(** ** The range of the extracted prices *)

Section PriceRange.
Context {R : PyRuntime}.

(** The values of the decimal digits are 0 to 9. *)
Hypothesis decimal_range : forall c d, decimal c = Some d -> 0 <= d <= 9.

Lemma int_digits_bound : forall s acc v,
  0 <= acc -> int_digits acc s = Some v ->
  0 <= v < (acc + 1) * 10 ^ Z.of_nat (length s).
Proof.
  induction s as [|c s IH]; intros acc v Ha H; cbn [int_digits] in H.
  - inversion H; subst. cbn [length]. change (10 ^ Z.of_nat 0) with 1. lia.
  - destruct (decimal c) as [d|] eqn:Ed; [|discriminate].
    apply decimal_range in Ed. apply IH in H; [|lia].
    cbn [length]. rewrite Nat2Z.inj_succ, Z.pow_succ_r by lia.
    assert (0 < 10 ^ Z.of_nat (length s)) by (apply Z.pow_pos_nonneg; lia).
    nia.
Qed.

Lemma py_int_bound s v :
  (length s <= 6)%nat -> py_int s = Some v -> 0 <= v < 1000000.
Proof.
  intros Hl H. unfold py_int in H. destruct s as [|c s]; [discriminate|].
  apply int_digits_bound in H; [|lia].
  assert (10 ^ Z.of_nat (length (c :: s)) <= 10 ^ 6)
    by (apply Z.pow_le_mono_r; lia).
  change (10 ^ 6) with 1000000 in *. lia.
Qed.

Lemma in_price_range_spec v : in_price_range v = true <-> 10 <= v <= 1000000.
Proof. unfold in_price_range. rewrite andb_true_iff, !Z.leb_le. tauto. Qed.

Lemma accepted_price_range m v : accepted_price m = Some v -> 10 <= v <= 1000000.
Proof.
  unfold accepted_price. destruct m as [m|]; [|discriminate].
  destruct (match only_digits (group m 1) with [] => Some 0 | _ => _ end) as [x|];
    [|discriminate].
  destruct (in_price_range x) eqn:E; [|discriminate].
  intros H. inversion H; subst. apply in_price_range_spec, E.
Qed.

Lemma first_in_range_range ms v : first_in_range ms = Some v -> 10 <= v <= 1000000.
Proof.
  induction ms as [|m ms IH]; cbn [first_in_range]; [discriminate|].
  destruct (only_digits (group m 0)) as [|c ds]; [exact IH|].
  destruct (py_int (c :: ds)) as [x|]; [|exact IH].
  destruct (in_price_range x) eqn:E; [|exact IH].
  intros H. inversion H; subst. apply in_price_range_spec, E.
Qed.

(** The number found by the last fallback of [_first_price], [\b(\d{2,6})\b],
    has at most six digits. *)
Lemma standalone_number_width t m :
  search false (SeqL [WordB; Group 1 (Rep 2 6 digit); WordB]) t = Some m ->
  (length (group m 1) <= 6)%nat.
Proof.
  apply (search_matches (fun m => (length (group m 1) <= 6)%nat)).
  intros ma bef aft s'.
  apply (group_width false WordB (Rep 2 6 digit) WordB 0 6); [reflexivity|].
  intros k s res. cbn [rmatch]. destruct (at_boundary s); [auto | discriminate].
Qed.

Lemma first_price_bounds text : 0 <= _first_price text <= 1000000.
Proof.
  unfold _first_price. destruct text as [|c text]; [lia|].
  set (t := price_text (c :: text)).
  destruct (accepted_price (search true (SeqL [NotBehind CDigit; _; _; _]) t)) as [v|] eqn:E1.
  { apply accepted_price_range in E1. lia. }
  destruct (accepted_price (search true (SeqL [rub_pat; _; _; _]) t)) as [v|] eqn:E2.
  { apply accepted_price_range in E2. lia. }
  destruct (first_in_range _) as [v|] eqn:E3.
  { apply first_in_range_range in E3. lia. }
  destruct (search false _ t) as [m|] eqn:E4; [|lia].
  apply standalone_number_width in E4.
  destruct (py_int (group m 1)) as [v|] eqn:E5; [|lia].
  apply py_int_bound in E5; [lia | exact E4].
Qed.

End PriceRange.

(** The range of [_first_price].  With digit values from 0 to 9 (as in the
    Unicode database), [_first_price] returns, for every text, a number from
    0 to 1_000_000; so [_normalize_price] applied to the text, or to the
    number [_first_price] found in it, is [_first_price] of the text, and
    [_price_to_int] has the same range and is 0 for [None]. *)
Theorem first_price_range `{R : PyRuntime} (text : str) :
  (forall c d, decimal c = Some d -> 0 <= d <= 9) ->
  0 <= _first_price text <= 1000000 /\
  _normalize_price (VStr text) = _first_price text /\
  _normalize_price (VInt (_first_price text)) = _first_price text /\
  _price_to_int (Some text) = _first_price text /\
  _price_to_int None = 0.
Proof.
  intros Hd. pose proof (first_price_bounds Hd text) as H.
  assert (E : forall v, 0 <= v <= 1000000 ->
                (if (v <=? 0) || (1000000 <? v) then 0 else v) = v).
  { intros v Hv. destruct (Z.leb_spec v 0), (Z.ltb_spec 1000000 v); simpl; lia. }
  split; [exact H|]. split; [apply E, H|]. split; [apply E, H|].
  split; reflexivity.
Qed.

Lemma basic_decimal_range c d : Basic.decimal c = Some d -> 0 <= d <= 9.
Proof.
  unfold Basic.decimal, in_range.
  destruct (Z.leb_spec 48 c), (Z.leb_spec c 57); cbn [andb]; intros E;
    inversion E; lia.
Qed.

Lemma first_price_range_witness :
  (forall c d, @decimal Basic.runtime c = Some d -> 0 <= d <= 9) /\
  0 <= @_first_price Basic.runtime (u "iPhone 15 за 79 990 руб.") <= 1000000 /\
  @_normalize_price Basic.runtime (VStr (u "iPhone 15 за 79 990 руб."))
  = @_first_price Basic.runtime (u "iPhone 15 за 79 990 руб.").
Proof.
  split; [exact basic_decimal_range|].
  destruct (@first_price_range Basic.runtime (u "iPhone 15 за 79 990 руб.")
              basic_decimal_range) as (H1 & H2 & _).
  split; [exact H1 | exact H2].
Defined.

Section TextPrices.
Context {R : PyRuntime}.

Lemma collect_prices_range t ms :
  Forall (fun v => 10 <= v <= 1000000) (collect_prices t ms).
Proof.
  induction ms as [|m ms IH]; cbn [collect_prices]; [constructor|].
  destruct (context_skipped t m); [exact IH|].
  destruct (only_digits (group m 1)) as [|c ds]; [exact IH|].
  destruct (py_int (c :: ds)) as [v|]; [|exact IH].
  destruct (in_price_range v) eqn:E; [|exact IH].
  constructor; [apply in_price_range_spec, E | exact IH].
Qed.

Lemma prices_from_text_range text :
  Forall (fun v => 10 <= v <= 1000000) (_prices_from_text text).
Proof.
  unfold _prices_from_text. destruct text; [constructor|].
  destruct (price_text _); [constructor | apply collect_prices_range].
Qed.

Lemma py_max_spec : forall l x,
  In (py_max x l) (x :: l) /\ Forall (fun v => v <= py_max x l) (x :: l).
Proof.
  unfold py_max. induction l as [|y l IH]; intros x; cbn [fold_left].
  - split; [left; reflexivity | repeat constructor; lia].
  - destruct (IH (Z.max x y)) as [Hin Hle]. split.
    + destruct Hin as [E|Hin]; [|right; right; exact Hin].
      rewrite <- E. destruct (Z.max_spec x y) as [[_ ->]|[_ ->]];
        [right; left; reflexivity | left; reflexivity].
    + inversion Hle as [|? ? Hm Hl]; subst.
      constructor; [lia|]. constructor; [lia | exact Hl].
Qed.

End TextPrices.

(** The prices read off a text.  Every price [_prices_from_text] returns lies
    in [10, 1_000_000].  [_best_price_from_text] is 0 exactly when that list
    is empty; otherwise it is one of the prices, no price of the list is
    greater, and it lies in [10, 1_000_000]; in either case
    [_normalize_price] leaves it as it is. *)
Theorem best_price_from_text_range `{R : PyRuntime} (text : str) :
  let prices := _prices_from_text text in
  let best := _best_price_from_text text in
  Forall (fun v => 10 <= v <= 1000000) prices /\
  (best = 0 <-> prices = []) /\
  (prices <> [] ->
   In best prices /\ Forall (fun v => v <= best) prices /\ 10 <= best <= 1000000) /\
  _normalize_price (VInt best) = best.
Proof.
  intros prices best.
  pose proof (prices_from_text_range text) as Hr. fold prices in Hr.
  assert (Hne : prices <> [] ->
                In best prices /\ Forall (fun v => v <= best) prices /\
                10 <= best <= 1000000).
  { intros Hp. unfold best, _best_price_from_text. fold prices.
    destruct prices as [|p rest]; [contradiction|].
    destruct (py_max_spec rest p) as [Hin Hle].
    split; [exact Hin|]. split; [exact Hle|].
    rewrite List.Forall_forall in Hr. apply Hr, Hin. }
  split; [exact Hr|]. split; [|split; [exact Hne|]].
  - split.
    + intros E. destruct prices as [|p rest] eqn:Ep; [reflexivity|].
      destruct Hne as (_ & _ & H); [discriminate | lia].
    + intros E. unfold best, _best_price_from_text. fold prices. rewrite E. reflexivity.
  - rewrite normalize_price_int.
    destruct prices as [|p rest] eqn:Ep.
    + assert (E : best = 0)
        by (unfold best, _best_price_from_text; fold prices; rewrite Ep; reflexivity).
      rewrite E. reflexivity.
    + destruct Hne as (_ & _ & H); [discriminate|].
      destruct (Z.leb_spec 1 best), (Z.leb_spec best 1000000); simpl; lia.
Qed.

(** ** Counting the tokens of a query in a title *)

(** [_query_hit_count] and [_matches_query] agree.  The count is between 0
    and the number of tokens.  For a non-empty token list, a title matches
    iff its hit count reaches the required number, so a title that matches has
    at least one hit (the test [hits <= 0] that follows [_matches_query] in
    the XCOM feed parser never fires); for an empty token list every title
    matches and the count is 0. *)
Theorem query_hit_count_matches `{R : PyRuntime} (title : str) (tokens : list str) :
  0 <= _query_hit_count title tokens <= Z.of_nat (length tokens) /\
  (tokens <> [] ->
   (_matches_query title tokens = true <->
    required_hits (Z.of_nat (length tokens)) <= _query_hit_count title tokens) /\
   (_matches_query title tokens = true -> 1 <= _query_hit_count title tokens)) /\
  (tokens = [] ->
   _matches_query title tokens = true /\ _query_hit_count title tokens = 0).
Proof.
  assert (Hc : forall t, 0 <= count_hits t tokens <= Z.of_nat (length tokens)).
  { intros t. unfold count_hits.
    pose proof (filter_length_le (token_hit t) tokens). lia. }
  assert (Hiff : tokens <> [] ->
            (_matches_query title tokens = true <->
             required_hits (Z.of_nat (length tokens)) <= _query_hit_count title tokens)).
  { intros Hne. pose proof (required_hits_positive (Z.of_nat (length tokens))) as Hpos.
    unfold _matches_query, _query_hit_count, match_title.
    destruct tokens as [|tok rest]; [contradiction|].
    destruct (yo_to_ye (lower (strip title))) as [|c t].
    - split; [discriminate | lia].
    - apply Z.leb_le. }
  split; [|split].
  - unfold _query_hit_count. destruct tokens as [|tok rest]; [cbn; lia|].
    destruct (yo_to_ye _); [cbn [length]; lia | apply Hc].
  - intros Hne. split; [apply Hiff, Hne|].
    intros Hm. apply (Hiff Hne) in Hm.
    pose proof (required_hits_positive (Z.of_nat (length tokens))). lia.
  - intros ->. split; reflexivity.
Qed.

(** ** Runs of a class replaced by a text *)

Section PlusClass.
Context {R : PyRuntime}.

Lemma try_at_plus_nil ic c ma bef : try_at ic (Plus (Chr c)) ma bef [] = None.
Proof. reflexivity. Qed.

Lemma try_at_plus_miss ic c ma bef ch rest :
  cls_match ic c ch = false -> try_at ic (Plus (Chr c)) ma bef (ch :: rest) = None.
Proof.
  intros H. unfold try_at, Plus.
  change (rmatch ic (Seq (Chr c) (Star (Chr c))) ?k ?s)
    with (rmatch ic (Chr c) (rmatch ic (Star (Chr c)) k) s).
  cbn [rmatch after]. rewrite H. reflexivity.
Qed.

Lemma rmatch_chr_step ic c k bef ch rest cs :
  cls_match ic c ch = true ->
  rmatch ic (Chr c) k (MState bef (ch :: rest) cs) = k (MState (ch :: bef) rest cs).
Proof. intros H. cbn [rmatch after before caps]. rewrite H. reflexivity. Qed.

Lemma rmatch_plus_hit ic c k bef ch rest cs :
  (forall s', k s' = Some s') -> cls_match ic c ch = true ->
  exists s' n, rmatch ic (Plus (Chr c)) k (MState bef (ch :: rest) cs) = Some s' /\
               consumed (ch :: rest) s' = S n.
Proof.
  intros Hk H. unfold Plus.
  change (rmatch ic (Seq (Chr c) (Star (Chr c))) k ?s)
    with (rmatch ic (Chr c) (rmatch ic (Star (Chr c)) k) s).
  rewrite rmatch_chr_step by exact H.
  destruct (rmatch ic (Star (Chr c)) k (MState (ch :: bef) rest cs)) as [s'|] eqn:E.
  - exists s'. apply rmatch_reaches in E as (s2 & Hk2 & [Hle Hsum] & _).
    rewrite Hk in Hk2. inversion Hk2; subst s2.
    cbn [before after length] in Hle, Hsum.
    exists (length rest - length (after s'))%nat. split; [reflexivity|].
    unfold consumed. cbn [length]. lia.
  - exfalso. revert E. apply rmatch_star_total. intros s'. rewrite Hk. discriminate.
Qed.

(** At a character of the class the run is matched, and it is not empty. *)
Lemma try_at_plus_hit ic c bef ch rest :
  cls_match ic c ch = true ->
  exists s' n, try_at ic (Plus (Chr c)) false bef (ch :: rest) = Some s' /\
               consumed (ch :: rest) s' = S n.
Proof.
  intros H. unfold try_at. apply rmatch_plus_hit; [|exact H].
  intros s'. reflexivity.
Qed.

Lemma scan_plus_class (P : char -> Prop) ic c : forall aft skip bef,
  Forall P aft ->
  Forall (fun t => match t with
                   | inl ch => P ch /\ cls_match ic c ch = false
                   | inr _ => True
                   end)
         (scan ic (Plus (Chr c)) skip bef aft).
Proof.
  induction aft as [|ch rest IH]; intros skip bef Ha; cbn [scan].
  - destruct skip; [|constructor]. rewrite try_at_plus_nil. constructor.
  - assert (Hr : Forall P rest) by (inversion Ha; assumption).
    assert (Hc : P ch) by (inversion Ha; assumption).
    destruct skip; [|apply IH, Hr].
    destruct (cls_match ic c ch) eqn:E.
    + destruct (try_at_plus_hit ic c bef ch rest E) as (s' & n & -> & ->).
      constructor; [exact I | apply IH, Hr].
    + rewrite try_at_plus_miss by exact E.
      constructor; [split; assumption | apply IH, Hr].
Qed.

Lemma expand_tlits rep m : expand (tlits rep) m = rep.
Proof.
  unfold expand, tlits. induction rep as [|c rep IH]; cbn [map flat_map app];
    congruence.
Qed.

(** After [re.sub(r"[c]+", rep, s)] the text is made of the characters of
    [rep] and of those characters of [s] that are not in the class. *)
Lemma sub_plus_class (P Q : char -> Prop) ic c rep s :
  Forall Q rep -> Forall P s ->
  (forall ch, P ch -> cls_match ic c ch = false -> Q ch) ->
  Forall Q (sub ic (Plus (Chr c)) (tlits rep) s).
Proof.
  intros Hrep Hs HPQ. unfold sub.
  pose proof (scan_plus_class P ic c s O [] Hs) as H.
  induction H as [|t l Ht _ IH]; cbn [flat_map]; [constructor|].
  apply Forall_app. split; [|exact IH].
  destruct t as [ch|m].
  - destruct Ht as [Hp Hc]. repeat constructor. apply HPQ; assumption.
  - rewrite expand_tlits. exact Hrep.
Qed.

End PlusClass.

(** ** The tokens of a query *)

Section QueryTokens.
Context {R : PyRuntime}.

Lemma split_on_Forall (P : char -> Prop) sep : forall s cur,
  Forall (fun c => P c /\ c <> sep) cur -> Forall P s ->
  Forall (Forall (fun c => P c /\ c <> sep)) (split_on sep cur s).
Proof.
  induction s as [|c s IH]; intros cur Hcur Hs; cbn [split_on].
  - constructor; [apply Forall_rev, Hcur | constructor].
  - assert (Hc : P c) by (inversion Hs; assumption).
    assert (Hs' : Forall P s) by (inversion Hs; assumption).
    destruct (Z.eqb_spec c sep) as [->|Hne].
    + constructor; [apply Forall_rev, Hcur | apply IH; [constructor | exact Hs']].
    + apply IH; [constructor; [split; assumption | exact Hcur] | exact Hs'].
Qed.

Lemma keep_tokens_In : forall raw seen t,
  In t (keep_tokens seen raw) ->
  In t raw /\ str_in t _QUERY_STOPWORDS = false /\ (2 <= length t)%nat /\ ~ In t seen.
Proof.
  induction raw as [|x raw IH]; intros seen t H; cbn [keep_tokens] in H; [contradiction|].
  assert (Hrest : forall seen', In t (keep_tokens seen' raw) -> (forall y, In y seen -> In y seen') ->
            In t (x :: raw) /\ str_in t _QUERY_STOPWORDS = false /\ (2 <= length t)%nat /\
            ~ In t seen).
  { intros seen' H' Hsub. destruct (IH _ _ H') as (a & b & c & d).
    split; [right; exact a|]. split; [exact b|]. split; [exact c|]. auto. }
  destruct (str_in x _QUERY_STOPWORDS) eqn:Es; [apply (Hrest seen); auto|].
  destruct (Nat.leb_spec (length x) 1) as [|Hl]; [apply (Hrest seen); auto|].
  destruct (str_in x seen) eqn:Ex; [apply (Hrest seen); auto|].
  destruct H as [->|H].
  - split; [left; reflexivity|]. split; [exact Es|]. split; [lia|].
    rewrite <- str_in_In. congruence.
  - apply (Hrest (x :: seen)); [exact H | intros y Hy; right; exact Hy].
Qed.

Lemma keep_tokens_NoDup : forall raw seen, NoDup (keep_tokens seen raw).
Proof.
  induction raw as [|x raw IH]; intros seen; cbn [keep_tokens]; [constructor|].
  destruct (str_in x _QUERY_STOPWORDS); [apply IH|].
  destruct (length x <=? 1)%nat; [apply IH|].
  destruct (str_in x seen); [apply IH|].
  apply NoDup_cons. split; [|apply IH].
  rewrite list_elem_of_In. intros H. apply keep_tokens_In in H as (_ & _ & _ & H).
  apply H. left. reflexivity.
Qed.

Lemma NoDup_firstn {A} n : forall l : list A, NoDup l -> NoDup (firstn n l).
Proof.
  induction n as [|n IH]; intros [|x l] H; cbn [firstn]; try constructor.
  - apply NoDup_cons in H as [Hx Hl]. intros Hin. apply Hx.
    rewrite list_elem_of_In in *.
    rewrite <- (firstn_skipn n l). apply in_or_app. left. exact Hin.
  - apply IH. apply NoDup_cons in H. apply H.
Qed.

Lemma In_firstn_list {A} n : forall (l : list A) x, In x (firstn n l) -> In x l.
Proof.
  intros l x H. rewrite <- (firstn_skipn n l). apply in_or_app. left. exact H.
Qed.

(** The text [_query_tokens] splits is made of word characters and plain
    spaces. *)
Lemma query_text_chars query :
  Forall (fun c => c = 32 \/ is_word c = true)
    (strip (sub false (Plus (Chr CSpace)) (tlits [32])
              (sub false (Plus (Chr (CNot (COr CWord CSpace)))) (tlits [32])
                 (yo_to_ye (lower (strip query)))))).
Proof.
  apply strip_with_Forall.
  apply (sub_plus_class (fun c => is_word c = true \/ is_space c = true)).
  - constructor; [left; reflexivity | constructor].
  - apply (sub_plus_class (fun _ => True)).
    + constructor; [right; reflexivity | constructor].
    + apply List.Forall_forall. intros; exact I.
    + intros ch _ H. cbn [cls_match] in H. apply negb_false_iff, orb_true_iff in H.
      exact H.
  - intros ch [Hw|Hs] H; cbn [cls_match] in H; [right; exact Hw | congruence].
Qed.

End QueryTokens.

(** The tokens of a query.  [_query_tokens] returns at most ten tokens, no
    token twice, and every token has at least two characters, is no stop
    word, and consists of word characters only ([\w]: no white space, no
    punctuation). *)
Theorem query_tokens_shape `{R : PyRuntime} (query : str) :
  let tokens := _query_tokens query in
  (length tokens <= 10)%nat /\ NoDup tokens /\
  Forall (fun t => (2 <= length t)%nat /\ str_in t _QUERY_STOPWORDS = false /\
                   Forall (fun c => is_word c = true) t) tokens.
Proof.
  intros tokens. unfold tokens, _query_tokens.
  change 10 with (Z.of_nat 10). rewrite slice_prefix.
  split; [rewrite length_firstn; lia|]. split; [apply NoDup_firstn, keep_tokens_NoDup|].
  apply List.Forall_forall. intros t Ht.
  apply In_firstn_list, keep_tokens_In in Ht as (Hin & Hstop & Hlen & _).
  split; [exact Hlen|]. split; [exact Hstop|].
  apply filter_In in Hin as [Hin _].
  pose proof (split_on_Forall (fun c => c = 32 \/ is_word c = true) 32 _ []
                ltac:(constructor) (query_text_chars query)) as Hs.
  rewrite List.Forall_forall in Hs. specialize (Hs t Hin).
  revert Hs. apply List.Forall_impl. intros c [[->|Hw] Hne]; [contradiction | exact Hw].
Qed.

(** ** Names of debug files *)

Lemma forallb_Forall_true {A} (f : A -> bool) (l : list A) :
  forallb f l = true -> Forall (fun x => f x = true) l.
Proof.
  intros H. apply List.Forall_forall. intros x Hx.
  rewrite forallb_forall in H. apply H, Hx.
Qed.

Lemma dropwhile_head_is p s : head_is p (dropwhile p s) = false.
Proof.
  induction s as [|c s IH]; cbn [dropwhile]; [reflexivity|].
  destruct (p c) eqn:E; [exact IH | cbn [head_is]; exact E].
Qed.

Lemma dropwhile_snoc p x : forall l,
  p x = false -> dropwhile p (l ++ [x]) = dropwhile p l ++ [x].
Proof.
  intros l Hx. induction l as [|c l IH]; cbn [dropwhile app].
  - rewrite Hx. reflexivity.
  - destruct (p c); [exact IH | reflexivity].
Qed.

(** What [strip] returns neither starts nor ends with a stripped character. *)
Lemma strip_with_ends p s :
  head_is p (strip_with p s) = false /\ head_is p (rev (strip_with p s)) = false.
Proof.
  unfold strip_with. split; [|rewrite rev_involutive; apply dropwhile_head_is].
  pose proof (dropwhile_head_is p s) as Hd.
  destruct (dropwhile p s) as [|x d]; [reflexivity|].
  cbn [head_is] in Hd. cbn [rev]. rewrite dropwhile_snoc by exact Hd.
  rewrite rev_app_distr. cbn [rev app head_is]. exact Hd.
Qed.

Section DebugNames.
Context {R : PyRuntime}.

Lemma unsafe_name_char_spec ch :
  cls_match false unsafe_name_char ch = negb (safe_name_char ch).
Proof.
  unfold unsafe_name_char, safe_name_char.
  change (cls_match false (CNot ?x) ch) with (negb (cls_match false x ch)).
  change (cls_match false (COr ?a ?b) ch)
    with (cls_match false a ch || cls_match false b ch).
  change (cls_match false (COr (CRange 48 57) (CSet [46; 95; 45])) ch)
    with (in_range 48 57 ch || cls_match false (CSet [46; 95; 45]) ch).
  rewrite cls_match_CSet. cbn [cls_match]. rewrite orb_assoc. reflexivity.
Qed.

Lemma safe_debug_name_chars provider :
  Forall (fun c => safe_name_char c = true) (_safe_debug_name provider).
Proof.
  assert (Hu : Forall (fun c => safe_name_char c = true) (u "unknown"))
    by (apply forallb_Forall_true; vm_compute; reflexivity).
  unfold _safe_debug_name. destruct (negb _); [exact Hu|].
  set (named := strip_chars _ _).
  assert (Hn : Forall (fun c => safe_name_char c = true) named).
  { unfold named, strip_chars. apply strip_with_Forall.
    apply sub_Forall; [|apply tlits_in, forallb_Forall_true; reflexivity].
    apply (sub_plus_class (fun _ => True)).
    - apply forallb_Forall_true. reflexivity.
    - apply List.Forall_forall. intros; exact I.
    - intros ch _ H. rewrite unsafe_name_char_spec in H.
      apply negb_false_iff, H. }
  destruct (nonempty named); [exact Hn | exact Hu].
Qed.

End DebugNames.

(** The name [_safe_debug_name] makes for a debug file is never empty,
    consists of characters of [[a-z0-9._-]] only (so it holds no path
    separator and no white space), and neither starts nor ends with an
    underscore. *)
Theorem safe_debug_name_safe `{R : PyRuntime} (provider : option str) :
  let name := _safe_debug_name provider in
  name <> [] /\
  Forall (fun c => safe_name_char c = true) name /\
  Forall (fun c => c <> 47 /\ c <> 92 /\ is_space c = false) name /\
  head_is (fun c => c =? 95) name = false /\
  head_is (fun c => c =? 95) (rev name) = false.
Proof.
  intros name. pose proof (safe_debug_name_chars provider) as Hc. fold name in Hc.
  assert (Hends : forall t : str,
            head_is (fun c => mem c (u "_")) t = head_is (fun c => c =? 95) t).
  { intros [|c t]; [reflexivity|]. cbn [head_is]. apply orb_false_r. }
  split; [|split; [exact Hc|split; [|split]]].
  - unfold name, _safe_debug_name. destruct (negb _); [discriminate|].
    destruct (strip_chars _ _) eqn:E; cbn [nonempty]; discriminate.
  - revert Hc. apply List.Forall_impl. intros c H.
    unfold safe_name_char, in_range, is_space, in_range, mem in *. cbn [existsb] in H.
    repeat split; try (intros ->; discriminate).
    repeat rewrite orb_false_iff. repeat rewrite andb_false_iff.
    repeat rewrite ?orb_true_iff, ?andb_true_iff, ?Z.leb_le, ?Z.eqb_eq in H.
    repeat rewrite ?Z.leb_gt, ?Z.eqb_neq. lia.
  - unfold name, _safe_debug_name. destruct (negb _); [reflexivity|].
    destruct (nonempty (strip_chars _ _)); [|reflexivity].
    rewrite <- Hends. apply strip_with_ends.
  - unfold name, _safe_debug_name. destruct (negb _); [reflexivity|].
    destruct (nonempty (strip_chars _ _)); [|reflexivity].
    rewrite <- Hends. apply strip_with_ends.
Qed.

(** ** The cache key *)

Section SortUnique.
Context {A : Type} (cmp : A -> A -> comparison).
Hypothesis cmp_eq : forall x y, cmp x y = Eq -> x = y.
Hypothesis cmp_antisym : forall x y, cmp y x = CompOpp (cmp x y).
Hypothesis cmp_trans : forall x y z, cmp x y <> Gt -> cmp y z <> Gt -> cmp x z <> Gt.

Lemma cmp_gt_le x y z : cmp y z = Gt -> cmp x z <> Gt -> cmp y x = Gt.
Proof.
  intros Hyz Hxz. destruct (cmp y x) eqn:E; [| |reflexivity]; exfalso;
    apply (cmp_trans y x z); congruence.
Qed.

Lemma insert_by_two x y :
  insert_by cmp x [y] = insert_by cmp y [x].
Proof.
  cbn [insert_by]. rewrite (cmp_antisym x y).
  destruct (cmp x y) eqn:E; cbn [CompOpp]; try reflexivity.
  apply cmp_eq in E. subst. reflexivity.
Qed.

Lemma insert_by_comm x y : forall l,
  insert_by cmp x (insert_by cmp y l) = insert_by cmp y (insert_by cmp x l).
Proof.
  induction l as [|z l IH]; [apply insert_by_two|].
  cbn [insert_by].
  destruct (cmp y z) eqn:Eyz; destruct (cmp x z) eqn:Exz; cbn [insert_by];
    rewrite ?Eyz, ?Exz;
    try (rewrite IH; reflexivity);
    try (rewrite (cmp_gt_le x y z) by congruence; cbn [insert_by]; rewrite ?Eyz, ?Exz;
         reflexivity);
    try (rewrite (cmp_gt_le y x z) by congruence; cbn [insert_by]; rewrite ?Eyz, ?Exz;
         reflexivity);
    rewrite (cmp_antisym x y); destruct (cmp x y) eqn:E; cbn [CompOpp];
      try reflexivity; apply cmp_eq in E; subst; reflexivity.
Qed.

(** Sorting gives the same list whatever the order of the input. *)
Lemma sort_by_order l l' : Permutation l l' -> sort_by cmp l = sort_by cmp l'.
Proof.
  induction 1 as [|x l l' _ IH|x y l|l l' l'' _ IH1 _ IH2]; cbn [sort_by].
  - reflexivity.
  - rewrite IH. reflexivity.
  - apply insert_by_comm.
  - congruence.
Qed.

End SortUnique.

Lemma str_compare_trans : forall a b c,
  str_compare a b <> Gt -> str_compare b c <> Gt -> str_compare a c <> Gt.
Proof.
  induction a as [|x a IH]; intros [|y b] [|z c]; cbn [str_compare]; try congruence.
  destruct (Z.compare_spec x y), (Z.compare_spec y z), (Z.compare_spec x z);
    subst; try lia; try congruence.
  apply IH.
Qed.

(** The cache key does not depend on the order in which the sources are
    given: requests for the same query that name the same sources in another
    order are served from one cache entry. *)
Theorem cache_key_order `{R : PyRuntime} (query : str) (sources sources' : list str) :
  Permutation sources sources' -> _cache_key query sources = _cache_key query sources'.
Proof.
  intros H. unfold _cache_key.
  rewrite (sort_by_order str_compare
             (fun x y E => proj1 (str_compare_eq x y) E)
             (fun x y => str_compare_antisym x y)
             str_compare_trans sources sources' H).
  reflexivity.
Qed.

Lemma cache_key_order_witness :
  Permutation [u "mvideo.ru"; u "avito.ru"] [u "avito.ru"; u "mvideo.ru"] /\
  @_cache_key Basic.runtime (u " iPhone  15 ") [u "mvideo.ru"; u "avito.ru"]
  = @_cache_key Basic.runtime (u " iPhone  15 ") [u "avito.ru"; u "mvideo.ru"].
Proof.
  split; [apply perm_swap|].
  exact (@cache_key_order Basic.runtime (u " iPhone  15 ")
           [u "mvideo.ru"; u "avito.ru"] [u "avito.ru"; u "mvideo.ru"]
           (perm_swap _ _ _)).
Defined.

(** ** Absolute URLs *)

Lemma strip_with_fixed p s :
  head_is p s = false -> head_is p (rev s) = false -> strip_with p s = s.
Proof.
  intros H1 H2. unfold strip_with.
  rewrite (dropwhile_id p s H1), (dropwhile_id p (rev s) H2). apply rev_involutive.
Qed.

Lemma strip_strip s : strip (strip s) = strip s.
Proof.
  unfold strip. destruct (strip_with_ends is_space s) as [H1 H2].
  apply strip_with_fixed; assumption.
Qed.

Lemma head_is_rev_app p (a b : str) :
  b <> [] -> head_is p (rev (a ++ b)) = head_is p (rev b).
Proof.
  intros Hb. rewrite rev_app_distr.
  destruct (rev b) as [|x rb] eqn:E; [|reflexivity].
  exfalso. apply Hb. rewrite <- (rev_involutive b), E. reflexivity.
Qed.

(** A stripped text that starts with ["//"] is still stripped with
    ["https:"] put before it. *)
Lemma strip_https v :
  starts_with (u "//") (strip v) = true ->
  strip (u "https:" ++ strip v) = u "https:" ++ strip v.
Proof.
  intros H. destruct (strip_with_ends is_space v) as [_ H2]. fold (strip v) in H2.
  apply strip_with_fixed; [reflexivity|].
  rewrite head_is_rev_app; [exact H2|].
  destruct (strip v); [discriminate H | discriminate].
Qed.

Lemma starts_with_app p : forall a b, starts_with p a = true -> starts_with p (a ++ b) = true.
Proof.
  induction p as [|c p IH]; intros [|x a] b H; cbn [starts_with app] in *;
    try reflexivity; try discriminate.
  apply andb_true_iff in H as [H1 H2]. rewrite H1. cbn [andb]. apply IH, H2.
Qed.

(** What [_first_http_url] returns. *)
Lemma first_http_url_cases : forall candidates,
  let r := _first_http_url candidates in
  r = [] \/
  (exists v, r = strip v /\
     (starts_with (u "http://") r || starts_with (u "https://") r) = true) \/
  (exists v, r = u "https:" ++ strip v /\ starts_with (u "//") (strip v) = true).
Proof.
  induction candidates as [|c rest IH]; cbn [_first_http_url]; [left; reflexivity|].
  cbv zeta in *. set (v := match c with Some s => s | None => [] end).
  destruct (negb (nonempty (strip v))); [exact IH|].
  destruct (starts_with (u "data:") (strip v)); [exact IH|].
  destruct (starts_with (u "//") (strip v)) eqn:E2.
  { right. right. exists v. split; [reflexivity | exact E2]. }
  destruct (starts_with (u "http://") (strip v) || starts_with (u "https://") (strip v)) eqn:E3;
    [|exact IH].
  right. left. exists v. split; [reflexivity | exact E3].
Qed.

(** The URL [_first_http_url] picks is empty or absolute: it starts with
    ["http://"] or ["https://"] (a protocol-relative candidate is completed
    with ["https:"]), and is never a ["data:"] URL.  It is a fixed point of
    [_first_http_url], and [_abs_url] returns it as it is whatever the base
    URL, without calling [urljoin]. *)
Theorem first_http_url_absolute (candidates : list (option str))
    (urljoin : str -> str -> str) (base : str) :
  let r := _first_http_url candidates in
  (r = [] \/ starts_with (u "http://") r = true \/ starts_with (u "https://") r = true) /\
  starts_with (u "data:") r = false /\
  _first_http_url [Some r] = r /\
  _abs_url urljoin base (Some r) = r.
Proof.
  intros r. pose proof (first_http_url_cases candidates) as Hc.
  cbv zeta in Hc. fold r in Hc. clearbody r.
  unfold _abs_url. cbn [_first_http_url]. cbv zeta.
  assert (Eh : u "http://" = [104; 116; 116; 112; 58; 47; 47]) by (vm_compute; reflexivity).
  assert (Es : u "https://" = [104; 116; 116; 112; 115; 58; 47; 47])
    by (vm_compute; reflexivity).
  assert (Ed : u "data:" = [100; 97; 116; 97; 58]) by (vm_compute; reflexivity).
  assert (Ep : u "//" = [47; 47]) by (vm_compute; reflexivity).
  assert (Ec : u "https:" = [104; 116; 116; 112; 115; 58]) by (vm_compute; reflexivity).
  rewrite Eh, Es, Ed, Ep in *. rewrite Ec in Hc. clear Eh Es Ed Ep Ec.
  destruct Hc as [E|[(v & E & H)|(v & E & H)]].
  - rewrite E. repeat split; auto.
  - assert (Hs : strip r = r) by (rewrite E; apply strip_strip).
    assert (Hr : exists r', r = 104 :: r').
    { apply orb_true_iff in H. destruct r as [|c r']; [destruct H; discriminate|].
      exists r'. destruct H as [H|H]; cbn [starts_with] in H;
        apply andb_true_iff in H as [H _]; apply Z.eqb_eq in H; subst c; reflexivity. }
    destruct Hr as [r' Hr].
    assert (Hne : nonempty r = true) by (rewrite Hr; reflexivity).
    assert (Hd : starts_with [100; 97; 116; 97; 58] r = false) by (rewrite Hr; reflexivity).
    assert (Hp : starts_with [47; 47] r = false) by (rewrite Hr; reflexivity).
    split; [right; apply orb_true_iff, H|]. split; [exact Hd|].
    rewrite Hs, Hne, Hd, Hp, H. split; reflexivity.
  - assert (Hs : strip r = r) by (rewrite E; apply strip_https, H).
    assert (Hh : starts_with [104; 116; 116; 112; 115; 58; 47; 47] r = true).
    { rewrite E.
      apply (starts_with_app [47; 47] (strip v) []) in H. rewrite app_nil_r in H.
      cbn [app starts_with]. rewrite !Z.eqb_refl. cbn [andb].
      exact H. }
    assert (Hne : nonempty r = true) by (rewrite E; reflexivity).
    assert (Hd : starts_with [100; 97; 116; 97; 58] r = false) by (rewrite E; reflexivity).
    assert (Hp : starts_with [47; 47] r = false) by (rewrite E; reflexivity).
    split; [right; right; exact Hh|]. split; [exact Hd|].
    rewrite Hs, Hne, Hd, Hp, Hh, orb_true_r. split; reflexivity.
Qed.

(** ** The greatest number in a JSON value *)

Lemma json_induction (P : json -> Prop) :
  P JNull -> (forall b, P (JBool b)) -> (forall z, P (JInt z)) ->
  (forall f, P (JFloat f)) -> (forall s, P (JStr s)) ->
  (forall l, Forall P l -> P (JList l)) ->
  (forall d, Forall (fun kv => P (snd kv)) d -> P (JDict d)) ->
  forall j, P j.
Proof.
  intros HN HB HI HF HS HL HD. fix IH 1.
  intros [ | b | z | f | s | l | d];
    [exact HN | apply HB | apply HI | apply HF | apply HS | |].
  - apply HL. induction l as [|x l IHl]; constructor; [apply IH | exact IHl].
  - apply HD. induction d as [|[k x] d IHd]; constructor; [apply IH | exact IHd].
Qed.

Lemma fold_max_le l : forall x, x <= fold_left Z.max l x.
Proof.
  induction l as [|y l IH]; intros x; cbn [fold_left]; [lia|].
  specialize (IH (Z.max x y)). lia.
Qed.

Lemma greatest_nonneg l : 0 <= greatest l.
Proof. apply fold_max_le. Qed.

Lemma fold_max_from l : forall x,
  0 <= x -> fold_left Z.max l x = Z.max x (greatest l).
Proof.
  unfold greatest. induction l as [|y l IH]; intros x Hx; cbn [fold_left]; [lia|].
  rewrite (IH (Z.max x y)), (IH (Z.max 0 y)) by lia. lia.
Qed.

Lemma greatest_app a b : greatest (a ++ b) = Z.max (greatest a) (greatest b).
Proof.
  unfold greatest at 1. rewrite fold_left_app. apply fold_max_from, greatest_nonneg.
Qed.

Lemma greatest_spec l :
  (greatest l = 0 \/ In (greatest l) l) /\ Forall (fun v => v <= greatest l) l.
Proof.
  induction l as [|y l [IH1 IH2]].
  - split; [left; reflexivity | constructor].
  - change (y :: l) with ([y] ++ l). rewrite greatest_app.
    assert (Hy : greatest [y] = Z.max 0 y) by reflexivity. rewrite Hy.
    pose proof (greatest_nonneg l). split.
    + destruct (Z.max_spec (Z.max 0 y) (greatest l)) as [[H1 ->]|[H1 ->]].
      * destruct IH1 as [E|Hin]; [left; exact E | right; right; exact Hin].
      * destruct (Z.max_spec 0 y) as [[_ ->]|[_ ->]]; [right; left|left]; reflexivity.
    + constructor; [lia|]. revert IH2. apply List.Forall_impl. intros; lia.
Qed.

Section ExtractMax.
Context {R : PyRuntime}.
Variables min_value max_value : Z.

Local Abbreviation bounded := (in_bounds min_value max_value).
Local Abbreviation best_of := (fun j => greatest (map bounded (leaf_values j))).

Lemma in_bounds_spec v :
  (qualifies min_value max_value v /\ bounded v = v) \/
  (~ qualifies min_value max_value v /\ bounded v = 0).
Proof.
  unfold in_bounds, qualifies.
  destruct (Z.leb_spec min_value v), (Z.leb_spec v max_value), (Z.ltb_spec 0 v);
    cbn [andb]; [left | right | right | right | right | right | right | right];
    split; try reflexivity; lia.
Qed.

Lemma greatest_one v : greatest [bounded v] = bounded v.
Proof.
  unfold greatest. cbn [fold_left].
  destruct (in_bounds_spec v) as [[[_ H] ->]|[_ ->]]; lia.
Qed.

Lemma keep_greater best got :
  (if best <? got then got else best) = Z.max best got.
Proof. destruct (Z.ltb_spec best got); lia. Qed.

(** [_extract_max_int] returns the greatest leaf that lies within the bounds
    and is positive, 0 when there is none; it raises iff the value holds an
    infinity or a NaN. *)
Lemma extract_max_int_spec : forall obj,
  _extract_max_int min_value max_value obj
  = if finite_json obj then Some (best_of obj) else None.
Proof.
  apply json_induction.
  - reflexivity.
  - intros b. cbn [_extract_max_int finite_json leaf_values map].
    rewrite greatest_one. reflexivity.
  - intros z. cbn [_extract_max_int finite_json leaf_values map].
    rewrite greatest_one. reflexivity.
  - intros f. cbn [_extract_max_int finite_json leaf_values].
    destruct (int_of_float f); [|reflexivity]. cbn [map]. rewrite greatest_one. reflexivity.
  - intros s. cbn [_extract_max_int finite_json leaf_values map].
    rewrite greatest_one. reflexivity.
  - intros l Hl. cbn [_extract_max_int finite_json leaf_values].
    match goal with
    | |- ?f l 0 = (if ?a l then Some (greatest (map _ (?w l))) else None) =>
      enough (H : forall best, 0 <= best ->
                f l best = if a l
                           then Some (Z.max best (greatest (map bounded (w l))))
                           else None)
    end.
    { rewrite H by lia. destruct (_ : bool); [|reflexivity]. f_equal.
      apply Z.max_r, greatest_nonneg. }
    induction Hl as [|v l Hv _ IH]; intros best Hb.
    + cbn [map]. f_equal. change (greatest []) with 0. lia.
    + rewrite Hv. destruct (finite_json v); cbn [andb]; [|reflexivity].
      rewrite keep_greater.
      pose proof (greatest_nonneg (map bounded (leaf_values v))) as Hg.
      rewrite IH by lia.
      destruct (_ : bool); [|reflexivity]. f_equal.
      rewrite map_app, greatest_app. lia.
  - intros d Hd. cbn [_extract_max_int finite_json leaf_values].
    match goal with
    | |- ?f d 0 = (if ?a d then Some (greatest (map _ (?w d))) else None) =>
      enough (H : forall best, 0 <= best ->
                f d best = if a d
                           then Some (Z.max best (greatest (map bounded (w d))))
                           else None)
    end.
    { rewrite H by lia. destruct (_ : bool); [|reflexivity]. f_equal.
      apply Z.max_r, greatest_nonneg. }
    induction Hd as [|[k v] d Hv _ IH]; intros best Hb.
    + cbn [map]. f_equal. change (greatest []) with 0. lia.
    + cbn [snd] in Hv. rewrite Hv. destruct (finite_json v); cbn [andb]; [|reflexivity].
      rewrite keep_greater.
      pose proof (greatest_nonneg (map bounded (leaf_values v))) as Hg.
      rewrite IH by lia.
      destruct (_ : bool); [|reflexivity]. f_equal.
      rewrite map_app, greatest_app. lia.
Qed.

End ExtractMax.

(** The greatest number in a JSON value.  [_extract_max_int] raises exactly
    when the value holds a float infinity or NaN.  Otherwise it returns the
    greatest of the leaf numbers ([int(x)] of numbers and booleans,
    [_first_price] of strings) that lie in [[min_value, max_value]] and are
    positive, and 0 when there is none: the result is 0 or such a number, and
    no such number is greater.  With [max_value <= 1_000_000], as in every
    call of the source, [_normalize_price] leaves the result as it is. *)
Theorem extract_max_int_greatest `{R : PyRuntime} (min_value max_value : Z) (obj : json) :
  (finite_json obj = false <-> _extract_max_int min_value max_value obj = None) /\
  (forall r, _extract_max_int min_value max_value obj = Some r ->
     (r = 0 \/ (qualifies min_value max_value r /\ In r (leaf_values obj))) /\
     (forall v, In v (leaf_values obj) -> qualifies min_value max_value v -> v <= r) /\
     (max_value <= 1000000 -> _normalize_price (VInt r) = r)).
Proof.
  rewrite (extract_max_int_spec min_value max_value obj).
  destruct (finite_json obj); (split; [split; congruence|]); [|discriminate].
  intros r E. injection E as Er.
  destruct (greatest_spec (map (in_bounds min_value max_value) (leaf_values obj)))
    as [Hin Hle].
  rewrite Er in Hin, Hle. clear Er.
  assert (Hr : r = 0 \/ (qualifies min_value max_value r /\ In r (leaf_values obj))).
  { destruct Hin as [E|Hin]; [left; exact E|].
    apply in_map_iff in Hin as [v [Ev Hv]].
    destruct (in_bounds_spec min_value max_value v) as [[Hq E]|[_ E]].
    - right. rewrite <- Ev, E. split; assumption.
    - left. rewrite <- Ev, E. reflexivity. }
  split; [exact Hr|]. split.
  - intros v Hv Hq. rewrite List.Forall_forall in Hle.
    specialize (Hle _ (in_map (in_bounds min_value max_value) _ _ Hv)).
    destruct (in_bounds_spec min_value max_value v) as [[_ E]|[Hn _]];
      [rewrite E in Hle; exact Hle | contradiction].
  - intros Hmax. rewrite normalize_price_int.
    destruct Hr as [->|[[[H1 H2] H3] _]]; [reflexivity|].
    destruct (Z.leb_spec 1 r), (Z.leb_spec r 1000000); cbn [andb]; lia.
Qed.

(** ** Provider cool-downs *)

Section CooldownFacts.
Variable time : Type.
Variable zero : time.
Variables (falsy : time -> bool) (leb ltb : time -> time -> bool).
Variables (add sub : time -> time -> time).

(** The order of the clock readings is transitive. *)
Hypothesis leb_trans : forall a b c, leb a b = true -> leb b c = true -> leb a c = true.

Local Abbreviation deadline := (Cooldown.deadline time falsy).
Local Abbreviation active := (Cooldown._cooldown_active time falsy leb).
Local Abbreviation left := (Cooldown._cooldown_left time zero falsy ltb sub).
Local Abbreviation set_cooldown := (Cooldown._set_cooldown time zero leb add).

Lemma deadline_forget source c : deadline source (Cooldown.forget source c) = None.
Proof.
  unfold Cooldown.deadline, Cooldown.forget. cbn [Cooldown.until].
  rewrite lookup_delete_eq. reflexivity.
Qed.

Lemma deadline_forget_ne source other c :
  source <> other -> deadline other (Cooldown.forget source c) = deadline other c.
Proof.
  intros H. unfold Cooldown.deadline, Cooldown.forget. cbn [Cooldown.until].
  rewrite lookup_delete_ne by exact H. reflexivity.
Qed.

Lemma active_deadline now source c :
  fst (active now source c)
  = match deadline source c with Some v => negb (leb v now) | None => false end.
Proof.
  unfold Cooldown._cooldown_active. destruct (deadline source c) as [v|]; [|reflexivity].
  destruct (leb v now); reflexivity.
Qed.

(** Asking whether a source cools down clears its entry once the deadline
    has passed; no later answer, for any source, is changed by that. *)
Lemma active_lazy t t' s s' c :
  leb t t' = true ->
  fst (active t' s' (snd (active t s c))) = fst (active t' s' c).
Proof.
  intros Ht. rewrite !active_deadline.
  unfold Cooldown._cooldown_active at 1.
  destruct (deadline s c) as [v|] eqn:Ed; [|reflexivity].
  destruct (leb v t) eqn:Ev; [|reflexivity]. cbn [snd].
  destruct (decide (s = s')) as [<-|Hne].
  - rewrite deadline_forget, Ed, (leb_trans v t t' Ev Ht). reflexivity.
  - rewrite deadline_forget_ne by exact Hne. reflexivity.
Qed.

(** The cool-down registry.  [_set_cooldown] with [seconds <= 0] removes the
    entry of the source, which is then not cooling down and has nothing left.
    Otherwise the deadline of the source becomes [now + seconds] and the
    source is cooling down at a reading [t] iff that deadline is not [<= t].
    In both cases no other source is affected.  [_cooldown_active] clears an
    entry whose deadline has passed; with a clock that does not run backwards
    this changes no later answer for any source. *)
Theorem cooldown_registry (c : Cooldown.t time) (now seconds : time)
    (source : str) (why : str) :
  let c' := set_cooldown now source seconds why c in
  (leb seconds zero = true ->
   deadline source c' = None /\
   forall t, fst (active t source c') = false /\ left t source c' = zero) /\
  (leb seconds zero = false -> falsy (add now seconds) = false ->
   deadline source c' = Some (add now seconds) /\
   forall t, fst (active t source c') = negb (leb (add now seconds) t)) /\
  (forall other, other <> source -> deadline other c' = deadline other c) /\
  (forall t t' s s', leb t t' = true ->
     fst (active t' s' (snd (active t s c))) = fst (active t' s' c)).
Proof.
  intros c'. split; [|split; [|split]].
  - intros Hs.
    assert (E : deadline source c' = None).
    { unfold c', Cooldown._set_cooldown. rewrite Hs. apply deadline_forget. }
    split; [exact E|]. intros t. rewrite active_deadline.
    unfold Cooldown._cooldown_left. rewrite E. split; reflexivity.
  - intros Hs Hf.
    assert (E : deadline source c' = Some (add now seconds)).
    { unfold c', Cooldown._set_cooldown, Cooldown.deadline. rewrite Hs.
      cbn [Cooldown.until]. rewrite lookup_insert_eq, Hf. reflexivity. }
    split; [exact E|]. intros t. rewrite active_deadline, E. reflexivity.
  - intros other Hne. unfold c', Cooldown._set_cooldown.
    destruct (leb seconds zero).
    + apply deadline_forget_ne. congruence.
    + unfold Cooldown.deadline. cbn [Cooldown.until].
      rewrite lookup_insert_ne by congruence. reflexivity.
  - intros t t' s s'. apply active_lazy.
Qed.

End CooldownFacts.

Lemma cooldown_registry_witness :
  (forall a b c : Z, (a <=? b) = true -> (b <=? c) = true -> (a <=? c) = true) /\
  forall t : Z,
    fst (Cooldown._cooldown_active Z (Z.eqb 0) Z.leb t (u "avito.ru")
           (Cooldown._set_cooldown Z 0 Z.leb Z.add 100 (u "avito.ru") 30 (u "blocked")
              Cooldown.empty))
    = negb (130 <=? t).
Proof.
  assert (H : forall a b c : Z, (a <=? b) = true -> (b <=? c) = true -> (a <=? c) = true)
    by (intros a b c; rewrite !Z.leb_le; lia).
  split; [exact H|].
  exact (proj2 (proj1 (proj2
    (cooldown_registry Z 0 (Z.eqb 0) Z.leb Z.ltb Z.add Z.sub H Cooldown.empty 100 30
       (u "avito.ru") (u "blocked"))) eq_refl eq_refl)).
Defined.

(** ** What the fan-out caches *)

Section Relevance.
Context {R : PyRuntime}.


End Relevance.


(** ** Watermarks *)

Section Watermarks.
Context {R : PyRuntime}.

Lemma apply_items_limits tokens res : forall e,
  Entry.source_limits (apply_items tokens res e) = Entry.source_limits e.
Proof.
  induction res as [|raw rest IH]; intros e; cbn [apply_items]; [reflexivity|].
  destruct (match tokens with [] => false | _ => _ end); [apply IH|].
  destruct (decide _); [apply IH|]. rewrite IH. reflexivity.
Qed.

Lemma marked_set_limit s lim source v e :
  (source = s -> lim <= v) -> marked s lim e -> marked s lim (set_limit source v e).
Proof.
  unfold marked, set_limit, Entry.with_source_limits. cbn [Entry.source_limits].
  intros Hv He. destruct (decide (source = s)) as [->|Hne].
  - rewrite lookup_insert_eq. cbn [default]. auto.
  - rewrite lookup_insert_ne by exact Hne. exact He.
Qed.

(** Applying the result of a task that asked for [lim] keeps a watermark of
    at least [lim]. *)
Lemma apply_provider_result_keeps_mark s lim tokens ex tr source prev res e :
  marked s lim e ->
  marked s lim (_apply_provider_result tokens ex tr source lim prev res e).
Proof.
  intros He. unfold marked in *. destruct res as [| |l]; cbn [_apply_provider_result].
  - exact He.
  - destruct tr; [|exact He]. apply marked_set_limit; [intros _; lia | exact He].
  - cbv zeta. rewrite apply_items_limits. destruct (_ || _); [|exact He].
    apply marked_set_limit; [intros _; lia | exact He].
Qed.

(** Applying a recorded result sets the watermark to at least the limit
    asked for. *)
Lemma apply_provider_result_marks lim tokens ex tr source prev res e :
  recorded ex tr res = true ->
  marked source lim (_apply_provider_result tokens ex tr source lim prev res e).
Proof.
  intros Hr. unfold marked. destruct res as [| |l]; cbn [_apply_provider_result recorded] in *.
  - discriminate.
  - rewrite Hr. unfold set_limit, Entry.with_source_limits. cbn [Entry.source_limits].
    rewrite lookup_insert_eq. apply Z.le_refl.
  - cbv zeta. rewrite apply_items_limits.
    assert (Hc : (match l with [] => false | _ => true end) || negb ex = true)
      by (destruct l; [exact Hr | reflexivity]).
    rewrite Hc. unfold set_limit, Entry.with_source_limits. cbn [Entry.source_limits].
    rewrite lookup_insert_eq. apply Z.le_max_r.
Qed.

Lemma fold_tasks_marks env query tokens ex tr res_of s lim : forall tasks e,
  (forall t, In t tasks -> snd (fst t) = lim) ->
  marked s lim e \/
  (exists t, In t tasks /\ fst (fst t) = s /\ recorded ex tr (res_of t) = true) ->
  marked s lim
    (fold_left (fun e t => apply_task env query tokens ex tr res_of t e) tasks e).
Proof.
  induction tasks as [|[[s0 l0] p0] tasks IH]; intros e Hlim H; cbn [fold_left].
  - destruct H as [H|(t & [] & _)]. exact H.
  - assert (El : l0 = lim) by (apply (Hlim (s0, l0, p0)); left; reflexivity). subst l0.
    apply IH; [intros t Ht; apply Hlim; right; exact Ht|].
    destruct H as [H|(t & [<-|Ht] & Hs & Hr)].
    + left. apply apply_provider_result_keeps_mark, H.
    + left. cbn [fst] in Hs. subst s0. cbn [apply_task].
      apply apply_provider_result_marks, Hr.
    + right. exists t. auto.
Qed.

End Watermarks.

(** Watermarks.  Where limits are tracked (sources not explicit, or a
    per-source target given), every source [_ensure_cached] asks for [limit]
    items ends the call in one of three states: still pending; without a
    record, because its task returned nothing or, the sources being explicit,
    an empty list; or with a watermark of at least [limit].  In the first and
    the last state the same call repeated on the entry does not ask the
    source again. *)
Theorem watermarks_after_fan_out `{R : PyRuntime} (env : Env) (e : Entry.t)
    (query : str) (target : Z) (sources : list str) (explicit_sources : bool)
    (per_source_target : option Z) (slow_timeout : Z) (wait_for_all : bool) :
  let r := _ensure_cached env e query target sources explicit_sources
             per_source_target slow_timeout wait_for_all in
  let e' := fst (fst r) in
  explicit_sources = false \/ per_source_target <> None ->
  forall source limit, In (EvSearch source limit) (snd (fst r)) ->
    ((source ∈ Entry.pending_sources e') \/
     provider_result_of env source query limit = RNone \/
     (explicit_sources = true /\ provider_result_of env source query limit = RItems []) \/
     marked source limit e') /\
    ((source ∈ Entry.pending_sources e') \/ marked source limit e' ->
     forall prev, ~ In (source, limit, prev) (schedule e' true limit sources)).
Proof.
  intros r e' Htrack source limit Hin.
  assert (Hnext : (source ∈ Entry.pending_sources e') \/ marked source limit e' ->
                  forall prev, ~ In (source, limit, prev) (schedule e' true limit sources)).
  { intros H prev Hs. apply schedule_spec in Hs as (_ & _ & Hp & _ & _ & Hm).
    destruct H as [H|H]; [exact (Hp H)|]. specialize (Hm eq_refl).
    unfold marked in H. lia. }
  split; [|exact Hnext]. clear Hnext.
  assert (Htr : negb explicit_sources
                || match per_source_target with Some _ => true | None => false end = true).
  { destruct Htrack as [->|H]; [reflexivity|].
    destruct per_source_target; [apply orb_true_r | contradiction]. }
  revert Hin. unfold e', r, _ensure_cached.
  destruct (cache_is_enough e target explicit_sources); [intros []|].
  set (filled := if _ && _ then _ else _).
  assert (Hf : exists n, snd filled = pages_from (Entry.yandex_next_page e) n).
  { unfold filled. destruct (_ && _); [|exists O; reflexivity].
    destruct (fill_loop_pages env query (_query_tokens query)
                (match per_source_target with Some l => l | None => target end)
                (fill_fuel e) e) as (n & Hev & _).
    exists n. exact Hev. }
  destruct Hf as [n Hev]. destruct filled as [e1 evs]. cbn [snd] in Hev. subst evs.
  assert (Hpages : In (EvSearch source limit) (pages_from (Entry.yandex_next_page e) n) ->
                   False) by apply pages_from_In_search.
  destruct (cache_is_enough e1 target explicit_sources);
    [intros H; destruct (Hpages H)|].
  destruct (per_source_limit_of _ _ _ _ _) as [psl|]; [|intros H; destruct (Hpages H)].
  destruct (psl <=? 0); [intros H; destruct (Hpages H)|].
  rewrite Htr.
  destruct (schedule e1 true psl sources) as [|t0 tasks0] eqn:Es;
    [intros H; destruct (Hpages H)|].
  rewrite <- Es. set (tasks := schedule e1 true psl sources).
  assert (Hlim : forall t, In t tasks -> snd (fst t) = psl).
  { intros [[s l] p] Ht. apply schedule_spec in Ht. cbn [fst snd]. apply Ht. }
  assert (Hne : tasks <> []) by (unfold tasks; rewrite Es; discriminate).
  clearbody tasks. clear Es t0 tasks0.
  destruct tasks as [|t1 tasks1] eqn:Et; [contradiction|]. rewrite <- Et in *.
  assert (Htask : In (EvSearch source limit)
                    (pages_from (Entry.yandex_next_page e) n
                     ++ map (fun t : task => EvSearch (fst (fst t)) (snd (fst t))) tasks) ->
                  exists t, In t tasks /\ fst (fst t) = source /\ limit = psl).
  { intros H. apply in_app_iff in H as [H|H]; [destruct (Hpages H)|].
    apply in_map_iff in H as [t [E Ht]]. inversion E; subst.
    exists t. split; [exact Ht|]. split; [reflexivity | apply Hlim, Ht]. }
  destruct wait_for_all; cbn [fst snd]; intros Hin;
    destruct (Htask Hin) as (t & Ht & Hs & ->).
  - destruct (recorded explicit_sources true (task_result env query t)) eqn:Hr.
    + right. right. right.
      apply fold_tasks_marks; [exact Hlim|]. right. exists t. auto.
    + right. destruct t as [[s l] p]. cbn [fst snd] in Hs. subst s.
      assert (El : l = psl) by (apply (Hlim (source, l, p)), Ht). subst l.
      cbn [task_result] in Hr.
      destruct (provider_result_of env source query psl) as [| |items];
        cbn [recorded] in Hr; [left; reflexivity | discriminate|].
      destruct items; [|discriminate]. right. left.
      split; [apply negb_false_iff, Hr | reflexivity].
  - destruct (finished_in_time env query slow_timeout t) eqn:Hfin.
    + destruct (recorded explicit_sources true (task_result env query t)) eqn:Hr.
      * right. right. right.
        apply fold_tasks_marks; [exact Hlim|]. right. exists t.
        rewrite Hfin. auto.
      * right. destruct t as [[s l] p]. cbn [fst snd] in Hs. subst s.
        assert (El : l = psl) by (apply (Hlim (source, l, p)), Ht). subst l.
        cbn [task_result] in Hr.
        destruct (provider_result_of env source query psl) as [| |items];
          cbn [recorded] in Hr; [left; reflexivity | discriminate|].
        destruct items; [|discriminate]. right. left.
        split; [apply negb_false_iff, Hr | reflexivity].
    + left. rewrite fold_tasks_pending.
      cbn [Entry.pending_sources Entry.with_pending_sources].
      apply elem_of_list_to_set, list_elem_of_In, in_map_iff.
      exists t. split; [exact Hs|]. apply filter_In. split; [exact Ht|].
      rewrite Hfin. reflexivity.
Qed.

Lemma watermarks_after_fan_out_witness :
  let r := @_ensure_cached Basic.runtime silent_env (Entry.new (u "phone")) (u "phone") 10
             [u "avito.ru"] true (Some 10) 8 true in
  (true = false \/ Some 10 <> None) /\
  In (EvSearch (u "avito.ru") 10) (snd (fst r)) /\
  (((u "avito.ru") ∈ Entry.pending_sources (fst (fst r))) \/
   provider_result_of silent_env (u "avito.ru") (u "phone") 10 = RNone \/
   (true = true /\ provider_result_of silent_env (u "avito.ru") (u "phone") 10 = RItems []) \/
   marked (u "avito.ru") 10 (fst (fst r))).
Proof.
  intros r.
  assert (Ht : true = false \/ Some 10 <> None) by (right; discriminate).
  assert (Hin : In (EvSearch (u "avito.ru") 10) (snd (fst r)))
    by (vm_compute; left; reflexivity).
  split; [exact Ht|]. split; [exact Hin|].
  exact (proj1 (@watermarks_after_fan_out Basic.runtime silent_env (Entry.new (u "phone"))
                  (u "phone") 10 [u "avito.ru"] true (Some 10) 8 true Ht
                  (u "avito.ru") 10 Hin)).
Defined.

(** ** The end of the results *)

Lemma slice_length {A} (l : list A) (a b : Z) :
  0 <= a -> a <= b ->
  Z.of_nat (length (slice l a b))
  = Z.min b (Z.of_nat (length l)) - Z.min a (Z.of_nat (length l)).
Proof.
  intros Ha Hb. unfold slice, clamp_index.
  destruct (Z.ltb_spec a 0); [lia|]. destruct (Z.ltb_spec b 0); [lia|].
  rewrite length_firstn, length_skipn. lia.
Qed.







(** The next offset of the search endpoint.  For [offset >= 0] and
    [limit >= 1], as the endpoint requires, [next_offset] is absent exactly
    when [has_more] is false or the page is empty; when present it is greater
    than [offset] and at most [offset + limit]: it is [offset + limit] in the
    per-source mode, and in the global mode [offset + len(page)], which does
    not exceed the number of cached items. *)
Theorem next_offset_advances `{R : PyRuntime} (env : Env) (sts now : Z)
    (entry : Entry.t) (query : str) (offset limit : Z) (sources : option (list str))
    (per_source partial : bool) :
  let r := search_products env sts now entry query offset limit sources per_source partial in
  let next := next_offset offset limit per_source (sp_has_more r) (length (sp_page r)) in
  0 <= offset -> 1 <= limit ->
  (next = None <-> sp_has_more r = false \/ sp_page r = []) /\
  (forall n, next = Some n ->
     offset < n <= offset + limit /\
     (per_source = true -> n = offset + limit) /\
     (per_source = false ->
      n = offset + Z.of_nat (length (sp_page r)) /\ n <= len_items (sp_entry r))).
Proof.
  intros r next Ho Hl.
  destruct (search_products_parts env sts now entry query offset limit sources
              per_source partial) as (He & _ & _ & Hp & _).
  cbv zeta in He, Hp. fold r in He, Hp. rewrite <- He in Hp. clear He.
  unfold next, next_offset. split.
  - destruct (sp_has_more r); cbn [andb]; [|split; auto].
    destruct (sp_page r) as [|it page]; cbn [length Nat.ltb Nat.leb]; split; auto.
    + discriminate.
    + intros [H|H]; discriminate.
  - intros n Hn. destruct (sp_has_more r); cbn [andb] in Hn; [|discriminate].
    destruct (Nat.ltb_spec 0 (length (sp_page r))) as [Hpos|]; [|discriminate].
    destruct per_source; inversion Hn; subst n; clear Hn.
    + split; [lia|]. split; [reflexivity | discriminate].
    + rewrite Hp in *. cbn [fst global_page] in *.
      pose proof (slice_length (Entry.items (sp_entry r)) offset (offset + limit)
                    Ho ltac:(lia)) as Hs.
      unfold len_items. split; [lia|]. split; [discriminate|].
      intros _. split; [reflexivity | lia].
Qed.

Lemma next_offset_advances_witness :
  let r := @search_products Basic.runtime silent_env 35 0 five_item_entry
             (u "phone") 0 2 (Some [u "avito.ru"]) false false in
  0 <= 0 /\ 1 <= 2 /\
  next_offset 0 2 false (sp_has_more r) (length (sp_page r)) = Some 2.
Proof.
  intros r. split; [lia|]. split; [lia|].
  destruct (@next_offset_advances Basic.runtime silent_env 35 0 five_item_entry
              (u "phone") 0 2 (Some [u "avito.ru"]) false false ltac:(lia) ltac:(lia))
    as [_ H].
  vm_compute. reflexivity.
Defined.

(** * Titles that cleaning leaves alone *)

Section FixedTitles.
Context {R : PyRuntime}.

(** An attempt that has to advance consumes input. *)
Lemma try_at_advances ic r bef aft s' :
  try_at ic r true bef aft = Some s' -> consumed aft s' <> O.
Proof.
  unfold try_at. intros H. apply rmatch_reaches in H as (s1 & Hk & _).
  cbn [andb] in Hk. destruct (consumed aft s1 =? 0)%nat eqn:E; [discriminate|].
  inversion Hk; subst. apply Nat.eqb_neq, E.
Qed.

(** The characters outside the matches and the texts of the matches make up
    the string scanned. *)
Lemma scan_same ic r tpl : forall aft skip bef,
  Forall (fun m => expand tpl m = m_text m) (matches_of (scan ic r skip bef aft)) ->
  flat_map (fun t => match t with inl c => [c] | inr m => expand tpl m end)
           (scan ic r skip bef aft) = skipn skip aft.
Proof.
  induction aft as [|c rest IH]; intros skip bef H; cbn [scan] in *.
  - destruct skip; [|reflexivity].
    destruct (try_at ic r false bef []) as [s'|]; [|reflexivity].
    cbn [matches_of flat_map] in *. inversion H as [|? ? Hm _]; subst.
    rewrite Hm. cbn [mk_match m_text]. rewrite firstn_nil. reflexivity.
  - destruct skip as [|k]; [|apply IH, H].
    destruct (try_at ic r false bef (c :: rest)) as [s'|] eqn:E1.
    + destruct (consumed (c :: rest) s') as [|k] eqn:Ec.
      * cbn [matches_of flat_map] in *. inversion H as [|? ? Hm H']; subst.
        rewrite Hm. cbn [mk_match m_text]. rewrite Ec. cbn [firstn app].
        destruct (try_at ic r true bef (c :: rest)) as [s''|] eqn:E2.
        -- cbn [matches_of flat_map] in *. inversion H' as [|? ? Hm' H'']; subst.
           rewrite Hm'. cbn [mk_match m_text].
           pose proof (try_at_advances _ _ _ _ _ E2) as Hadv.
           destruct (consumed (c :: rest) s'') as [|k'] eqn:Ec'; [contradiction|].
           cbn [Nat.pred firstn app skipn] in *. rewrite (IH _ _ H'').
           f_equal. apply firstn_skipn.
        -- cbn [matches_of flat_map app skipn] in *. f_equal. apply (IH O), H'.
      * cbn [matches_of flat_map] in *. inversion H as [|? ? Hm H']; subst.
        rewrite Hm. cbn [mk_match m_text]. rewrite Ec. cbn [firstn app skipn].
        rewrite (IH _ _ H'). f_equal. apply firstn_skipn.
    + cbn [matches_of flat_map app skipn] in *. f_equal. apply (IH O), H.
Qed.

(** [re.sub] returns its argument when it replaces every match by the text
    of the match. *)
Lemma sub_same ic r tpl s :
  Forall (fun m => expand tpl m = m_text m) (finditer ic r s) -> sub ic r tpl s = s.
Proof. intros H. unfold sub. rewrite scan_same; [reflexivity | exact H]. Qed.

(** A settled title goes through every step of [_clean_title] unchanged. *)
Lemma clean_title_settled t : settled t -> _clean_title t = t.
Proof.
  intros (Hlen & Hu & Hc & Hs & He & Hp & Hused & Hm & Hg & Hb).
  unfold _clean_title, clean_title_body.
  rewrite Hu.
  rewrite replace_char_absent by (apply title_chars_no_nbsp, Hc).
  rewrite (sub_needs _ _ _ _ _ needs_invisible (title_chars_visible t Hc)).
  rewrite (spaced_strip t Hc Hs He).
  rewrite (sub_single_spaces t Hc Hs).
  rewrite (sub_no_match _ _ _ _ Hp).
  rewrite (sub_no_match _ _ _ _ Hused).
  rewrite (sub_no_match _ _ _ _ Hm).
  rewrite sub_same.
  2:{ revert Hg. apply List.Forall_impl. intros m ->. apply expand_tlits. }
  assert (Ec : contains (u "(б/у") t && negb (contains (u "(б/у)") t) = false).
  { destruct (contains (u "(б/у") t); [|reflexivity].
    rewrite (Hb eq_refl). reflexivity. }
  rewrite Ec. unfold limit_title.
  replace (160 <? length t)%nat with false; [reflexivity|].
  symmetry. apply Nat.ltb_ge. exact Hlen.
Qed.

End FixedTitles.


Ltac settle :=
  unfold settled; split; [vm_compute; lia|];
  split; [reflexivity|];
  split; [apply Forall_of_forallb; vm_compute; reflexivity|];
  split; [vm_compute; reflexivity|];
  split; [vm_compute; reflexivity|];
  split; [vm_compute; reflexivity|];
  split; [vm_compute; reflexivity|];
  split; [vm_compute; reflexivity|];
  split; [vm_compute; repeat (apply List.Forall_cons; [reflexivity|]); apply List.Forall_nil
        | vm_compute; intros H; exact H].


Lemma settled_sample_latin : @settled Basic.runtime (u "Samsung Galaxy S24 8/256GB").
Proof. settle. Qed.

Lemma settled_sample_brackets :
  @settled Basic.runtime (u "Apple iPhone 15 Pro Max 256GB (черный)").
Proof. settle. Qed.


(** So a second cleaning changes nothing whenever the first one has produced
    a settled title. *)
Corollary clean_title_twice `{R : PyRuntime} (t : str) :
  settled (_clean_title t) -> _clean_title (_clean_title t) = _clean_title t.
Proof. intros H. apply clean_title_settled, H. Qed.

(** A title in need of cleaning, for which the corollary applies. *)
Lemma clean_title_twice_sample :
  let t := u "  Смартфон Samsung  Galaxy S24, 8/256 гб б/у ;" in
  @_clean_title Basic.runtime t = u "Samsung Galaxy S24 8/256 ГБ (б/у)" /\
  @settled Basic.runtime (@_clean_title Basic.runtime t).
Proof.
  intros t.
  assert (E : @_clean_title Basic.runtime t = u "Samsung Galaxy S24 8/256 ГБ (б/у)")
    by (vm_compute; reflexivity).
  split; [exact E|]. rewrite E. settle.
Qed.

(** * The fan-out as [search_products] drives it *)

Section Deadline.
Context {R : PyRuntime}.

Lemma schedule_complete e track psl : forall sources source,
  In source sources -> source <> YANDEX -> (source ∉ Entry.pending_sources e) ->
  known_provider source = true ->
  (track = true -> default 0 (Entry.source_limits e !! source) < psl) ->
  exists prev, In (source, psl, prev) (schedule e track psl sources).
Proof.
  induction sources as [|s rest IH]; intros source Hin Hy Hp Hk Hl; [contradiction|].
  cbn [schedule].
  assert (Hrest : In source rest ->
            exists prev, In (source, psl, prev) (schedule e track psl rest))
    by (intros H; apply IH; assumption).
  destruct Hin as [->|Hin].
  - apply str_eqb_neq in Hy. rewrite Hy.
    destruct (decide (source ∈ Entry.pending_sources e)) as [|_]; [contradiction|].
    destruct track; cbn [andb].
    + specialize (Hl eq_refl). apply Z.leb_gt in Hl. rewrite Hl, Hk. cbn [negb].
      eexists. left. reflexivity.
    + rewrite Hk. cbn [negb]. eexists. left. reflexivity.
  - destruct (Hrest Hin) as [prev H].
    destruct (str_eqb s YANDEX); [eauto|].
    destruct (decide _); [eauto|].
    destruct (_ && _); [eauto|].
    destruct (negb _); [eauto|]. exists prev. right. exact H.
Qed.


(** What [_ensure_cached] leaves behind, in terms of the tasks it started. *)
Lemma ensure_cached_outcome env e query target sources ex pst slow wait :
  let r := _ensure_cached env e query target sources ex pst slow wait in
  let track := negb ex || match pst with Some _ => true | None => false end in
  exists tasks : list task,
    (forall source limit, In (EvSearch source limit) (snd (fst r)) <->
       exists prev, In (source, limit, prev) tasks) /\
    (tasks = [] \/ exists psl, 0 < psl /\ tasks = schedule e track psl sources) /\
    (let late := List.filter (fun t => negb (finished_in_time env query slow t)) tasks in
     map st_source (snd r) = (if wait then [] else map (fun t : task => fst (fst t)) late) /\
     (tasks <> [] ->
      Entry.pending_sources (fst (fst r))
      = if wait then ∅ else list_to_set (map (fun t : task => fst (fst t)) late)) /\
     (tasks = [] -> Entry.pending_sources (fst (fst r)) = Entry.pending_sources e)).
Proof.
  intros r track.
  pose (G := fun res : Entry.t * list event * list straggler =>
    exists tasks : list task,
    (forall source limit, In (EvSearch source limit) (snd (fst res)) <->
       exists prev, In (source, limit, prev) tasks) /\
    (tasks = [] \/ exists psl, 0 < psl /\ tasks = schedule e track psl sources) /\
    (let late := List.filter (fun t => negb (finished_in_time env query slow t)) tasks in
     map st_source (snd res) = (if wait then [] else map (fun t : task => fst (fst t)) late) /\
     (tasks <> [] ->
      Entry.pending_sources (fst (fst res))
      = if wait then ∅ else list_to_set (map (fun t : task => fst (fst t)) late)) /\
     (tasks = [] -> Entry.pending_sources (fst (fst res)) = Entry.pending_sources e))).
  change (G r).
  assert (Hearly : forall (e' : Entry.t) n,
            Entry.pending_sources e' = Entry.pending_sources e ->
            G (e', pages_from (Entry.yandex_next_page e) n, [])).
  { intros e' n Hp. exists []. cbn [fst snd List.filter map].
    split; [|split; [left; reflexivity|]].
    - intros source limit. split.
      + intros H. apply pages_from_In_search in H. contradiction.
      + intros [prev []].
    - split; [destruct wait; reflexivity|]. split; [congruence | intros _; exact Hp]. }
  unfold r, _ensure_cached.
  destruct (cache_is_enough e target ex); [apply (Hearly e O eq_refl)|].
  set (filled := if _ && _ then _ else _).
  assert (Hf : exists n,
    snd filled = pages_from (Entry.yandex_next_page e) n /\
    same_bookkeeping e (fst filled)).
  { unfold filled. destruct (_ && _).
    - destruct (fill_loop_pages env query (_query_tokens query)
                  (match pst with Some l => l | None => target end)
                  (fill_fuel e) e) as (n & Hev & _ & _ & Hbk & _).
      exists n. split; [exact Hev | exact Hbk].
    - exists O. cbn. repeat split; reflexivity. }
  destruct Hf as (n & Hev & Hbk).
  destruct filled as [e1 evs]. cbn [fst snd] in Hev, Hbk. subst evs.
  assert (Hp1 : Entry.pending_sources e1 = Entry.pending_sources e) by apply Hbk.
  destruct (cache_is_enough e1 target ex); [apply (Hearly e1 n Hp1)|].
  destruct (per_source_limit_of e1 target sources ex pst) as [psl|];
    [|apply (Hearly e1 n Hp1)].
  destruct (Z.leb_spec psl 0) as [|Hpos]; [apply (Hearly e1 n Hp1)|].
  fold track. rewrite (schedule_bookkeeping e e1 track psl sources Hbk).
  destruct (schedule e track psl sources) as [|t tasks] eqn:Es; [apply (Hearly e1 n Hp1)|].
  exists (t :: tasks).
  assert (Hevs : forall source limit,
    In (EvSearch source limit)
       (pages_from (Entry.yandex_next_page e) n
        ++ map (fun t : task => EvSearch (fst (fst t)) (snd (fst t))) (t :: tasks)) <->
    exists prev, In (source, limit, prev) (t :: tasks)).
  { intros source limit. rewrite in_app_iff, in_map_iff. split.
    - intros [H|[[[s l] p] [E H]]]; [apply pages_from_In_search in H; contradiction|].
      cbn [fst snd] in E. inversion E; subst. exists p. exact H.
    - intros [prev H]. right. exists (source, limit, prev). split; [reflexivity | exact H]. }
  assert (Hsch : t :: tasks = [] \/
                 exists psl0, 0 < psl0 /\ t :: tasks = schedule e track psl0 sources)
    by (right; exists psl; split; [exact Hpos | symmetry; exact Es]).
  destruct wait; cbn [fst snd].
  - split; [exact Hevs|]. split; [exact Hsch|]. cbv zeta.
    split; [reflexivity|]. split; [|discriminate].
    intros _. rewrite fold_tasks_pending. reflexivity.
  - split; [exact Hevs|]. split; [exact Hsch|]. cbv zeta.
    split; [rewrite map_map; reflexivity|]. split; [|discriminate].
    intros _. rewrite fold_tasks_pending. reflexivity.
Qed.

(** With explicit sources the first return of [_ensure_cached] is never
    taken: the sources asked are the scheduled ones, whatever the cache
    holds. *)
Lemma ensure_cached_explicit env e query target sources pst slow wait psl :
  per_source_limit_of e target sources true pst = Some psl -> 0 < psl ->
  searched (snd (fst (_ensure_cached env e query target sources true pst slow wait)))
  = map (fun t : task => fst (fst t))
        (schedule e (match pst with Some _ => true | None => false end) psl sources).
Proof.
  intros Hpsl Hpos. unfold _ensure_cached.
  unfold cache_is_enough at 1. rewrite andb_false_r.
  set (filled := if _ && _ then _ else _).
  assert (Hf : searched (snd filled) = [] /\ same_bookkeeping e (fst filled)).
  { unfold filled. destruct (_ && _).
    - destruct (fill_loop_pages env query (_query_tokens query)
                  (match pst with Some l => l | None => target end)
                  (fill_fuel e) e) as (n & Hev & _ & _ & Hbk & _).
      unfold _fill_yandex. rewrite Hev. split; [apply searched_pages | exact Hbk].
    - split; [reflexivity|]. repeat split; reflexivity. }
  destruct Hf as (Hev & Hbk). destruct filled as [e1 evs]. cbn [fst snd] in Hev, Hbk.
  unfold cache_is_enough. rewrite andb_false_r.
  assert (E : per_source_limit_of e1 target sources true pst
              = per_source_limit_of e target sources true pst) by reflexivity.
  rewrite E, Hpsl. apply Z.leb_gt in Hpos. rewrite Hpos.
  cbn [negb orb]. rewrite (schedule_bookkeeping e e1 _ psl sources Hbk).
  destruct (schedule e _ psl sources) as [|t tasks]; [exact Hev|].
  destruct wait; cbn [fst snd]; rewrite searched_app, Hev, searched_tasks; reflexivity.
Qed.



End Deadline.


(** C9: [search_products] always calls [_ensure_cached] with
    [explicit_sources] true: the list given, or else the default list of
    eight sources, which has more than one element.  So the first return of
    [_ensure_cached] (enough items cached, nothing fetched) is never taken:
    whatever the cache holds, every source of the request other than Yandex
    that has a provider and no task pending is asked, in per-source mode
    provided the page size is positive and above the watermark of the
    source. *)
Theorem multi_source_is_explicit `{R : PyRuntime} (env : Env) (sts now : Z)
    (entry : Entry.t) (query : str) (offset limit : Z) (sources : option (list str))
    (per_source partial : bool) :
  let sources_n := _normalize_sources sources in
  let e0 := if Entry.expires_at entry <=? now then Entry.reset now entry else entry in
  let target :=
    if per_source
    then Z.min ((offset + limit) * Z.of_nat (length sources_n)) MAX_CACHE_ITEMS
    else Z.min (offset + limit) MAX_CACHE_ITEMS in
  let r := search_products env sts now entry query offset limit sources per_source partial in
  let called :=
    _ensure_cached env e0 query target sources_n true
      (if per_source then Some (offset + limit) else None)
      (slow_timeout_of sts sources_n per_source partial) (per_source && negb partial) in
  (1 < length (_normalize_sources None))%nat /\
  explicit_sources_of sources = true /\
  (sp_entry r = Entry.with_items (sort_by item_compare) (fst (fst called)) /\
   sp_events r = snd (fst called) /\ sp_late r = snd called) /\
  (forall e, cache_is_enough e target (explicit_sources_of sources) = false) /\
  (forall source,
     In source sources_n -> source <> YANDEX -> known_provider source = true ->
     source ∉ Entry.pending_sources e0 ->
     (per_source = true ->
      0 < offset + limit /\
      default 0 (Entry.source_limits e0 !! source) < offset + limit) ->
     exists requested, 0 < requested /\ In (EvSearch source requested) (sp_events r)).
Proof.
  intros sources_n e0 target r called.
  destruct (search_products_parts env sts now entry query offset limit
              sources per_source partial) as (He & Hev & Hl & _).
  fold sources_n in He, Hev, Hl. fold r in He, Hev, Hl. fold e0 in He, Hev, Hl.
  fold target in He, Hev, Hl.
  rewrite explicit_sources_always in He, Hev, Hl. fold called in He, Hev, Hl.
  split; [vm_compute; lia|]. split; [apply explicit_sources_always|].
  split; [split; [exact He | split; [exact Hev | exact Hl]]|].
  split.
  { intros e. rewrite explicit_sources_always. unfold cache_is_enough.
    apply andb_false_r. }
  intros source Hin Hy Hk Hp Hps.
  set (pst := if per_source then Some (offset + limit) else None) in *.
  assert (Hny : In source (List.filter (fun src => negb (str_eqb src YANDEX)) sources_n)).
  { apply filter_In. split; [exact Hin|]. apply negb_true_iff, str_eqb_neq, Hy. }
  assert (Hpsl : exists psl, per_source_limit_of e0 target sources_n true pst = Some psl /\
                   0 < psl /\ (per_source = true -> psl = offset + limit)).
  { unfold per_source_limit_of. cbn [negb andb].
    destruct (List.filter _ sources_n) as [|s0 l0] eqn:Ef; [contradiction|].
    unfold pst. destruct per_source.
    - exists (offset + limit). split; [reflexivity|]. split; [apply Hps; reflexivity | auto].
    - eexists. split; [reflexivity|]. split; [|discriminate].
      set (n := Z.of_nat (length (s0 :: l0))).
      assert (Hn : 1 <= n) by (unfold n; cbn [length]; lia).
      destruct (Z.ltb_spec (PER_SOURCE_LIMIT * n) target) as [Hlt|_];
        [|unfold PER_SOURCE_LIMIT; lia].
      unfold ceil_div. unfold PER_SOURCE_LIMIT in Hlt.
      apply Z.div_str_pos. lia. }
  destruct Hpsl as (psl & Hpsl & Hpos & Hpsl').
  pose proof (ensure_cached_explicit env e0 query target sources_n pst
                (slow_timeout_of sts sources_n per_source partial)
                (per_source && negb partial) psl Hpsl Hpos) as Hs.
  fold called in Hs. rewrite <- Hev in Hs.
  destruct (schedule_complete e0 (match pst with Some _ => true | None => false end)
              psl sources_n source Hin Hy Hp Hk) as [prev Ht].
  { unfold pst. destruct per_source; [|discriminate].
    intros _. rewrite (Hpsl' eq_refl). apply Hps. reflexivity. }
  assert (Hsrc : In source (searched (sp_events r))).
  { rewrite Hs. apply (in_map (fun t : task => fst (fst t)) _ _ Ht). }
  apply searched_In in Hsrc as [requested Hr]. exists requested. split; [|exact Hr].
  destruct (ensure_cached_outcome env e0 query target sources_n true pst
              (slow_timeout_of sts sources_n per_source partial)
              (per_source && negb partial)) as (tasks & Hevs & Hsch & _).
  fold called in Hevs. rewrite <- Hev in Hevs.
  destruct (proj1 (Hevs source requested) Hr) as [prev' Ht'].
  destruct Hsch as [E|(psl' & Hpos' & E)]; rewrite E in Ht'; [contradiction|].
  apply schedule_spec in Ht' as (_ & _ & _ & _ & -> & _). exact Hpos'.
Qed.
